(** * DynoGraph utilities: edges, batches, datasets and their validation

    A shallow embedding of the dataset layer of [dynograph_util]
    (edgelist_dataset.cc, rmat_dataset.cc, dynograph_util.cc/.c) together
    with the properties the design document states about it. *)

From Stdlib Require Import ZArith List Bool Ascii String Permutation Sorted Lia.
From Stdlib Require Import SpecFloat DecimalString.
Import ListNotations.
Local Open Scope Z_scope.

Set Implicit Arguments.

(* ================================================================== *)
(** * Machine integers *)

Module Int64.
Definition modulus : Z := 2 ^ 64.
Definition min_signed : Z := - 2 ^ 63.
Definition max_signed : Z := 2 ^ 63 - 1.

  (** An [int64_t] is a [Z]; arithmetic that can leave the range is
      reduced to its two's complement representative. *)
Definition wrap (z : Z) : Z :=
    (z + 2 ^ 63) mod modulus - 2 ^ 63.

  (** [static_cast<size_t>(z)] of an [int64_t]: a negative value is
    taken modulo [2^64]. *)
Definition to_size_t (z : Z) : Z := if z <? 0 then z + modulus else z.

Definition in_range (z : Z) : Prop := min_signed <= z <= max_signed.

Definition add (a b : Z) : Z := wrap (a + b).
Definition sub (a b : Z) : Z := wrap (a - b).
Definition mul (a b : Z) : Z := wrap (a * b).
End Int64.

(* ================================================================== *)
(** * Edges *)

Record Edge : Type := mkEdge {
  src : Z;
  dst : Z;
  weight : Z;
  timestamp : Z
}.

(** [operator<]: src ascending, then dst ascending, then timestamp
    descending. *)
Definition Edge_lt (a b : Edge) : bool :=
  if negb (src a =? src b) then src a <? src b
  else if negb (dst a =? dst b) then dst a <? dst b
  else timestamp a >? timestamp b.

(** [operator==]: all four fields. *)
Definition Edge_eqb (a b : Edge) : bool :=
  (src a =? src b) && (dst a =? dst b)
  && (weight a =? weight b) && (timestamp a =? timestamp b).

(** The predicate handed to [std::unique_copy] by the deduplication. *)
Definition same_src_dst (a b : Edge) : bool :=
  (src a =? src b) && (dst a =? dst b).

(** Selecting the edges of one (src,dst) pair. *)
Definition has_key (s d : Z) (e : Edge) : bool :=
  (src e =? s) && (dst e =? d).

(* ================================================================== *)
(** * The standard algorithms the code calls *)

Module Std.

  (** The [Compare] requirement of the standard library. *)
Record strict_weak_order {A : Type} (lt : A -> A -> bool) : Prop := {
    swo_irrefl : forall x, lt x x = false;
    swo_trans : forall x y z, lt x y = true -> lt y z = true -> lt x z = true;
    swo_equiv_trans : forall x y z,
        lt x y = false -> lt y x = false ->
        lt y z = false -> lt z y = false ->
        lt x z = false /\ lt z x = false
  }.

  (** What [std::sort] leaves behind: no element compares less than one
      placed before it. *)
Definition sorted_by {A : Type} (lt : A -> A -> bool) : list A -> Prop :=
    StronglySorted (fun x y => lt y x = false).

  (** [std::sort] is not stable, and the order it gives to equivalent
      elements depends on the implementation: the code is verified
      against the contract, for every implementation that meets it. *)
Record Sort : Type := {
    sort : forall A : Type, (A -> A -> bool) -> list A -> list A;
    sort_perm : forall (A : Type) (lt : A -> A -> bool) (l : list A),
        strict_weak_order lt -> Permutation l (sort lt l);
    sort_sorted : forall (A : Type) (lt : A -> A -> bool) (l : list A),
        strict_weak_order lt -> sorted_by lt (sort lt l)
  }.

  (** [std::unique_copy]: the first element of every run of consecutive
      elements related by [eq] is copied. *)
Fixpoint unique_copy_from {A : Type} (eq : A -> A -> bool)
           (value : A) (l : list A) : list A :=
    match l with
    | [] => []
    | x :: l' =>
        if eq value x then unique_copy_from eq value l'
        else x :: unique_copy_from eq x l'
    end.

Definition unique_copy {A : Type} (eq : A -> A -> bool) (l : list A)
    : list A :=
    match l with
    | [] => []
    | x :: l' => x :: unique_copy_from eq x l'
    end.

  (** [std::is_sorted] with a comparator: no adjacent pair is out of
      order. *)
Fixpoint is_sorted {A : Type} (lt : A -> A -> bool) (l : list A) : bool :=
    match l with
    | [] => true
    | x :: l' =>
        match l' with
        | [] => true
        | y :: _ => negb (lt y x) && is_sorted lt l'
        end
    end.

  (** [std::find_if]: the offset of the first element satisfying [p], or
      the length of the range (the end iterator). *)
Fixpoint find_if {A : Type} (p : A -> bool) (l : list A) : nat :=
    match l with
    | [] => O
    | x :: l' => if p x then O else S (find_if p l')
    end.

  (** [std::max_element] with a comparator: the first greatest element. *)
Fixpoint max_element_from {A : Type} (lt : A -> A -> bool)
           (largest : A) (l : list A) : A :=
    match l with
    | [] => largest
    | x :: l' =>
        max_element_from lt (if lt largest x then x else largest) l'
    end.

Definition max_element {A : Type} (lt : A -> A -> bool) (l : list A)
    : option A :=
    match l with
    | [] => None
    | x :: l' => Some (max_element_from lt x l')
    end.

  (** ** A reference implementation of the sort contract *)

Fixpoint insert_sorted {A : Type} (lt : A -> A -> bool) (x : A)
           (l : list A) : list A :=
    match l with
    | [] => [x]
    | y :: l' => if lt x y then x :: y :: l' else y :: insert_sorted lt x l'
    end.

Fixpoint insertion_sort {A : Type} (lt : A -> A -> bool) (l : list A)
    : list A :=
    match l with
    | [] => []
    | x :: l' => insert_sorted lt x (insertion_sort lt l')
    end.

End Std.

(* ================================================================== *)
(** * Batches *)

Section Batches.
Variable S : Std.Sort.

  (** [DeduplicatedBatch::DeduplicatedBatch]: the edges the view owns
      after construction from the range [batch]. *)
Definition DeduplicatedBatch (batch : list Edge) : list Edge :=
    let sorted_edges := Std.sort S Edge_lt batch in
    Std.unique_copy same_src_dst sorted_edges.

  (** [DeduplicatedBatch::num_vertices_affected]. *)
Definition DeduplicatedBatch_num_vertices_affected
             (deduped_edges : list Edge) : Z :=
    let src_vertices := map src deduped_edges in
    let dst_vertices := map dst deduped_edges in
    let src_vertices := src_vertices ++ dst_vertices in
    let sorted_vertices := Std.sort S Z.ltb src_vertices in
    let unique_vertices := Std.unique_copy Z.eqb sorted_vertices in
    Z.of_nat (List.length unique_vertices).

  (** [Batch::num_vertices_affected]: sort and deduplicate, then ask the
      deduplicated view. *)
Definition Batch_num_vertices_affected (batch : list Edge) : Z :=
    let sorted := DeduplicatedBatch batch in
    DeduplicatedBatch_num_vertices_affected sorted.

  (** [FilteredBatch::FilteredBatch]: the range starts at the first edge
      that is not older than [threshold]. *)
Definition FilteredBatch (batch : list Edge) (threshold : Z) : list Edge :=
    skipn (Std.find_if (fun e => timestamp e >=? threshold) batch) batch.
End Batches.


(* ================================================================== *)
(** * Doubles *)

Module Double.
(** IEEE 754 binary64, round to nearest even, as [double] on the
    targets of the benchmark. *)
Definition prec : Z := 53.
Definition emax : Z := 1024.
Definition t : Type := spec_float.

(** [static_cast<double>(z)] for an integer [z]. *)
Definition of_int (z : Z) : t := binary_normalize prec emax z 0 false.

Definition div (x y : t) : t := SFdiv prec emax x y.
Definition mul (x y : t) : t := SFmul prec emax x y.
Definition ltb (x y : t) : bool := SFltb x y.

Definition zero : t := S754_zero false.
Definition one : t := of_int 1.

(** [std::floor], as an integer: the result of [std::floor] on a finite
    double is an integer-valued double. *)
Definition floor (x : t) : option Z :=
  match x with
  | S754_zero _ => Some 0
  | S754_finite s m e =>
      let v := if s then Z.neg m else Z.pos m in
      Some (if 0 <=? e then v * 2 ^ e else v / 2 ^ (- e))
  | S754_infinity _ => None
  | S754_nan => None
  end.

(** Conversion of a double to an integer drops the fraction. *)
Definition trunc (x : t) : option Z :=
  match x with
  | S754_zero _ => Some 0
  | S754_finite s m e =>
      let v := if s then Z.neg m else Z.pos m in
      Some (if 0 <=? e then v * 2 ^ e else Z.quot v (2 ^ (- e)))
  | S754_infinity _ => None
  | S754_nan => None
  end.

(** [static_cast<int64_t>] of an integer-valued double.  The conversion
    of a value outside the range of [int64_t] (and of an infinity or a
    NaN) is not defined by the language; the conversion instruction of
    the x86-64 targets gives the least [int64_t], which is what is
    modelled. *)
Definition to_int64 (v : option Z) : Z :=
  match v with
  | Some z =>
      if (Int64.min_signed <=? z) && (z <=? Int64.max_signed) then z
      else Int64.min_signed
  | None => Int64.min_signed
  end.
End Double.

(** [round_down]: round down to the nearest integer. *)
Definition round_down (x : Double.t) : Z :=
  Double.to_int64 (Double.floor x).

(** [true_div]: divide two numbers with a double result.  The template
    is instantiated at two integers and at an integer and a double. *)
Definition true_div (x y : Z) : Double.t :=
  Double.div (Double.of_int x) (Double.of_int y).

Definition true_div_d (x : Z) (y : Double.t) : Double.t :=
  Double.div (Double.of_int x) y.

(* ================================================================== *)
(** * Outcomes of fallible code *)

Inductive outcome (A : Type) : Type :=
| Ok (a : A)
| Die (log : string)   (* the text the function logged, then [exit(-1)] *)
| Aborted              (* a failed [assert], or an exception nobody catches *)
| Undefined            (* behaviour the language leaves undefined *)
| OutOfFuel.           (* a loop that used up the fuel of the model *)

Arguments Ok {A} a.
Arguments Die {A} log.
Arguments Aborted {A}.
Arguments Undefined {A}.
Arguments OutOfFuel {A}.

Definition bind {A B : Type} (m : outcome A) (k : A -> outcome B)
  : outcome B :=
  match m with
  | Ok a => k a
  | Die log => Die log
  | Aborted => Aborted
  | Undefined => Undefined
  | OutOfFuel => OutOfFuel
  end.

Notation "x <- m ;; k" := (bind m (fun x => k))
  (at level 61, m at next level, right associativity).

(* ================================================================== *)
(** * Text *)

Definition tab : string := String (ascii_of_nat 9) EmptyString.
Definition nl : string := String (ascii_of_nat 10) EmptyString.

(** [operator<<] of an integer on a stream. *)
Definition show (z : Z) : string := NilZero.string_of_int (Z.to_int z).

(** [has_suffix]: test a string for a given suffix. *)
Definition has_suffix (str suffix : string) : bool :=
  (String.length suffix <=? String.length str)%nat
  && String.eqb
       (substring (String.length str - String.length suffix)
                  (String.length suffix) str)
       suffix.

(* ================================================================== *)
(** * Configuration *)

Inductive SORT_MODE : Type := UNSORTED | PRESORT | SNAPSHOT.

(** The structure [Args], with the fields that [Args::parse] fills and
    [Args::validate] checks. *)
Record Args : Type := mkArgs {
  num_epochs : Z;
  input_path : string;
  batch_size : Z;
  alg_names : list string;
  sort_mode : SORT_MODE;
  window_size : Double.t;
  num_trials : Z
}.

(** The table [option_descriptions]. *)
Definition option_descriptions : list (string * string) :=
  [ ("num-epochs", "Number of epochs (algorithm updates) in the benchmark");
    ("input-path", "File path to the graph edge list to load (.graph.el or .graph.bin)");
    ("batch-size", "Number of edges in each batch of insertions");
    ("alg-names", "Algorithms to run in each epoch");
    ("sort-mode", "Controls batch pre-processing: " ++ nl
                  ++ tab ++ tab ++ "unsorted (no preprocessing, default)," ++ nl
                  ++ tab ++ tab ++ "presort (sort and deduplicate before insert), or" ++ nl
                  ++ " " ++ tab ++ tab ++ "snapshot (clear out graph and reconstruct for each batch)");
    ("window-size", "Percentage of the graph to hold in memory (computed using timestamps) ");
    ("num-trials", "Number of times to repeat the benchmark");
    ("help", "Print help") ]%string.

(** [Args::print_help]: the text handed to the logger. *)
Definition Args_print_help (argv0 : string) : string :=
  fold_left
    (fun oss o => oss ++ tab ++ "--" ++ fst o ++ tab ++ snd o ++ nl)%string
    option_descriptions
    ("Usage: " ++ argv0 ++ " [OPTIONS]" ++ nl)%string.

(** [Args::validate]: every check appends its line to the stream, and
    the text of the stream is returned. *)
Definition Args_validate (args : Args) : string :=
  let oss := EmptyString in
  let oss :=
    if num_epochs args <? 1
    then (oss ++ tab ++ "--num-epochs must be positive" ++ nl)%string
    else oss in
  let oss :=
    if String.eqb (input_path args) EmptyString
    then (oss ++ tab ++ "--input-path cannot be empty" ++ nl)%string
    else oss in
  let oss :=
    if batch_size args <? 1
    then (oss ++ tab ++ "--batch-size must be positive" ++ nl)%string
    else oss in
  let oss :=
    if Double.ltb (window_size args) Double.zero
       || Double.ltb Double.one (window_size args)
    then (oss ++ tab ++ "--window-size must be in the range [0.0, 1.0]" ++ nl)%string
    else oss in
  let oss :=
    if num_trials args <? 1
    then (oss ++ tab ++ "--num-trials must be positive" ++ nl)%string
    else oss in
  oss.

(** The end of [Args::parse], once the options have been read into
    [args]: validation, and the fatal exit when it leaves a message. *)
Definition Args_parse_validated (argv0 : string) (args : Args)
  : outcome Args :=
  let message := Args_validate args in
  if negb (String.eqb message EmptyString)
  then Die ("Invalid arguments:" ++ nl ++ message ++ Args_print_help argv0)%string
  else Ok args.

(** ** The C port *)

(** [dynograph_message]: one line on the error stream. *)
Definition dynograph_message (text : string) : string :=
  ("[DynoGraph] " ++ text ++ nl)%string.

(** [print_help] of the C port. *)
Definition print_help (argv0 : string) : string :=
  fold_left
    (fun err o =>
       err ++ dynograph_message (tab ++ "--" ++ fst o ++ tab ++ snd o))%string
    option_descriptions
    (dynograph_message ("Usage: " ++ argv0 ++ " [OPTIONS]"))%string.

(** [validate] of the C port: the verdict, and what was written to the
    error stream. *)
Definition validate (args : Args) : bool * string :=
  if num_epochs args <? 1
  then (false, dynograph_message (tab ++ "--num-epochs must be positive"))
  else if String.eqb (input_path args) EmptyString
  then (false, dynograph_message (tab ++ "--input-path cannot be empty"))
  else if batch_size args <? 1
  then (false, dynograph_message (tab ++ "--batch-size must be positive"))
  else if Double.ltb (window_size args) Double.zero
          || Double.ltb Double.one (window_size args)
  then (false, dynograph_message
                 (tab ++ "--window-size must be in the range [0.0, 1.0]"))
  else if num_trials args <? 1
  then (false, dynograph_message (tab ++ "--num-trials must be positive"))
  else (true, EmptyString).

(** The end of [dynograph_args_parse]. *)
Definition dynograph_args_parse_validated (argv0 : string) (args : Args)
  : outcome Args :=
  let '(args_are_valid, err) := validate args in
  if negb args_are_valid
  then Die (err ++ dynograph_message "Terminating due to invalid arguments"
                ++ print_help argv0)%string
  else Ok args.

(** ** The constraints on a configuration *)

Inductive constraint : Type :=
| c_num_epochs | c_input_path | c_batch_size | c_window_size | c_num_trials.

Definition constraints : list constraint :=
  [c_num_epochs; c_input_path; c_batch_size; c_window_size; c_num_trials].

Definition violated (args : Args) (c : constraint) : bool :=
  match c with
  | c_num_epochs => num_epochs args <? 1
  | c_input_path => String.eqb (input_path args) EmptyString
  | c_batch_size => batch_size args <? 1
  | c_window_size =>
      Double.ltb (window_size args) Double.zero
      || Double.ltb Double.one (window_size args)
  | c_num_trials => num_trials args <? 1
  end.

Definition entry (c : constraint) : string :=
  match c with
  | c_num_epochs => "--num-epochs must be positive"
  | c_input_path => "--input-path cannot be empty"
  | c_batch_size => "--batch-size must be positive"
  | c_window_size => "--window-size must be in the range [0.0, 1.0]"
  | c_num_trials => "--num-trials must be positive"
  end.

(** The itemized list: one tab-indented line per constraint. *)
Definition itemize (cs : list constraint) : string :=
  String.concat EmptyString (map (fun c => tab ++ entry c ++ nl)%string cs).

(* ================================================================== *)
(** * Datasets loaded from an edge list *)

(** The datasets are modelled in a single process: [MPI_RANK_0_ONLY] and
    [MPI_BROADCAST_RESULT] only act in a build with several ranks.

    A [Batch] of a dataset is a pair of iterators into the vector of
    edges the dataset owns: the offsets of its first edge and of the
    edge after its last. *)
Record Batch : Type := mkBatch {
  begin_iter : Z;
  end_iter : Z
}.

(** The edges a batch ranges over. *)
Definition Batch_edges (edges : list Edge) (b : Batch) : list Edge :=
  firstn (Z.to_nat (end_iter b - begin_iter b))
         (skipn (Z.to_nat (begin_iter b)) edges).

Record EdgeListDataset : Type := mkEdgeListDataset {
  el_args : Args;
  el_directed : bool;
  el_edges : list Edge;
  el_batches : list Batch;
  el_max_vertex_id : Z;
  el_min_timestamp : Z;
  el_max_timestamp : Z
}.

Definition sizeof_Edge : Z := 32.
Definition INT_MAX : Z := 2 ^ 31 - 1.

(** ** Binary files *)

(** A little-endian unsigned number. *)
Fixpoint le_unsigned (bytes : list Byte.byte) : Z :=
  match bytes with
  | [] => 0
  | b :: rest => Z.of_N (Byte.to_N b) + 256 * le_unsigned rest
  end.

(** One [int64_t] field of a record, in the byte order of the host. *)
Definition read_int64 (bytes : list Byte.byte) : Z :=
  Int64.wrap (le_unsigned (firstn 8 bytes)).

Definition read_Edge (bytes : list Byte.byte) : Edge :=
  {| src := read_int64 bytes;
     dst := read_int64 (skipn 8 bytes);
     weight := read_int64 (skipn 16 bytes);
     timestamp := read_int64 (skipn 24 bytes) |}.

(** [fread(buf, sizeof(Edge), count, fp)] on a fresh stream: the
    complete records read, at most [count] of them. *)
Fixpoint fread (count : nat) (bytes : list Byte.byte) : list Edge :=
  match count with
  | O => []
  | S count' =>
      if (Z.of_nat (List.length bytes) <? sizeof_Edge) then []
      else read_Edge bytes :: fread count' (skipn 32 bytes)
  end.

(** [EdgeListDataset::loadEdgesBinary].  [file] is the content of the
    file at [path], when there is one. *)
Definition loadEdgesBinary (path : string) (file : option (list Byte.byte))
  : outcome (list Edge) :=
  let log := ("Checking file size of " ++ path ++ "..." ++ nl)%string in
  match file with
  | None => Die (log ++ "Failed to stat " ++ path ++ nl)%string
  | Some bytes =>
      let st_size := Z.of_nat (List.length bytes) in
      let numEdges := st_size / sizeof_Edge in
      let log := (log ++ "Preloading " ++ show numEdges ++ " " ++ "directed"
                      ++ " edges from " ++ path ++ "..." ++ nl)%string in
      let read := fread (Z.to_nat numEdges) bytes in
      let rc := Z.of_nat (List.length read) in
      if negb (rc =? numEdges)
      then Die (log ++ "Failed to load graph from " ++ path ++ nl)%string
      else Ok read
  end.

(** ** Construction *)

(** The loop that stores the iterators of every batch. *)
Fixpoint store_batches (n : nat) (i : Z) (batch_size : Z)
         (batches : list Batch) : list Batch :=
  match n with
  | O => batches
  | S n' =>
      let offset := i * batch_size in
      let b := {| begin_iter := offset; end_iter := offset + batch_size |} in
      store_batches n' (i + 1) batch_size (batches ++ [b])
  end.

(** The constructor of [EdgeListDataset], from the point where the
    loader has filled [edges]. *)
Definition EdgeListDataset_init (args : Args) (edges : list Edge)
  : outcome EdgeListDataset :=
  let size := Z.of_nat (List.length edges) in
  if batch_size args =? 0 then Undefined else
  (* Intentionally rounding down to make it divide evenly *)
  (* the quotient is at most [edges.size()], which fits an [int64_t] *)
  let num_batches := size / Int64.to_size_t (batch_size args) in
  (* Sanity check on arguments *)
  if Int64.to_size_t (batch_size args) >? size then
    Die ("Invalid arguments: batch size (" ++ show (batch_size args) ++ ") "
         ++ "cannot be larger than the total number of edges in the dataset "
         ++ " (" ++ show size ++ ")" ++ nl)%string
  else if num_epochs args >? num_batches then
    Die ("Invalid arguments: number of epochs (" ++ show (num_epochs args) ++ ") "
         ++ "cannot be greater than the number of batches in the dataset "
         ++ "(" ++ show num_batches ++ ")" ++ nl)%string
  else
  (* Calculate max vertex id *)
  match Std.max_element
          (fun a b => Z.max (src a) (dst a) <? Z.max (src b) (dst b)) edges,
        edges, rev edges with
  | Some max_edge, front :: _, back :: _ =>
      let max_vertex_id := Z.max (src max_edge) (dst max_edge) in
      (* Make sure edges are sorted by timestamp, and save min/max timestamp *)
      if negb (Std.is_sorted (fun a b => timestamp a <? timestamp b) edges)
      then Die ("Invalid dataset: edges not sorted by timestamp" ++ nl)%string
      else
      let min_timestamp := timestamp front in
      let max_timestamp := timestamp back in
      (* Make sure there are no self-edges *)
      let self_edge := Std.find_if (fun e => src e =? dst e) edges in
      if negb (Nat.eqb self_edge (List.length edges))
      then Die ("Invalid dataset: no self-edges allowed" ++ nl)%string
      else
      (* the counter of the loop is an [int] *)
      if num_batches >? INT_MAX then Undefined else
      let batches :=
        store_batches (Z.to_nat num_batches) 0 (batch_size args) [] in
      Ok {| el_args := args;
            el_directed := true;
            el_edges := edges;
            el_batches := batches;
            el_max_vertex_id := max_vertex_id;
            el_min_timestamp := min_timestamp;
            el_max_timestamp := max_timestamp |}
  | _, _, _ => Undefined   (* an end iterator is dereferenced *)
  end.

Section Loading.
(** The content of the file at a path, when there is one. *)
Variable file_at : string -> option (list Byte.byte).
(** [EdgeListDataset::loadEdgesAscii]; the parsing of text is not part
    of this development. *)
Variable loadEdgesAscii : string -> outcome (list Edge).

(** [EdgeListDataset::EdgeListDataset]. *)
Definition EdgeListDataset_new (args : Args) : outcome EdgeListDataset :=
  edges <- (if has_suffix (input_path args) ".graph.bin"
            then loadEdgesBinary (input_path args) (file_at (input_path args))
            else if has_suffix (input_path args) ".graph.el"
            then loadEdgesAscii (input_path args)
            else Die ("Unrecognized file extension for "
                      ++ input_path args ++ nl)%string) ;;
  EdgeListDataset_init args edges.
End Loading.

(** ** Queries *)

(** [EdgeListDataset::getTimestampForWindow]. *)
Definition EdgeListDataset_getTimestampForWindow
           (ds : EdgeListDataset) (batchId : Z) : outcome Z :=
  (* Calculate width of timestamp window *)
  let window_time :=
    round_down
      (Double.mul (window_size (el_args ds))
                  (Double.of_int
                     (Int64.sub (el_max_timestamp ds) (el_min_timestamp ds)))) in
  (* Get the timestamp of the last edge in the current batch *)
  if batchId <? 0 then Undefined else
  match nth_error (el_batches ds) (Z.to_nat batchId) with
  | None => Undefined
  | Some b =>
      if end_iter b - 1 <? 0 then Undefined else
      match nth_error (el_edges ds) (Z.to_nat (end_iter b - 1)) with
      | None => Undefined
      | Some e =>
          let latest_time := timestamp e in
          Ok (Z.max (el_min_timestamp ds) (Int64.sub latest_time window_time))
      end
  end.

(** The body shared by [EdgeListDataset::enableAlgsForBatch] and
    [RmatDataset::enableAlgsForBatch]. *)
Definition enable_algs (num_batches num_epochs batch_id : Z) : bool :=
  (* How many batches in each epoch, on average? *)
  let batches_per_epoch := true_div num_batches num_epochs in
  (* How many algs run before this batch? *)
  let batches_before := round_down (true_div_d batch_id batches_per_epoch) in
  (* How many algs should run after this batch? *)
  let batches_after :=
    round_down (true_div_d (Int64.add batch_id 1) batches_per_epoch) in
  (* If the count changes between this batch and the next, run an alg now *)
  Int64.sub batches_after batches_before >? 0.

(** [EdgeListDataset::enableAlgsForBatch]. *)
Definition EdgeListDataset_enableAlgsForBatch
           (ds : EdgeListDataset) (batch_id : Z) : bool :=
  enable_algs (Z.of_nat (List.length (el_batches ds)))
              (num_epochs (el_args ds)) batch_id.

(** [EdgeListDataset::getBatch]. *)
Definition EdgeListDataset_getBatch (ds : EdgeListDataset) (batchId : Z)
  : outcome Batch :=
  if batchId <? 0 then Undefined else
  match nth_error (el_batches ds) (Z.to_nat batchId) with
  | None => Undefined
  | Some b => Ok b
  end.

(** [EdgeListDataset::getBatchesUpTo]. *)
Definition EdgeListDataset_getBatchesUpTo (ds : EdgeListDataset) (batchId : Z)
  : outcome Batch :=
  b <- EdgeListDataset_getBatch ds batchId ;;
  Ok {| begin_iter := 0; end_iter := end_iter b |}.

Definition EdgeListDataset_getNumBatches (ds : EdgeListDataset) : Z :=
  Z.of_nat (List.length (el_batches ds)).

Definition EdgeListDataset_getNumEdges (ds : EdgeListDataset) : Z :=
  Z.of_nat (List.length (el_edges ds)).

(** How many of the batch ids [0 .. n-1] enable the algorithms. *)
Definition count_enabled (enable : Z -> bool) (n : Z) : Z :=
  Z.of_nat
    (List.length (filter enable (map Z.of_nat (seq 0 (Z.to_nat n))))).

(* ================================================================== *)
(** * Synthetic datasets *)

Record RmatArgs : Type := mkRmatArgs {
  rmat_a : Double.t;
  rmat_b : Double.t;
  rmat_c : Double.t;
  rmat_d : Double.t;
  rmat_num_edges : Z;
  rmat_num_vertices : Z
}.

(** The class [rmat_edge_generator] is declared outside the sources at
    hand and is a parameter of the model: its states, its constructor
    and [next_edge], which draws the endpoints of one edge and advances
    the state.  The datasets use the class through this interface
    only. *)
Record rmat_edge_generator : Type := mkGenerator {
  gen_state : Type;
  gen_new : Z -> Double.t -> Double.t -> Double.t -> Double.t -> gen_state;
  next_edge : gen_state -> (Z * Z) * gen_state
}.

Section Rmat.
Variable G : rmat_edge_generator.

(** The members of [RmatDataset], in the order of the initializers of
    its constructor; the counters are [int64_t], as the accessors
    return them. *)
Record RmatDataset : Type := mkRmatDataset {
  rm_args : Args;
  rm_rmat_args : RmatArgs;
  rm_current_batch : Z;
  rm_num_edges : Z;
  rm_num_batches : Z;
  rm_num_vertices : Z;
  rm_next_timestamp : Z;
  rm_generator : gen_state G
}.

Definition new_generator (rmat_args : RmatArgs) : gen_state G :=
  gen_new G (rmat_num_vertices rmat_args)
          (rmat_a rmat_args) (rmat_b rmat_args)
          (rmat_c rmat_args) (rmat_d rmat_args).

(** [RmatDataset::RmatDataset]. *)
Definition RmatDataset_new (args : Args) (rmat_args : RmatArgs)
  : outcome RmatDataset :=
  let num_edges := rmat_num_edges rmat_args in
  if batch_size args =? 0 then Undefined else
  let num_batches := Int64.wrap (Z.quot num_edges (batch_size args)) in
  (* Sanity check on arguments *)
  if Int64.to_size_t (batch_size args) >? Int64.to_size_t num_edges then
    Die ("Invalid arguments: batch size (" ++ show (batch_size args) ++ ") "
         ++ "cannot be larger than the total number of edges in the dataset "
         ++ " (" ++ show num_edges ++ ")" ++ nl)%string
  else if num_epochs args >? num_batches then
    Die ("Invalid arguments: number of epochs (" ++ show (num_epochs args) ++ ") "
         ++ "cannot be greater than the number of batches in the dataset "
         ++ "(" ++ show num_batches ++ ")" ++ nl)%string
  else
    Ok {| rm_args := args;
          rm_rmat_args := rmat_args;
          rm_current_batch := 0;
          rm_num_edges := num_edges;
          rm_num_batches := num_batches;
          rm_num_vertices := rmat_num_vertices rmat_args;
          rm_next_timestamp := 0;
          rm_generator := new_generator rmat_args |}.

(** [RmatDataset::getTimestampForWindow]. *)
Definition RmatDataset_getTimestampForWindow (ds : RmatDataset) (batchId : Z)
  : Z :=
  (* Calculate width of timestamp window *)
  let window_time :=
    Double.to_int64
      (Double.trunc (Double.mul (Double.of_int (rm_num_edges ds))
                                (window_size (rm_args ds)))) in
  (* Get the timestamp of the last edge in the current batch *)
  let latest_time :=
    Int64.mul (Int64.add batchId 1) (batch_size (rm_args ds)) in
  Z.max 0 (Int64.sub latest_time window_time).

(** [RmatDataset::enableAlgsForBatch]. *)
Definition RmatDataset_enableAlgsForBatch (ds : RmatDataset) (batch_id : Z)
  : bool :=
  enable_algs (rm_num_batches ds) (num_epochs (rm_args ds)) batch_id.

(** The loop [do { generator.next_edge(&e.src, &e.dst); }
    while (e.src == e.dst);] of [RmatBatch::RmatBatch].  It ends when
    the generator draws an edge that is not a self-edge; [fuel] bounds
    the draws of the model. *)
Fixpoint draw_edge (fuel : nat) (g : gen_state G)
  : option ((Z * Z) * gen_state G) :=
  match fuel with
  | O => None
  | S fuel' =>
      let '(e, g') := next_edge G g in
      if fst e =? snd e then draw_edge fuel' g'   (* Discard self-edges *)
      else Some (e, g')
  end.

(** The [for] loop of [RmatBatch::RmatBatch]: [n] edges are still to be
    filled in; [edges] are those filled in so far. *)
Fixpoint fill_edges (fuel : nat) (n : nat) (g : gen_state G)
         (first_timestamp : Z) (edges : list Edge)
  : outcome (list Edge * gen_state G) :=
  match n with
  | O => Ok (edges, g)
  | S n' =>
      match draw_edge fuel g with
      | None => OutOfFuel
      | Some (e, g') =>
          let edge := {| src := fst e; dst := snd e;
                         weight := 1; timestamp := first_timestamp |} in
          fill_edges fuel n' g' (first_timestamp + 1) (edges ++ [edge])
      end
  end.

(** [RmatBatch::RmatBatch(generator, size, first_timestamp)]: the edges
    of the batch, and the generator as the constructor leaves it. *)
Definition RmatBatch_new (fuel : nat) (g : gen_state G)
           (size : Z) (first_timestamp : Z)
  : outcome (list Edge * gen_state G) :=
  if size <? 0 then Aborted              (* a vector of that size: [length_error] *)
  else if size >? INT_MAX then Undefined  (* the counter is an [int] *)
  else fill_edges fuel (Z.to_nat size) g first_timestamp [].

(** [RmatDataset::getBatch]: the batch, and the dataset afterwards. *)
Definition RmatDataset_getBatch (fuel : nat) (ds : RmatDataset) (batchId : Z)
  : outcome (list Edge * RmatDataset) :=
  (* Since this is a graph generator, batches must be generated in order *)
  if negb (batchId =? rm_current_batch ds) then Aborted else
  let current_batch := rm_current_batch ds + 1 in
  let first_timestamp := rm_next_timestamp ds in
  let next_timestamp := rm_next_timestamp ds + batch_size (rm_args ds) in
  r <- RmatBatch_new fuel (rm_generator ds) (batch_size (rm_args ds))
                     first_timestamp ;;
  Ok (fst r,
      {| rm_args := rm_args ds;
         rm_rmat_args := rm_rmat_args ds;
         rm_current_batch := current_batch;
         rm_num_edges := rm_num_edges ds;
         rm_num_batches := rm_num_batches ds;
         rm_num_vertices := rm_num_vertices ds;
         rm_next_timestamp := next_timestamp;
         rm_generator := snd r |}).

(** [RmatDataset::getBatchesUpTo]. *)
Definition RmatDataset_getBatchesUpTo (fuel : nat) (ds : RmatDataset)
           (batchId : Z) : outcome (list Edge * RmatDataset) :=
  if negb (batchId =? 0) then Aborted else
  let current_batch := batchId + 1 in
  let first_timestamp := rm_next_timestamp ds in
  let next_timestamp := rm_next_timestamp ds + batch_size (rm_args ds) in
  r <- RmatBatch_new fuel (rm_generator ds) (batch_size (rm_args ds))
                     first_timestamp ;;
  Ok (fst r,
      {| rm_args := rm_args ds;
         rm_rmat_args := rm_rmat_args ds;
         rm_current_batch := current_batch;
         rm_num_edges := rm_num_edges ds;
         rm_num_batches := rm_num_batches ds;
         rm_num_vertices := rm_num_vertices ds;
         rm_next_timestamp := next_timestamp;
         rm_generator := snd r |}).

(** [RmatDataset::reset]. *)
Definition RmatDataset_reset (ds : RmatDataset) : RmatDataset :=
  {| rm_args := rm_args ds;
     rm_rmat_args := rm_rmat_args ds;
     rm_current_batch := 0;
     rm_num_edges := rm_num_edges ds;
     rm_num_batches := rm_num_batches ds;
     rm_num_vertices := rm_num_vertices ds;
     rm_next_timestamp := 0;
     rm_generator := new_generator (rm_rmat_args ds) |}.

(** The batches [getBatch(first)], [getBatch(first+1)], ..., [n] of
    them, requested in this order. *)
Fixpoint getBatches (fuel : nat) (n : nat) (ds : RmatDataset) (first : Z)
  : outcome (list (list Edge)) :=
  match n with
  | O => Ok []
  | S n' =>
      r <- RmatDataset_getBatch fuel ds first ;;
      rest <- getBatches fuel n' (snd r) (first + 1) ;;
      Ok (fst r :: rest)
  end.

(** The first [n] draws of a generator, and its state after them. *)
Fixpoint draws (n : nat) (g : gen_state G) : list (Z * Z) * gen_state G :=
  match n with
  | O => ([], g)
  | S n' =>
      let '(e, g') := next_edge G g in
      let '(es, g'') := draws n' g' in
      (e :: es, g'')
  end.

(** What the callers of a dataset can do to it. *)
Inductive step : RmatDataset -> RmatDataset -> Prop :=
| step_getBatch fuel ds batchId batch ds' :
    RmatDataset_getBatch fuel ds batchId = Ok (batch, ds') -> step ds ds'
| step_getBatchesUpTo fuel ds batchId batch ds' :
    RmatDataset_getBatchesUpTo fuel ds batchId = Ok (batch, ds') -> step ds ds'
| step_reset ds :
    step ds (RmatDataset_reset ds).

Inductive reachable (ds0 : RmatDataset) : RmatDataset -> Prop :=
| reachable_refl : reachable ds0 ds0
| reachable_step ds ds' : reachable ds0 ds -> step ds ds' -> reachable ds0 ds'.

(** The fields that no member function assigns. *)
Definition same_parameters (ds0 ds : RmatDataset) : Prop :=
  rm_args ds = rm_args ds0
  /\ rm_rmat_args ds = rm_rmat_args ds0
  /\ rm_num_edges ds = rm_num_edges ds0
  /\ rm_num_batches ds = rm_num_batches ds0
  /\ rm_num_vertices ds = rm_num_vertices ds0.
End Rmat.

(* ================================================================== *)
(** * Vocabulary of the properties *)

(** [n] is the number of distinct vertex ids that are the source or the
    destination of an edge of [batch]. *)
Definition distinct_endpoints (batch : list Edge) (n : Z) : Prop :=
  exists vs : list Z,
    NoDup vs
    /\ (forall v, In v vs <->
                  exists e, In e batch /\ (src e = v \/ dst e = v))
    /\ n = Z.of_nat (List.length vs).

(** The edges are in non-decreasing order of timestamp. *)
Definition nondecreasing_timestamps (edges : list Edge) : Prop :=
  StronglySorted (fun a b => timestamp a <= timestamp b) edges.

(** No edge joins a vertex to itself. *)
Definition no_self_edges (edges : list Edge) : Prop :=
  Forall (fun e => src e <> dst e) edges.

(** The edge at offset [p] of the vector lies in the range of [b]. *)
Definition covers (b : Batch) (p : Z) : Prop :=
  begin_iter b <= p < end_iter b.

(** The gating rule of the design document, with the division carried
    out exactly: [floor (i / (num_batches / num_epochs))] is
    [floor (i * num_epochs / num_batches)]. *)
Definition epochs_before (num_batches num_epochs batch_id : Z) : Z :=
  batch_id * num_epochs / num_batches.

Definition enable_algs_exact (num_batches num_epochs batch_id : Z) : bool :=
  epochs_before num_batches num_epochs (batch_id + 1)
  - epochs_before num_batches num_epochs batch_id >? 0.

(** The threshold of the design document: the timestamp of the last
    edge of the batch less the width of the window, and the least
    timestamp at least. *)
Definition window_threshold (window : Double.t)
           (min_timestamp max_timestamp t_last : Z) : Z :=
  let window_time :=
    round_down
      (Double.mul window
                  (Double.of_int (Int64.sub max_timestamp min_timestamp))) in
  Z.max min_timestamp (Int64.sub t_last window_time).

(** From every state, the generator draws an edge that is not a
    self-edge within [k] draws. *)
Definition productive (G : rmat_edge_generator) (k : nat) : Prop :=
  forall g : gen_state G, @draw_edge G k g <> None.

(** The endpoints of an edge. *)
Definition endpoints (e : Edge) : Z * Z := (src e, dst e).

Definition not_self (e : Z * Z) : bool := negb (fst e =? snd e).

(** The function ended with a logged message and the fatal exit. *)
Definition fatal {A : Type} (o : outcome A) : Prop :=
  exists log, o = Die log.

(** [needle] occurs in [text]. *)
Fixpoint contains (needle text : string) : bool :=
  String.prefix needle text
  || match text with
     | EmptyString => false
     | String _ text' => contains needle text'
     end.

(** The diagnostic has the entry of every constraint that [args]
    violates. *)
Definition lists_every_violation (args : Args) (diagnostic : string) : Prop :=
  forall c, violated args c = true -> contains (entry c) diagnostic = true.

(* ================================================================== *)
(** * Inputs to run the model on *)

(** ** The example of the design document *)

Definition example_edges : list Edge :=
  [mkEdge 1 2 1 0; mkEdge 1 3 1 1; mkEdge 1 2 5 2; mkEdge 2 3 1 3].

Definition example_args : Args :=
  {| num_epochs := 2;
     input_path := "example.graph.bin";
     batch_size := 2;
     alg_names := [];
     sort_mode := PRESORT;
     window_size := Double.one;
     num_trials := 1 |}.

Definition example_dataset : EdgeListDataset :=
  {| el_args := example_args;
     el_directed := true;
     el_edges := example_edges;
     el_batches := [mkBatch 0 2; mkBatch 2 4];
     el_max_vertex_id := 3;
     el_min_timestamp := 0;
     el_max_timestamp := 3 |}.

(** ** Nine batches and seven epochs *)

Definition nine_edges : list Edge :=
  map (fun k => mkEdge 1 2 1 (Z.of_nat k)) (seq 0 9).

Definition nine_args : Args :=
  {| num_epochs := 7;
     input_path := "nine.graph.bin";
     batch_size := 1;
     alg_names := [];
     sort_mode := UNSORTED;
     window_size := Double.one;
     num_trials := 1 |}.

Definition nine_rmat_args : RmatArgs :=
  {| rmat_a := Double.zero; rmat_b := Double.zero;
     rmat_c := Double.zero; rmat_d := Double.zero;
     rmat_num_edges := 9; rmat_num_vertices := 4 |}.

(** ** Generators *)

(** A small generator: it draws the self-edge [(0,0)] and the edge
    [(0,1)] in turn. *)
Definition alternating_generator : rmat_edge_generator :=
  {| gen_state := bool;
     gen_new := fun _ _ _ _ _ => true;
     next_edge := fun st =>
       if st then ((0, 0), false) else ((0, 1), true) |}.

(** A generator that draws self-edges only. *)
Definition stuck_generator : rmat_edge_generator :=
  {| gen_state := unit;
     gen_new := fun _ _ _ _ _ => tt;
     next_edge := fun st => ((0, 0), st) |}.

(** ** A synthetic dataset with a window of size 0 *)

Definition window0_args : Args :=
  {| num_epochs := 1;
     input_path := "0.25-0.25-0.25-0.25-4-4.rmat";
     batch_size := 2;
     alg_names := [];
     sort_mode := UNSORTED;
     window_size := Double.zero;
     num_trials := 1 |}.

Definition window0_rmat_args : RmatArgs :=
  {| rmat_a := Double.div (Double.of_int 1) (Double.of_int 4);
     rmat_b := Double.div (Double.of_int 1) (Double.of_int 4);
     rmat_c := Double.div (Double.of_int 1) (Double.of_int 4);
     rmat_d := Double.div (Double.of_int 1) (Double.of_int 4);
     rmat_num_edges := 4; rmat_num_vertices := 4 |}.

(** The dataset as its constructor leaves it. *)
Definition window0_dataset : RmatDataset alternating_generator :=
  @mkRmatDataset alternating_generator
                 window0_args window0_rmat_args 0 4 2 4 0 true.

(** The same dataset once batch 0 has been generated. *)
Definition window0_dataset_1 : RmatDataset alternating_generator :=
  @mkRmatDataset alternating_generator
                 window0_args window0_rmat_args 1 4 2 4 2 true.

(** ** Invalid inputs *)

(** A configuration that violates two constraints. *)
Definition two_violations : Args :=
  {| num_epochs := 0;
     input_path := "example.graph.bin";
     batch_size := 0;
     alg_names := [];
     sort_mode := UNSORTED;
     window_size := Double.one;
     num_trials := 1 |}.

(** A file of one record and one more byte. *)
Definition file_of_33_bytes : list Byte.byte := repeat Byte.x00 33.

(** Edges out of order, with a self-edge. *)
Definition invalid_edges : list Edge :=
  [mkEdge 1 2 1 5; mkEdge 1 3 1 1; mkEdge 4 4 1 7].

(* ================================================================== *)
(** * More of the sources *)

From Stdlib Require DecimalPos DecimalZ.

(** ** Vertices and their degrees *)

Record vertex_degree : Type := mk_vertex_degree {
  vertex_id : Z;
  out_degree : Z
}.

(** [operator<] on [vertex_degree]: by degree, and among vertices of
    one degree the greater id first. *)
Definition vertex_degree_lt (a b : vertex_degree) : bool :=
  if negb (out_degree a =? out_degree b) then out_degree a <? out_degree b
  else vertex_id a >? vertex_id b.

(** ** Strings of the command line *)

(** The loop [while (getline(ss, item, delim))] of [split], with the
    characters of [item] read so far.  A delimiter ends the item; the
    end of the text ends the last item, and a text that is used up makes
    the next [getline] fail. *)
Fixpoint split_from (item : string) (s : string) (delim : ascii)
  : list string :=
  match s with
  | EmptyString => [item]
  | String c s' =>
      if Ascii.eqb c delim
      then item :: match s' with
                   | EmptyString => []
                   | String _ _ => split_from EmptyString s' delim
                   end
      else split_from (item ++ String c EmptyString) s' delim
  end.

(** [split]. *)
Definition split (s : string) (delim : ascii) : list string :=
  match s with
  | EmptyString => []
  | String _ _ => split_from EmptyString s delim
  end.

(** [operator<<] on [Args::SORT_MODE]. *)
Definition show_SORT_MODE (m : SORT_MODE) : string :=
  match m with
  | UNSORTED => "unsorted"
  | PRESORT => "presort"
  | SNAPSHOT => "snapshot"
  end.

(** The branch of [Args::parse] for the option [sort-mode]. *)
Definition parse_sort_mode (sort_mode_str : string) : outcome SORT_MODE :=
  if String.eqb sort_mode_str "unsorted" then Ok UNSORTED
  else if String.eqb sort_mode_str "presort" then Ok PRESORT
  else if String.eqb sort_mode_str "snapshot" then Ok SNAPSHOT
  else Die ("sort-mode must be one of ['unsorted', 'presort', 'snapshot']"
            ++ nl)%string.

(** ** Numbers with a magnitude suffix *)

(** [isspace] in the C locale. *)
Definition is_space (c : ascii) : bool :=
  let n := nat_of_ascii c in
  Nat.eqb n 32 || (Nat.leb 9 n && Nat.leb n 13).

Definition digit_of (c : ascii) : option (Decimal.uint -> Decimal.uint) :=
  match c with
  | "0"%char => Some Decimal.D0
  | "1"%char => Some Decimal.D1
  | "2"%char => Some Decimal.D2
  | "3"%char => Some Decimal.D3
  | "4"%char => Some Decimal.D4
  | "5"%char => Some Decimal.D5
  | "6"%char => Some Decimal.D6
  | "7"%char => Some Decimal.D7
  | "8"%char => Some Decimal.D8
  | "9"%char => Some Decimal.D9
  | _ => None
  end.

Fixpoint skip_spaces (s : string) : string :=
  match s with
  | EmptyString => s
  | String c s' => if is_space c then skip_spaces s' else s
  end.

(** The longest run of decimal digits at the head of a text, and the
    rest of the text. *)
Fixpoint digits (s : string) : Decimal.uint * string :=
  match s with
  | EmptyString => (Decimal.Nil, s)
  | String c s' =>
      match digit_of c with
      | Some D => let '(d, rest) := digits s' in (D d, rest)
      | None => (Decimal.Nil, s)
      end
  end.

(** [std::stoll] in base 10: white space, a sign, digits; what follows
    the digits is not looked at.  A text without a digit there throws
    [std::invalid_argument], a number that does not fit throws
    [std::out_of_range], and nothing catches either. *)
Definition stoll (s : string) : outcome Z :=
  let s := skip_spaces s in
  let '(negative, s) :=
    match s with
    | String "-"%char s' => (true, s')
    | String "+"%char s' => (false, s')
    | _ => (false, s)
    end in
  match digits s with
  | (Decimal.Nil, _) => Aborted
  | (d, _) =>
      let v := if negative then - Z.of_uint d else Z.of_uint d in
      if (Int64.min_signed <=? v) && (v <=? Int64.max_signed) then Ok v
      else Aborted
  end.

(** [token.back()]. *)
Fixpoint back (s : string) : option ascii :=
  match s with
  | EmptyString => None
  | String c EmptyString => Some c
  | String _ s' => back s'
  end.

(** [n *= m] on [int64_t]: an overflow is undefined. *)
Definition mul_int64 (n m : Z) : outcome Z :=
  if (Int64.min_signed <=? n * m) && (n * m <=? Int64.max_signed)
  then Ok (n * m) else Undefined.

(** What the [switch] of [parse_int_with_suffix] multiplies by. *)
Definition magnitude (c : ascii) : Z :=
  match c with
  | "K"%char => 2 ^ 10
  | "M"%char => 2 ^ 20
  | "G"%char => 2 ^ 30
  | "T"%char => 2 ^ 40
  | _ => 1
  end.

(** [parse_int_with_suffix]. *)
Definition parse_int_with_suffix (token : string) : outcome Z :=
  n <- stoll token ;;
  match back token with
  | None => Undefined
  | Some c =>
      match c with
      | "K"%char => mul_int64 n (2 ^ 10)
      | "M"%char => mul_int64 n (2 ^ 20)
      | "G"%char => mul_int64 n (2 ^ 30)
      | "T"%char => mul_int64 n (2 ^ 40)
      | _ => Ok n
      end
  end.

(** ** Text files *)

Definition newline : Byte.byte := Byte.x0a.

(** The loop of [count_lines]: a character is read until the end of the
    file, and the newlines are counted. *)
Fixpoint count_newlines (lines : Z) (bytes : list Byte.byte) : Z :=
  match bytes with
  | [] => lines
  | ch :: rest =>
      count_newlines (if Byte.eqb ch newline then lines + 1 else lines) rest
  end.

(** [count_lines].  [file] is the content of the file at [path], when
    it can be opened. *)
Definition count_lines (path : string) (file : option (list Byte.byte))
  : outcome Z :=
  match file with
  | None => Die ("Failed to open " ++ path ++ nl)%string
  | Some bytes => Ok (count_newlines 0 bytes)
  end.

(** ** Batches as the sort mode asks for them *)

Section SortModes.
Variable S : Std.Sort.

(** [Dataset::getBatch] of [dynograph_util.cc].  The class [Dataset]
    there has the members of [EdgeListDataset] and, in a single
    process, the statements of its constructor and of its
    [getTimestampForWindow]: it is modelled by the same record. *)
Definition Dataset_getBatch (ds : EdgeListDataset) (batchId : Z)
  : outcome (list Edge) :=
  threshold <- EdgeListDataset_getTimestampForWindow ds batchId ;;
  b <- EdgeListDataset_getBatch ds batchId ;;
  match sort_mode (el_args ds) with
  | UNSORTED =>
      Ok (FilteredBatch (Batch_edges (el_edges ds) b) threshold)
  | PRESORT =>
      Ok (DeduplicatedBatch S
            (FilteredBatch (Batch_edges (el_edges ds) b) threshold))
  | SNAPSHOT =>
      let cumulative_snapshot :=
        {| begin_iter := 0; end_iter := end_iter b |} in
      Ok (DeduplicatedBatch S
            (FilteredBatch (Batch_edges (el_edges ds) cumulative_snapshot)
                           threshold))
  end.
End SortModes.

(** ** The C port *)

Definition max3 (a b c : Z) : Z :=
  if a >? b then (if a >? c then a else c)
  else (if b >? c then b else c).

Definition max2 (a b : Z) : Z := if a >? b then a else b.

(** The loop of [dynograph_load_dataset] over the edges. *)
Fixpoint max_vertex_id_loop (max_vertex_id : Z) (edges : list Edge) : Z :=
  match edges with
  | [] => max_vertex_id
  | e :: rest => max_vertex_id_loop (max3 max_vertex_id (src e) (dst e)) rest
  end.

(** The fields [dynograph_load_dataset] computes once the edges are
    loaded: the number of batches and the greatest vertex id. *)
Definition dynograph_load_dataset_fields (args : Args) (edges : list Edge)
  : outcome (Z * Z) :=
  let num_edges := Z.of_nat (List.length edges) in
  if batch_size args =? 0 then Undefined else
  let num_batches := Int64.wrap (Z.quot num_edges (batch_size args)) in
  let max_vertex_id := max_vertex_id_loop 0 edges in
  Ok (num_batches, max_vertex_id).

(** [path + n] on a C string: the text from its [n]-th character. *)
Fixpoint drop (n : nat) (s : string) : string :=
  match n, s with
  | O, _ => s
  | S n', String _ s' => drop n' s'
  | S _, EmptyString => EmptyString
  end.

(** [dynograph_file_is_binary].  The text compared with the suffix
    starts [suffix_len] characters before the end of the path; for a
    shorter path that is a pointer before the start of the path. *)
Definition dynograph_file_is_binary (path : string) : outcome bool :=
  let suffix := ".graph.bin"%string in
  let path_len := String.length path in
  let suffix_len := String.length suffix in
  if (path_len <? suffix_len)%nat then Undefined
  else Ok (String.eqb (drop (path_len - suffix_len) path) suffix).

(** ** The parameters of a synthetic dataset *)

(** [x + y] on [double]. *)
Definition double_add (x y : Double.t) : Double.t :=
  SFadd Double.prec Double.emax x y.

(** [RmatArgs::validate]: the message, empty for parameters that pass. *)
Definition RmatArgs_validate (r : RmatArgs) : string :=
  let a := rmat_a r in
  let b := rmat_b r in
  let c := rmat_c r in
  let d := rmat_d r in
  (* Validate parameters *)
  if Double.ltb a Double.zero || Double.ltb b Double.zero
     || Double.ltb c Double.zero || Double.ltb d Double.zero
     || Double.ltb Double.one a || Double.ltb Double.one b
     || Double.ltb Double.one c || Double.ltb Double.one d
     || Double.ltb Double.one
                   (double_add (double_add (double_add a b) c) d)
  then ("Invalid arguments: RMAT parameters must be fall in the range [0, 1] and sum to 1"
        ++ nl)%string
  else if (rmat_num_edges r <? 0) || (rmat_num_vertices r <? 0)
  then ("Invalid arguments: RMAT graph must have a positive number of edges and vertices"
        ++ nl)%string
  else EmptyString.

(* ================================================================== *)
(** * More vocabulary *)

(** The order of the (src,dst) pairs: by src, then by dst. *)
Definition key_lt (a b : Edge) : Prop :=
  src a < src b \/ (src a = src b /\ dst a < dst b).

(** The character does not occur in the text. *)
Fixpoint free_of (c : ascii) (s : string) : bool :=
  match s with
  | EmptyString => true
  | String c' s' => negb (Ascii.eqb c' c) && free_of c s'
  end.

(** The text does not start with a decimal digit. *)
Definition no_digit_ahead (s : string) : Prop :=
  match s with
  | EmptyString => True
  | String c _ => digit_of c = None
  end.

(** The parameters with other numbers of edges and vertices. *)
Definition with_counts (r : RmatArgs) (num_edges num_vertices : Z) : RmatArgs :=
  {| rmat_a := rmat_a r; rmat_b := rmat_b r;
     rmat_c := rmat_c r; rmat_d := rmat_d r;
     rmat_num_edges := num_edges; rmat_num_vertices := num_vertices |}.

(** A line of a text file: its bytes and the newline that ends it. *)
Definition terminated (line : list Byte.byte) : list Byte.byte :=
  line ++ [newline].
(* ================================================================== *)
(** * Facts about the standard algorithms *)

Section StdFacts.
Context {A : Type}.
Variable lt : A -> A -> bool.
Hypothesis lt_swo : Std.strict_weak_order lt.

Lemma swo_not_lt_trans x y z :
    lt y x = false -> lt z y = false -> lt z x = false.
  Proof.
    intros Hyx Hzy.
    destruct (lt z x) eqn:Hzx; [exfalso | reflexivity].
    destruct (lt y z) eqn:Hyz.
    - rewrite (Std.swo_trans lt_swo _ _ _ Hyz Hzx) in Hyx. discriminate.
    - destruct (lt x y) eqn:Hxy.
      + rewrite (Std.swo_trans lt_swo _ _ _ Hzx Hxy) in Hzy. discriminate.
      + destruct (Std.swo_equiv_trans lt_swo _ _ _ Hzy Hyz Hyx Hxy) as [E _].
        congruence.
  Qed.

Lemma insert_sorted_perm x l :
    Permutation (x :: l) (Std.insert_sorted lt x l).
  Proof.
    induction l as [|y l IH]; simpl.
    - apply Permutation_refl.
    - destruct (lt x y).
      + apply Permutation_refl.
      + eapply perm_trans; [apply perm_swap|]. now apply perm_skip.
  Qed.

Lemma insertion_sort_perm l : Permutation l (Std.insertion_sort lt l).
  Proof.
    induction l as [|x l IH]; simpl.
    - constructor.
    - eapply perm_trans; [apply perm_skip, IH|]. apply insert_sorted_perm.
  Qed.

Lemma insert_sorted_sorted x l :
    Std.sorted_by lt l -> Std.sorted_by lt (Std.insert_sorted lt x l).
  Proof.
    unfold Std.sorted_by.
    induction l as [|y l IH]; simpl; intros Hs.
    - constructor; [constructor | constructor].
    - inversion Hs as [|? ? Hl Hy]; subst.
      destruct (lt x y) eqn:Hxy.
      + constructor; [assumption|].
        assert (Hyx : lt y x = false).
        { destruct (lt y x) eqn:E; [|reflexivity].
          rewrite <- (Std.swo_irrefl lt_swo x).
          symmetry. eapply Std.swo_trans; eauto. }
        constructor; [assumption|].
        rewrite Forall_forall in *. intros z Hz.
        eapply swo_not_lt_trans; [exact Hyx | now apply Hy].
      + constructor; [now apply IH|].
        rewrite Forall_forall in *. intros z Hz.
        apply (Permutation_in _ (Permutation_sym (insert_sorted_perm x l))) in Hz.
        destruct Hz as [<-|Hz]; [assumption | now apply Hy].
  Qed.

Lemma insertion_sort_sorted l : Std.sorted_by lt (Std.insertion_sort lt l).
  Proof.
    induction l as [|x l IH]; simpl.
    - constructor.
    - now apply insert_sorted_sorted.
  Qed.
End StdFacts.

(** Insertion sort meets the contract of [std::sort]. *)
Definition insertion_Sort : Std.Sort :=
  {| Std.sort := fun A lt l => Std.insertion_sort lt l;
     Std.sort_perm := fun A lt l H => insertion_sort_perm lt l;
     Std.sort_sorted := fun A lt l H => insertion_sort_sorted H l |}.

(* ================================================================== *)
(** * Facts about the orders on edges and on vertex ids *)

Ltac cmp_cases :=
  repeat match goal with
         | H : context [Z.gtb ?a ?b] |- _ => rewrite (Z.gtb_ltb a b) in H
         | |- context [Z.gtb ?a ?b] => rewrite (Z.gtb_ltb a b)
         | H : context [Z.eqb ?a ?b] |- _ => destruct (Z.eqb_spec a b)
         | |- context [Z.eqb ?a ?b] => destruct (Z.eqb_spec a b)
         | H : context [Z.ltb ?a ?b] |- _ => destruct (Z.ltb_spec a b)
         | |- context [Z.ltb ?a ?b] => destruct (Z.ltb_spec a b)
         end;
  simpl in *; try congruence; try lia.

Lemma Edge_lt_true a b :
  Edge_lt a b = true <->
  src a < src b
  \/ (src a = src b
      /\ (dst a < dst b \/ (dst a = dst b /\ timestamp b < timestamp a))).
Proof. unfold Edge_lt. cmp_cases; intuition lia. Qed.

Lemma Edge_lt_false a b :
  Edge_lt a b = false <->
  src b < src a
  \/ (src a = src b
      /\ (dst b < dst a \/ (dst a = dst b /\ timestamp a <= timestamp b))).
Proof. unfold Edge_lt. cmp_cases; intuition lia. Qed.

Lemma Edge_lt_swo : Std.strict_weak_order Edge_lt.
Proof.
  split.
  - intros x. apply Edge_lt_false. lia.
  - intros x y z. rewrite !Edge_lt_true. lia.
  - intros x y z. rewrite !Edge_lt_false. lia.
Qed.

Lemma Z_ltb_swo : Std.strict_weak_order Z.ltb.
Proof.
  split.
  - intros x. cmp_cases.
  - intros x y z. cmp_cases.
  - intros x y z. cmp_cases.
Qed.

(** Between two edges of one (src,dst) pair, a sorted sequence holds
    edges of that pair only. *)
Lemma Edge_lt_between a b c :
  Edge_lt b a = false -> Edge_lt c b = false ->
  same_src_dst a c = true -> same_src_dst a b = true.
Proof.
  rewrite !Edge_lt_false. unfold same_src_dst.
  intros H1 H2 H3. apply andb_true_iff in H3. destruct H3 as [H3 H4].
  apply Z.eqb_eq in H3, H4.
  apply andb_true_iff. split; apply Z.eqb_eq; lia.
Qed.

Lemma same_src_dst_key s d a b :
  same_src_dst a b = true -> has_key s d a = has_key s d b.
Proof. unfold same_src_dst, has_key. cmp_cases. Qed.

Lemma has_key_same s d a b :
  has_key s d a = true -> has_key s d b = true -> same_src_dst a b = true.
Proof. unfold same_src_dst, has_key. cmp_cases. Qed.

Lemma has_key_iff s d e : has_key s d e = true <-> src e = s /\ dst e = d.
Proof. unfold has_key. cmp_cases; intuition congruence. Qed.

Lemma Edge_lt_same_key_timestamp a b :
  same_src_dst a b = true -> Edge_lt b a = false ->
  timestamp b <= timestamp a.
Proof.
  rewrite Edge_lt_false. unfold same_src_dst.
  intros H3. apply andb_true_iff in H3. destruct H3 as [H3 H4].
  apply Z.eqb_eq in H3, H4. lia.
Qed.

(* ================================================================== *)
(** * Facts about [std::unique_copy] *)

Section UniqueCopy.
Context {A : Type}.
Variable eq : A -> A -> bool.

Lemma unique_copy_from_incl value l x :
  In x (Std.unique_copy_from eq value l) -> In x l.
Proof.
  revert value. induction l as [|y l IH]; simpl; intros value H.
  - assumption.
  - destruct (eq value y).
    + right. eapply IH; eauto.
    + destruct H as [H|H]; [now left | right; eapply IH; eauto].
Qed.

Lemma unique_copy_incl l x : In x (Std.unique_copy eq l) -> In x l.
Proof.
  destruct l as [|y l]; simpl; [tauto|].
  intros [H|H]; [now left | right; eapply unique_copy_from_incl; eauto].
Qed.
End UniqueCopy.

Lemma StronglySorted_tail2 {A : Type} (R : A -> A -> Prop) x y l :
  StronglySorted R (x :: y :: l) -> StronglySorted R (x :: l).
Proof.
  intros H. inversion H as [|? ? Hs Hf]; subst.
  inversion Hs; subst. inversion Hf; subst.
  now constructor.
Qed.

Lemma firstn_1_filter_nil {A : Type} (p : A -> bool) l :
  (forall x, In x l -> p x = false) -> firstn 1 (filter p l) = [].
Proof.
  induction l as [|x l IH]; simpl; intros H; [reflexivity|].
  rewrite (H x (or_introl Logic.eq_refl)). apply IH. intros; apply H; now right.
Qed.

(** On a sorted sequence of edges, the deduplication keeps, of every
    (src,dst) pair, the first edge of the sequence. *)
Lemma unique_copy_from_key s d value l :
  Std.sorted_by Edge_lt (value :: l) ->
  filter (has_key s d) (Std.unique_copy_from same_src_dst value l)
  = if has_key s d value then [] else firstn 1 (filter (has_key s d) l).
Proof.
  revert value. induction l as [|y l IH]; intros value Hs.
  - simpl. now destruct (has_key s d value).
  - simpl. destruct (same_src_dst value y) eqn:Hvy.
    + rewrite (IH value (StronglySorted_tail2 Hs)).
      rewrite <- (same_src_dst_key s d _ _ Hvy).
      now destruct (has_key s d value).
    + inversion Hs as [|? ? Hs' Hf]; subst.
      simpl. rewrite (IH y Hs').
      destruct (has_key s d y) eqn:Hy.
      * destruct (has_key s d value) eqn:Hv; [|reflexivity].
        rewrite (has_key_same s d _ _ Hv Hy) in Hvy. discriminate.
      * destruct (has_key s d value) eqn:Hv; [|reflexivity].
        apply firstn_1_filter_nil. intros z Hz.
        destruct (has_key s d z) eqn:Hkz; [exfalso | reflexivity].
        inversion Hs' as [|? ? _ Hfy]; subst.
        rewrite Forall_forall in Hf, Hfy.
        assert (E : same_src_dst value y = true).
        { apply Edge_lt_between with (c := z).
          - apply Hf. now left.
          - now apply Hfy.
          - eapply has_key_same; eauto. }
        congruence.
Qed.

Lemma unique_copy_key s d l :
  Std.sorted_by Edge_lt l ->
  filter (has_key s d) (Std.unique_copy same_src_dst l)
  = firstn 1 (filter (has_key s d) l).
Proof.
  destruct l as [|x l]; intros Hs; [reflexivity|].
  simpl. rewrite (unique_copy_from_key s d Hs).
  now destruct (has_key s d x).
Qed.

Lemma StronglySorted_filter {A : Type} (R : A -> A -> Prop) (p : A -> bool) l :
  StronglySorted R l -> StronglySorted R (filter p l).
Proof.
  induction 1 as [|x l Hs IH Hf]; simpl; [constructor|].
  destruct (p x); [|assumption].
  constructor; [assumption|].
  rewrite Forall_forall in *. intros y Hy. apply Hf.
  now apply filter_In in Hy.
Qed.

Lemma filter_all {A : Type} (p : A -> bool) l :
  (forall x, In x l -> p x = true) -> filter p l = l.
Proof.
  induction l as [|x l IH]; simpl; intros H; [reflexivity|].
  rewrite (H x (or_introl Logic.eq_refl)). f_equal. apply IH.
  intros; apply H; now right.
Qed.

(* ================================================================== *)
(** * Deduplicated batches *)

Section Dedup.
Variable S : Std.Sort.

Lemma DeduplicatedBatch_incl batch e :
  In e (DeduplicatedBatch S batch) -> In e batch.
Proof.
  unfold DeduplicatedBatch. intros H.
  apply unique_copy_incl in H.
  eapply Permutation_in; [apply Permutation_sym, (Std.sort_perm S) | exact H].
  exact Edge_lt_swo.
Qed.

(** Of every (src,dst) pair of the batch, the deduplicated view holds
    one edge, an edge of the batch that no edge of the pair is newer
    than. *)
Lemma DeduplicatedBatch_key batch s d e0 :
  In e0 batch -> src e0 = s -> dst e0 = d ->
  exists e,
    filter (has_key s d) (DeduplicatedBatch S batch) = [e]
    /\ In e batch /\ src e = s /\ dst e = d
    /\ forall e', In e' batch -> src e' = s -> dst e' = d ->
                  timestamp e' <= timestamp e.
Proof.
  intros Hin Hs Hd. unfold DeduplicatedBatch.
  pose proof (Std.sort_perm S batch Edge_lt_swo) as Hperm.
  pose proof (Std.sort_sorted S batch Edge_lt_swo) as Hsorted.
  rewrite (unique_copy_key s d Hsorted).
  set (sorted := Std.sort S Edge_lt batch) in *.
  assert (Hin' : In e0 (filter (has_key s d) sorted)).
  { apply filter_In. split.
    - eapply Permutation_in; eauto.
    - now apply has_key_iff. }
  pose proof (StronglySorted_filter (has_key s d) Hsorted) as Hfs.
  destruct (filter (has_key s d) sorted) as [|e rest] eqn:Hf; [destruct Hin'|].
  exists e. split; [reflexivity|].
  assert (He : In e (filter (has_key s d) sorted)) by (rewrite Hf; now left).
  apply filter_In in He. destruct He as [He Hk].
  apply has_key_iff in Hk. destruct Hk as [Hks Hkd].
  split; [eapply Permutation_in; [apply Permutation_sym; eauto | exact He]|].
  split; [assumption|]. split; [assumption|].
  intros e' Hin1 Hs1 Hd1.
  assert (He' : In e' (e :: rest)).
  { rewrite <- Hf. apply filter_In. split.
    - eapply Permutation_in; eauto.
    - now apply has_key_iff. }
  destruct He' as [<-|He']; [lia|].
  inversion Hfs as [|? ? _ Hall]; subst.
  rewrite Forall_forall in Hall.
  apply Edge_lt_same_key_timestamp; [|now apply Hall].
  unfold same_src_dst. rewrite Hks, Hkd, Hs1, Hd1, !Z.eqb_refl. reflexivity.
Qed.
End Dedup.

(** C1.  Of every (src,dst) pair that occurs in a batch, and so of every
    pair that occurs two or more times, the deduplicated view holds
    exactly one edge: an edge of the batch, with all its fields, weight
    included, whose timestamp is the greatest of the pair.  In
    particular two edges (1,2,w1,t1) and (1,2,w2,t2) with t2 > t1
    collapse to the single edge (1,2,w2,t2), in whichever order the
    batch holds them. *)
Theorem DeduplicatedBatch_keeps_newest (S : Std.Sort) :
  (forall (batch : list Edge) (s d : Z) (e0 : Edge),
      In e0 batch -> src e0 = s -> dst e0 = d ->
      exists e,
        filter (has_key s d) (DeduplicatedBatch S batch) = [e]
        /\ In e batch /\ src e = s /\ dst e = d
        /\ forall e', In e' batch -> src e' = s -> dst e' = d ->
                      timestamp e' <= timestamp e)
  /\ (forall w1 t1 w2 t2 : Z,
         t1 < t2 ->
         DeduplicatedBatch S [mkEdge 1 2 w1 t1; mkEdge 1 2 w2 t2]
         = [mkEdge 1 2 w2 t2]
         /\ DeduplicatedBatch S [mkEdge 1 2 w2 t2; mkEdge 1 2 w1 t1]
            = [mkEdge 1 2 w2 t2]).
Proof.
  split.
  - intros batch s d e0. apply DeduplicatedBatch_key.
  - intros w1 t1 w2 t2 Ht.
    assert (Hgen : forall batch,
               (forall e, In e batch <->
                          e = mkEdge 1 2 w1 t1 \/ e = mkEdge 1 2 w2 t2) ->
               DeduplicatedBatch S batch = [mkEdge 1 2 w2 t2]).
    { intros batch Hb.
      destruct (@DeduplicatedBatch_key S batch 1 2 (mkEdge 1 2 w2 t2))
        as (e & Hf & Hin & _ & _ & Hmax);
        [apply Hb; now right | reflexivity | reflexivity |].
      rewrite filter_all in Hf.
      - rewrite Hf. f_equal.
        apply Hb in Hin. destruct Hin as [-> | ->]; [exfalso | reflexivity].
        specialize (Hmax (mkEdge 1 2 w2 t2)). simpl in Hmax.
        assert (t2 <= t1); [|lia].
        apply Hmax; [apply Hb; now right | reflexivity | reflexivity].
      - intros x Hx. apply DeduplicatedBatch_incl in Hx.
        apply Hb in Hx. destruct Hx as [-> | ->]; reflexivity. }
    split; apply Hgen; intros e; simpl; intuition congruence.
Qed.

Lemma DeduplicatedBatch_keeps_newest_witness :
  (exists e,
      filter (has_key 1 2)
             (DeduplicatedBatch insertion_Sort
                [mkEdge 1 2 1 0; mkEdge 1 3 1 1; mkEdge 1 2 5 2; mkEdge 2 3 1 3])
      = [e]
      /\ In e [mkEdge 1 2 1 0; mkEdge 1 3 1 1; mkEdge 1 2 5 2; mkEdge 2 3 1 3]
      /\ src e = 1 /\ dst e = 2
      /\ forall e',
          In e' [mkEdge 1 2 1 0; mkEdge 1 3 1 1; mkEdge 1 2 5 2; mkEdge 2 3 1 3] ->
          src e' = 1 -> dst e' = 2 -> timestamp e' <= timestamp e)
  /\ DeduplicatedBatch insertion_Sort [mkEdge 1 2 7 10; mkEdge 1 2 9 20]
     = [mkEdge 1 2 9 20].
Proof.
  split.
  - apply (proj1 (DeduplicatedBatch_keeps_newest insertion_Sort)
                 _ 1 2 (mkEdge 1 2 1 0)).
    + simpl. now left.
    + reflexivity.
    + reflexivity.
  - apply (proj2 (DeduplicatedBatch_keeps_newest insertion_Sort) 7 10 9 20).
    lia.
Defined.

(** The example of the design document: the cumulative snapshot through
    batch 1 collapses (1,2,1,0) and (1,2,5,2) into (1,2,5,2). *)
Example snapshot_example :
  DeduplicatedBatch insertion_Sort
    [mkEdge 1 2 1 0; mkEdge 1 3 1 1; mkEdge 1 2 5 2; mkEdge 2 3 1 3]
  = [mkEdge 1 2 5 2; mkEdge 1 3 1 1; mkEdge 2 3 1 3].
Proof. reflexivity. Qed.

(* ================================================================== *)
(** * Vertices affected by a batch *)

Lemma unique_copy_from_Z value l :
  Std.sorted_by Z.ltb (value :: l) ->
  NoDup (Std.unique_copy_from Z.eqb value l)
  /\ (forall x, In x (Std.unique_copy_from Z.eqb value l) -> value < x)
  /\ (forall x, In x l -> x = value \/ In x (Std.unique_copy_from Z.eqb value l)).
Proof.
  revert value. induction l as [|y l IH]; intros value Hs.
  - simpl. split; [constructor | split; intros x []].
  - simpl. inversion Hs as [|? ? Hs' Hf]; subst.
    rewrite Forall_forall in Hf.
    destruct (Z.eqb_spec value y) as [->|Hne].
    + destruct (IH y Hs') as (Hnd & Hlt & Hcov).
      split; [assumption|]. split; [assumption|].
      intros x [<-|Hx]; [now left | now apply Hcov].
    + destruct (IH y Hs') as (Hnd & Hlt & Hcov).
      assert (Hy : value < y).
      { specialize (Hf y (or_introl Logic.eq_refl)).
        apply Z.ltb_ge in Hf. lia. }
      split; [|split].
      * constructor; [|assumption].
        intros Hin. apply Hlt in Hin. lia.
      * intros x [<-|Hx]; [assumption|]. apply Hlt in Hx. lia.
      * intros x [<-|Hx]; [right; now left|].
        destruct (Hcov x Hx) as [->|Hin]; right; [now left | now right].
Qed.

Lemma unique_copy_Z l :
  Std.sorted_by Z.ltb l ->
  NoDup (Std.unique_copy Z.eqb l)
  /\ (forall x, In x (Std.unique_copy Z.eqb l) <-> In x l).
Proof.
  destruct l as [|v l]; intros Hs.
  - simpl. split; [constructor | tauto].
  - destruct (unique_copy_from_Z Hs) as (Hnd & Hlt & Hcov).
    simpl. split.
    + constructor; [|assumption]. intros Hin. apply Hlt in Hin. lia.
    + intros x. split.
      * intros [<-|Hx]; [now left | right; eapply unique_copy_from_incl; eauto].
      * intros [<-|Hx]; [now left|].
        destruct (Hcov x Hx) as [->|Hin]; [now left | now right].
Qed.

Section Vertices.
Variable S : Std.Sort.

(** [DeduplicatedBatch::num_vertices_affected] counts the distinct
    endpoints of the edges it is given. *)
Lemma DeduplicatedBatch_num_vertices_affected_counts edges :
  distinct_endpoints edges (DeduplicatedBatch_num_vertices_affected S edges).
Proof.
  unfold DeduplicatedBatch_num_vertices_affected, distinct_endpoints.
  set (ids := map src edges ++ map dst edges).
  pose proof (Std.sort_perm S ids Z_ltb_swo) as Hperm.
  destruct (unique_copy_Z (Std.sort_sorted S ids Z_ltb_swo)) as [Hnd Hin].
  exists (Std.unique_copy Z.eqb (Std.sort S Z.ltb ids)).
  split; [assumption|]. split; [|reflexivity].
  intros v. rewrite Hin. split.
  - intros Hv. apply (Permutation_in _ (Permutation_sym Hperm)) in Hv.
    unfold ids in Hv. apply in_app_or in Hv.
    destruct Hv as [Hv|Hv]; apply in_map_iff in Hv;
      destruct Hv as (e & He & Hine); exists e; auto.
  - intros (e & Hine & He).
    apply (Permutation_in _ Hperm). unfold ids. apply in_or_app.
    destruct He as [<-|<-]; [left | right]; now apply in_map.
Qed.

(** Deduplication keeps an edge of every (src,dst) pair, hence every
    endpoint. *)
Lemma DeduplicatedBatch_endpoints batch v :
  (exists e, In e (DeduplicatedBatch S batch) /\ (src e = v \/ dst e = v))
  <-> (exists e, In e batch /\ (src e = v \/ dst e = v)).
Proof.
  split.
  - intros (e & Hin & He). exists e. split; [|assumption].
    now apply DeduplicatedBatch_incl in Hin.
  - intros (e & Hin & He).
    destruct (@DeduplicatedBatch_key S batch (src e) (dst e) e Hin)
      as (e' & Hf & _ & Hs & Hd & _); [reflexivity | reflexivity |].
    exists e'. split; [|destruct He; [left | right]; congruence].
    assert (H : In e' (filter (has_key (src e) (dst e))
                              (DeduplicatedBatch S batch)))
      by (rewrite Hf; now left).
    now apply filter_In in H.
Qed.
End Vertices.

(** C10.  For a plain batch and for a deduplicated batch alike,
    [num_vertices_affected] is the number of distinct vertex ids that
    are the source or the destination of an edge of the batch, and
    deduplication does not change the count. *)
Theorem num_vertices_affected_distinct_endpoints
        (S : Std.Sort) (batch : list Edge) :
  distinct_endpoints batch (Batch_num_vertices_affected S batch)
  /\ distinct_endpoints
       (DeduplicatedBatch S batch)
       (DeduplicatedBatch_num_vertices_affected S (DeduplicatedBatch S batch))
  /\ Batch_num_vertices_affected S (DeduplicatedBatch S batch)
     = Batch_num_vertices_affected S batch
  /\ DeduplicatedBatch_num_vertices_affected S (DeduplicatedBatch S batch)
     = Batch_num_vertices_affected S batch.
Proof.
  assert (Hcount : forall l n1 n2,
             distinct_endpoints l n1 -> distinct_endpoints l n2 -> n1 = n2).
  { intros l n1 n2 (vs1 & Hnd1 & Hin1 & ->) (vs2 & Hnd2 & Hin2 & ->).
    f_equal. apply Permutation_length.
    apply NoDup_Permutation; try assumption.
    intros v. rewrite Hin1, Hin2. tauto. }
  assert (Hmove : forall l n,
             distinct_endpoints (DeduplicatedBatch S l) n ->
             distinct_endpoints l n).
  { intros l n (vs & Hnd & Hin & ->). exists vs.
    split; [assumption|]. split; [|reflexivity].
    intros v. rewrite Hin. apply DeduplicatedBatch_endpoints. }
  pose proof (DeduplicatedBatch_num_vertices_affected_counts S
                (DeduplicatedBatch S batch)) as H1.
  pose proof (DeduplicatedBatch_num_vertices_affected_counts S
                (DeduplicatedBatch S (DeduplicatedBatch S batch))) as H2.
  split; [apply Hmove; exact H1 | split; [exact H1 | split]].
  - unfold Batch_num_vertices_affected at 1.
    apply Hcount with (l := batch).
    + apply Hmove, Hmove. exact H2.
    + apply Hmove. exact H1.
  - reflexivity.
Qed.

Example num_vertices_affected_example :
  Batch_num_vertices_affected insertion_Sort
    [mkEdge 1 2 1 0; mkEdge 1 3 1 1; mkEdge 1 2 5 2; mkEdge 2 3 1 3] = 3.
Proof. reflexivity. Qed.

(* ================================================================== *)
(** * Construction of a dataset from an edge list *)

Lemma is_sorted_timestamps edges :
  Std.is_sorted (fun a b => timestamp a <? timestamp b) edges = true
  <-> nondecreasing_timestamps edges.
Proof.
  unfold nondecreasing_timestamps. split.
  - intros H. apply Sorted_StronglySorted.
    + intros a b c. lia.
    + induction edges as [|x l IH]; [constructor|].
      simpl in H. destruct l as [|y l'].
      * constructor; constructor.
      * apply andb_true_iff in H. destruct H as [Hxy Hl].
        constructor; [now apply IH|].
        constructor. apply negb_true_iff, Z.ltb_ge in Hxy. exact Hxy.
  - intros H. apply StronglySorted_Sorted in H.
    induction H as [|x l Hs IH Hhd]; [reflexivity|].
    simpl. destruct l as [|y l']; [reflexivity|].
    apply andb_true_iff. split; [|exact IH].
    inversion Hhd; subst. apply negb_true_iff, Z.ltb_ge. assumption.
Qed.

Lemma find_if_le {A : Type} (p : A -> bool) l :
  (Std.find_if p l <= List.length l)%nat.
Proof.
  induction l as [|x l IH]; simpl; [lia|]. destruct (p x); lia.
Qed.

Lemma find_if_end {A : Type} (p : A -> bool) l :
  Std.find_if p l = List.length l <-> Forall (fun x => p x = false) l.
Proof.
  induction l as [|x l IH]; simpl.
  - split; [constructor | reflexivity].
  - destruct (p x) eqn:Hp.
    + split; [discriminate|]. intros H. inversion H; congruence.
    + split.
      * intros H. constructor; [assumption|]. apply IH. lia.
      * intros H. inversion H; subst. f_equal. now apply IH.
Qed.

Lemma find_if_self_edges edges :
  Std.find_if (fun e => src e =? dst e) edges = List.length edges
  <-> no_self_edges edges.
Proof.
  rewrite find_if_end. unfold no_self_edges.
  split; intros H; eapply Forall_impl; try exact H; simpl; intros e He.
  - now apply Z.eqb_neq.
  - now apply Z.eqb_neq.
Qed.

Lemma store_batches_spec n i bs batches :
  store_batches n i bs batches
  = batches
    ++ map (fun k => mkBatch ((i + Z.of_nat k) * bs) ((i + Z.of_nat k) * bs + bs))
           (seq 0 n).
Proof.
  revert i batches. induction n as [|n IH]; intros i batches.
  - simpl. now rewrite app_nil_r.
  - cbn [store_batches]. rewrite IH.
    rewrite <- app_assoc. f_equal.
    cbn [seq map app]. rewrite Z.add_0_r. f_equal.
    rewrite <- seq_shift, map_map.
    apply map_ext. intros k. f_equal; f_equal; lia.
Qed.

(** What a successful construction has checked and stored. *)
Lemma EdgeListDataset_init_Ok args edges ds :
  EdgeListDataset_init args edges = Ok ds ->
  batch_size args <> 0
  /\ Int64.to_size_t (batch_size args) <= Z.of_nat (List.length edges)
  /\ num_epochs args
     <= Z.of_nat (List.length edges) / Int64.to_size_t (batch_size args)
  /\ nondecreasing_timestamps edges
  /\ no_self_edges edges
  /\ el_args ds = args
  /\ el_edges ds = edges
  /\ el_min_timestamp ds = timestamp (hd (mkEdge 0 0 0 0) edges)
  /\ el_max_timestamp ds = timestamp (last edges (mkEdge 0 0 0 0))
  /\ el_batches ds
     = store_batches
         (Z.to_nat (Z.of_nat (List.length edges)
                    / Int64.to_size_t (batch_size args)))
         0 (batch_size args) [].
Proof.
  unfold EdgeListDataset_init.
  destruct (Z.eqb_spec (batch_size args) 0) as [|Hbs]; [discriminate|].
  destruct (Z.gtb_spec (Int64.to_size_t (batch_size args))
                       (Z.of_nat (List.length edges))) as [|Hsize];
    [discriminate|].
  destruct (Z.gtb_spec (num_epochs args)
                       (Z.of_nat (List.length edges)
                        / Int64.to_size_t (batch_size args))) as [|Hep];
    [discriminate|].
  destruct (Std.max_element _ edges) as [max_edge|]; [|discriminate].
  destruct edges as [|front rest] eqn:Hedges; [discriminate|].
  rewrite <- Hedges in *.
  destruct (rev edges) as [|back rest'] eqn:Hrev; [discriminate|].
  destruct (Std.is_sorted _ edges) eqn:Hsorted; [|discriminate].
  simpl negb. cbv iota.
  destruct (Nat.eqb_spec (Std.find_if (fun e => src e =? dst e) edges)
                         (List.length edges)) as [Hself|]; [|discriminate].
  simpl negb. cbv iota.
  destruct (Z.gtb_spec (Z.of_nat (List.length edges)
                        / Int64.to_size_t (batch_size args)) INT_MAX);
    [discriminate|].
  intros Hok. injection Hok as <-. simpl.
  repeat split; try assumption; try lia.
  - now apply is_sorted_timestamps.
  - now apply find_if_self_edges.
  - rewrite Hedges. reflexivity.
  - assert (E : edges = rev (back :: rest'))
      by (rewrite <- Hrev, rev_involutive; reflexivity).
    rewrite E. simpl. now rewrite last_last.
Qed.

Lemma to_size_t_pos z : 0 <= z -> Int64.to_size_t z = z.
Proof.
  intros H. unfold Int64.to_size_t.
  destruct (Z.ltb_spec z 0); [lia | reflexivity].
Qed.

Section Partition.
Variables (args : Args) (edges : list Edge) (ds : EdgeListDataset).
Hypothesis Hbs : 1 <= batch_size args.
Hypothesis Hok : EdgeListDataset_init args edges = Ok ds.

Let bs := batch_size args.
Let num_batches := Z.of_nat (List.length edges) / bs.

Lemma el_batches_map :
  el_batches ds
  = map (fun k => mkBatch (Z.of_nat k * bs) (Z.of_nat k * bs + bs))
        (seq 0 (Z.to_nat num_batches)).
Proof.
  destruct (EdgeListDataset_init_Ok _ _ Hok) as (_ & _ & _ & _ & _ & _ & _ & _ & _ & Hb).
  rewrite Hb, store_batches_spec. simpl.
  rewrite to_size_t_pos by lia. reflexivity.
Qed.

Lemma el_batches_length :
  Z.of_nat (List.length (el_batches ds)) = num_batches.
Proof.
  rewrite el_batches_map, length_map, length_seq.
  apply Z2Nat.id. apply Z.div_pos; lia.
Qed.

Lemma el_batches_nth i :
  0 <= i < num_batches ->
  nth_error (el_batches ds) (Z.to_nat i)
  = Some (mkBatch (i * bs) ((i + 1) * bs)).
Proof.
  intros Hi. rewrite el_batches_map.
  rewrite nth_error_map, nth_error_seq.
  destruct (Nat.ltb_spec (Z.to_nat i) (Z.to_nat num_batches)) as [_|Hge];
    [|lia].
  simpl. rewrite Z2Nat.id by lia. do 2 f_equal. lia.
Qed.

Lemma el_batches_In b :
  In b (el_batches ds) ->
  exists i, 0 <= i < num_batches /\ b = mkBatch (i * bs) ((i + 1) * bs).
Proof.
  rewrite el_batches_map. intros H.
  apply in_map_iff in H. destruct H as (k & <- & Hk).
  apply in_seq in Hk. exists (Z.of_nat k).
  split; [lia | f_equal; lia].
Qed.

Lemma num_batches_bound : num_batches * bs <= Z.of_nat (List.length edges).
Proof.
  unfold num_batches. rewrite Z.mul_comm. apply Z.mul_div_le. lia.
Qed.

Lemma EdgeListDataset_getBatch_range i :
  0 <= i < num_batches ->
  EdgeListDataset_getBatch ds i = Ok (mkBatch (i * bs) ((i + 1) * bs))
  /\ Batch_edges edges (mkBatch (i * bs) ((i + 1) * bs))
     = firstn (Z.to_nat bs) (skipn (Z.to_nat (i * bs)) edges)
  /\ Z.of_nat (List.length (Batch_edges edges (mkBatch (i * bs) ((i + 1) * bs))))
     = bs.
Proof.
  intros Hi. unfold EdgeListDataset_getBatch.
  destruct (Z.ltb_spec i 0); [lia|].
  rewrite (el_batches_nth Hi).
  split; [reflexivity|].
  unfold Batch_edges. cbn [begin_iter end_iter].
  assert (E : (i + 1) * bs - i * bs = bs) by lia. rewrite E.
  split; [reflexivity|].
  rewrite length_firstn, length_skipn.
  pose proof num_batches_bound.
  assert ((i + 1) * bs <= num_batches * bs) by nia.
  lia.
Qed.
End Partition.

(** C3.  A dataset built from [num_edges >= batch_size >= 1] loaded
    edges has exactly [num_edges / batch_size] batches, rounded down;
    batch [i] ranges over the offsets from [i * batch_size] up to, and
    without, [(i+1) * batch_size], hence over [batch_size] consecutive
    edges; two batches do not overlap, and the edges from offset
    [num_batches * batch_size] on, [num_edges mod batch_size] of them,
    are in no batch. *)
Theorem EdgeListDataset_partition
        (args : Args) (edges : list Edge) (ds : EdgeListDataset) :
  1 <= batch_size args <= Z.of_nat (List.length edges) ->
  EdgeListDataset_init args edges = Ok ds ->
  let bs := batch_size args in
  let num_edges := Z.of_nat (List.length edges) in
  let num_batches := num_edges / bs in
  el_edges ds = edges
  /\ EdgeListDataset_getNumBatches ds = num_batches
  /\ (forall i, 0 <= i < num_batches ->
        exists b,
          EdgeListDataset_getBatch ds i = Ok b
          /\ begin_iter b = i * bs /\ end_iter b = (i + 1) * bs
          /\ Batch_edges edges b
             = firstn (Z.to_nat bs) (skipn (Z.to_nat (i * bs)) edges)
          /\ Z.of_nat (List.length (Batch_edges edges b)) = bs)
  /\ (forall i j bi bj p,
        EdgeListDataset_getBatch ds i = Ok bi ->
        EdgeListDataset_getBatch ds j = Ok bj ->
        covers bi p -> covers bj p -> i = j)
  /\ (forall p b,
        num_batches * bs <= p < num_edges ->
        In b (el_batches ds) -> ~ covers b p)
  /\ num_edges - num_batches * bs = num_edges mod bs.
Proof.
  intros [Hbs Hlen] Hok. cbv zeta.
  set (bs := batch_size args).
  set (num_edges := Z.of_nat (List.length edges)).
  set (num_batches := num_edges / bs).
  pose proof (@el_batches_length args edges ds Hbs Hok) as Hnb.
  fold bs num_edges num_batches in Hnb.
  assert (Hnth : forall i, 0 <= i < num_batches ->
                 nth_error (el_batches ds) (Z.to_nat i)
                 = Some (mkBatch (i * bs) ((i + 1) * bs)))
    by exact (@el_batches_nth args edges ds Hbs Hok).
  assert (HIn : forall b, In b (el_batches ds) ->
                exists i, 0 <= i < num_batches
                          /\ b = mkBatch (i * bs) ((i + 1) * bs))
    by exact (@el_batches_In args edges ds Hbs Hok).
  pose proof (EdgeListDataset_init_Ok _ _ Hok)
    as (_ & _ & _ & _ & _ & _ & Hedges & _).
  pose proof (@num_batches_bound args edges Hbs) as Hbound.
  fold bs num_edges num_batches in Hbound.
  assert (Hget : forall i b,
             EdgeListDataset_getBatch ds i = Ok b ->
             0 <= i < num_batches /\ b = mkBatch (i * bs) ((i + 1) * bs)).
  { intros i b. unfold EdgeListDataset_getBatch.
    destruct (Z.ltb_spec i 0); [discriminate|].
    destruct (nth_error (el_batches ds) (Z.to_nat i)) as [b'|] eqn:Hn;
      [|discriminate].
    intros E. injection E as ->.
    assert (Hi : 0 <= i < num_batches).
    { split; [assumption|].
      assert (Hlt : (Z.to_nat i < List.length (el_batches ds))%nat)
        by (apply nth_error_Some; congruence).
      lia. }
    split; [assumption|].
    rewrite (Hnth i Hi) in Hn. congruence. }
  split; [assumption|]. split; [|split; [|split; [|split]]].
  - unfold EdgeListDataset_getNumBatches.
    exact Hnb.
  - intros i Hi. exists (mkBatch (i * bs) ((i + 1) * bs)).
    destruct (@EdgeListDataset_getBatch_range args edges ds Hbs Hok i Hi)
      as (Hget' & Hrange & Hsize).
    split; [exact Hget'|]. split; [reflexivity|]. split; [reflexivity|].
    split; [exact Hrange | exact Hsize].
  - intros i j bi bj p Hi Hj Hpi Hpj.
    apply Hget in Hi, Hj. destruct Hi as [Hi ->], Hj as [Hj ->].
    unfold covers in *. cbn [begin_iter end_iter] in *. nia.
  - intros p b Hp Hin Hc.
    apply HIn in Hin.
    destruct Hin as (i & Hi & ->).
    unfold covers in Hc. cbn [begin_iter end_iter] in Hc.
    assert ((i + 1) * bs <= num_batches * bs) by nia. lia.
  - unfold num_batches. rewrite (Z.mod_eq num_edges bs) by lia. lia.
Qed.

(** C5.  The construction of a dataset from loaded edges succeeds only
    on edges in non-decreasing order of timestamp and free of
    self-edges; edges that break either condition never give a dataset,
    and the constructor ends them with a logged message and the fatal
    exit. *)
Theorem EdgeListDataset_rejects_invalid (args : Args) (edges : list Edge) :
  (forall ds,
      EdgeListDataset_init args edges = Ok ds ->
      nondecreasing_timestamps edges /\ no_self_edges edges)
  /\ (~ (nondecreasing_timestamps edges /\ no_self_edges edges) ->
      (forall ds, EdgeListDataset_init args edges <> Ok ds)
      /\ (batch_size args <> 0 ->
          exists log, EdgeListDataset_init args edges = Die log)).
Proof.
  assert (Hok : forall ds,
             EdgeListDataset_init args edges = Ok ds ->
             nondecreasing_timestamps edges /\ no_self_edges edges).
  { intros ds H.
    destruct (EdgeListDataset_init_Ok _ _ H) as (_ & _ & _ & Hs & Hn & _).
    now split. }
  split; [exact Hok|]. intros Hbad. split.
  - intros ds H. apply Hbad. eapply Hok; eauto.
  - intros Hbs. unfold EdgeListDataset_init.
    destruct (Z.eqb_spec (batch_size args) 0); [contradiction|].
    destruct (Int64.to_size_t (batch_size args) >? _); [eauto|].
    destruct (num_epochs args >? _); [eauto|].
    destruct edges as [|front rest].
    { exfalso. apply Hbad. split; constructor. }
    cbn [Std.max_element].
    destruct (rev (front :: rest)) as [|back rest'] eqn:Hrev.
    { apply (f_equal (@List.length Edge)) in Hrev.
      rewrite length_rev in Hrev. discriminate. }
    destruct (Std.is_sorted _ (front :: rest)) eqn:Hsorted; [|cbn [negb]; eauto].
    cbn [negb].
    destruct (Nat.eqb_spec
                (Std.find_if (fun e => src e =? dst e) (front :: rest))
                (List.length (front :: rest))) as [Hself|]; [|cbn [negb]; eauto].
    exfalso. apply Hbad. split.
    + now apply is_sorted_timestamps.
    + now apply find_if_self_edges.
Qed.

Example example_dataset_init :
  EdgeListDataset_init example_args example_edges = Ok example_dataset.
Proof. reflexivity. Qed.

Lemma EdgeListDataset_partition_witness :
  el_edges example_dataset = example_edges
  /\ EdgeListDataset_getNumBatches example_dataset = 4 / 2
  /\ (forall i, 0 <= i < 4 / 2 ->
        exists b,
          EdgeListDataset_getBatch example_dataset i = Ok b
          /\ begin_iter b = i * 2 /\ end_iter b = (i + 1) * 2
          /\ Batch_edges example_edges b
             = firstn (Z.to_nat 2) (skipn (Z.to_nat (i * 2)) example_edges)
          /\ Z.of_nat (List.length (Batch_edges example_edges b)) = 2)
  /\ (forall i j bi bj p,
        EdgeListDataset_getBatch example_dataset i = Ok bi ->
        EdgeListDataset_getBatch example_dataset j = Ok bj ->
        covers bi p -> covers bj p -> i = j)
  /\ (forall p b,
        4 / 2 * 2 <= p < 4 ->
        In b (el_batches example_dataset) -> ~ covers b p)
  /\ 4 - 4 / 2 * 2 = 4 mod 2.
Proof.
  apply (@EdgeListDataset_partition example_args example_edges example_dataset).
  - simpl. lia.
  - reflexivity.
Defined.

Lemma EdgeListDataset_rejects_invalid_witness :
  (nondecreasing_timestamps example_edges /\ no_self_edges example_edges)
  /\ ((forall ds,
          EdgeListDataset_init example_args invalid_edges <> Ok ds)
      /\ (batch_size example_args <> 0 ->
          exists log,
            EdgeListDataset_init example_args invalid_edges = Die log)).
Proof.
  split.
  - apply (proj1 (EdgeListDataset_rejects_invalid example_args example_edges)
                 example_dataset).
    reflexivity.
  - apply (proj2 (EdgeListDataset_rejects_invalid example_args invalid_edges)).
    intros [Hsorted _].
    apply is_sorted_timestamps in Hsorted. discriminate Hsorted.
Defined.

(** The example of the design document, run on the model: two batches,
    [edges[0:2]] and [edges[2:4]]; sorting and deduplicating either
    batch keeps its two edges; both batches enable the algorithms. *)
Example example_dataset_batches :
  EdgeListDataset_getNumBatches example_dataset = 2
  /\ map (Batch_edges example_edges) (el_batches example_dataset)
     = [[mkEdge 1 2 1 0; mkEdge 1 3 1 1]; [mkEdge 1 2 5 2; mkEdge 2 3 1 3]]
  /\ map (DeduplicatedBatch insertion_Sort)
         (map (Batch_edges example_edges) (el_batches example_dataset))
     = [[mkEdge 1 2 1 0; mkEdge 1 3 1 1]; [mkEdge 1 2 5 2; mkEdge 2 3 1 3]]
  /\ EdgeListDataset_enableAlgsForBatch example_dataset 0 = true
  /\ EdgeListDataset_enableAlgsForBatch example_dataset 1 = true.
Proof. repeat split; vm_compute; reflexivity. Qed.

(** The whole constructor, loader included, gives a dataset only on
    edges in order of timestamp and free of self-edges. *)
Lemma EdgeListDataset_new_valid
      (file_at : string -> option (list Byte.byte))
      (loadEdgesAscii : string -> outcome (list Edge))
      (args : Args) (ds : EdgeListDataset) :
  EdgeListDataset_new file_at loadEdgesAscii args = Ok ds ->
  nondecreasing_timestamps (el_edges ds) /\ no_self_edges (el_edges ds).
Proof.
  unfold EdgeListDataset_new.
  destruct (if has_suffix (input_path args) ".graph.bin" then _ else _)
    as [edges| | | |]; simpl; try discriminate.
  intros H.
  destruct (EdgeListDataset_init_Ok _ _ H)
    as (_ & _ & _ & Hs & Hn & _ & -> & _).
  now split.
Qed.


(* ================================================================== *)
(** * Epoch gating *)

Lemma count_enabled_succ enable n :
  count_enabled enable (Z.of_nat (S n))
  = count_enabled enable (Z.of_nat n)
    + (if enable (Z.of_nat n) then 1 else 0).
Proof.
  unfold count_enabled. rewrite !Nat2Z.id.
  rewrite seq_S, map_app, filter_app, length_app. simpl.
  destruct (enable (Z.of_nat n)); simpl; lia.
Qed.

(** With exact division the rule enables exactly [num_epochs] of the
    batches, the last one among them. *)
Lemma enable_algs_exact_count num_batches num_epochs :
  1 <= num_epochs <= num_batches ->
  count_enabled (enable_algs_exact num_batches num_epochs) num_batches
  = num_epochs
  /\ enable_algs_exact num_batches num_epochs (num_batches - 1) = true.
Proof.
  intros H.
  assert (Hstep : forall i, 0 <= i ->
             0 <= epochs_before num_batches num_epochs (i + 1)
                  - epochs_before num_batches num_epochs i <= 1).
  { intros i Hi. unfold epochs_before. split.
    - assert (i * num_epochs / num_batches
              <= (i + 1) * num_epochs / num_batches); [|lia].
      apply Z.div_le_mono; nia.
    - assert ((i + 1) * num_epochs / num_batches
              <= (i * num_epochs + 1 * num_batches) / num_batches).
      { apply Z.div_le_mono; nia. }
      rewrite Z.div_add in H0 by lia. lia. }
  assert (Hcount : forall n : nat,
             count_enabled (enable_algs_exact num_batches num_epochs)
                           (Z.of_nat n)
             = epochs_before num_batches num_epochs (Z.of_nat n)).
  { induction n as [|n IH].
    - reflexivity.
    - rewrite count_enabled_succ, IH.
      unfold enable_algs_exact.
      specialize (Hstep (Z.of_nat n) (Nat2Z.is_nonneg n)).
      replace (Z.of_nat (S n)) with (Z.of_nat n + 1) by lia.
      destruct (Z.gtb_spec
                  (epochs_before num_batches num_epochs (Z.of_nat n + 1)
                   - epochs_before num_batches num_epochs (Z.of_nat n)) 0);
        lia. }
  split.
  - rewrite <- (Z2Nat.id num_batches) at 2 by lia.
    rewrite Hcount, Z2Nat.id by lia.
    unfold epochs_before. rewrite Z.mul_comm. apply Z.div_mul. lia.
  - unfold enable_algs_exact, epochs_before.
    replace (num_batches - 1 + 1) with num_batches by lia.
    rewrite (Z.mul_comm num_batches), Z.div_mul by lia.
    assert ((num_batches - 1) * num_epochs / num_batches < num_epochs).
    { apply Z.div_lt_upper_bound; nia. }
    destruct (Z.gtb_spec
                (num_epochs - (num_batches - 1) * num_epochs / num_batches) 0);
      [reflexivity | lia].
Qed.

(** C2.  Nine batches and seven epochs, [1 <= 7 <= 9]: the quotient
    [9.0 / 7.0] is rounded up, [9.0 / (9.0 / 7.0)] is the double just
    below [7.0], and [round_down] makes it [6].  The last batch, of id
    8, does not enable the algorithms, and six batches do, not seven,
    for a loaded dataset and a synthetic one alike.  The rule computed
    exactly enables seven, the last one among them. *)
Theorem enableAlgsForBatch_nine_batches_seven_epochs :
  1 <= 7 <= 9
  /\ (exists ds,
         EdgeListDataset_init nine_args nine_edges = Ok ds
         /\ EdgeListDataset_getNumBatches ds = 9
         /\ num_epochs (el_args ds) = 7
         /\ EdgeListDataset_enableAlgsForBatch ds 8 = false
         /\ count_enabled (EdgeListDataset_enableAlgsForBatch ds) 9 = 6)
  /\ (forall G : rmat_edge_generator,
         exists ds,
           RmatDataset_new G nine_args nine_rmat_args = Ok ds
           /\ rm_num_batches ds = 9
           /\ num_epochs (rm_args ds) = 7
           /\ RmatDataset_enableAlgsForBatch ds 8 = false
           /\ count_enabled (RmatDataset_enableAlgsForBatch ds) 9 = 6)
  /\ enable_algs_exact 9 7 8 = true
  /\ count_enabled (enable_algs_exact 9 7) 9 = 7.
Proof.
  split; [lia|]. split; [|split; [|split]].
  - eexists. split; [vm_compute; reflexivity|].
    repeat split; vm_compute; reflexivity.
  - intros G. eexists. split; [reflexivity|].
    repeat split; vm_compute; reflexivity.
  - vm_compute; reflexivity.
  - vm_compute; reflexivity.
Qed.

(* ================================================================== *)
(** * The threshold of the window *)

(** [EdgeListDataset::getTimestampForWindow] follows the design
    document: on a dataset built from loaded edges, and for the id of
    one of its batches, it is the threshold computed from the
    timestamps of the first and of the last loaded edge and of the last
    edge of the batch. *)
Lemma EdgeListDataset_getTimestampForWindow_threshold
      (args : Args) (edges : list Edge) (ds : EdgeListDataset) (batchId : Z) :
  1 <= batch_size args ->
  EdgeListDataset_init args edges = Ok ds ->
  0 <= batchId < EdgeListDataset_getNumBatches ds ->
  exists b last_edge,
    EdgeListDataset_getBatch ds batchId = Ok b
    /\ last (Batch_edges edges b) (mkEdge 0 0 0 0) = last_edge
    /\ Batch_edges edges b <> []
    /\ EdgeListDataset_getTimestampForWindow ds batchId
       = Ok (window_threshold
               (window_size args)
               (timestamp (hd (mkEdge 0 0 0 0) edges))
               (timestamp (last edges (mkEdge 0 0 0 0)))
               (timestamp last_edge)).
Proof.
  intros Hbs Hok Hid.
  pose proof (EdgeListDataset_init_Ok _ _ Hok)
    as (_ & Hsz & _ & _ & _ & Hargs & Hedges & Hmin & Hmax & _).
  rewrite to_size_t_pos in Hsz by lia.
  unfold EdgeListDataset_getNumBatches in Hid.
  rewrite (@el_batches_length args edges ds Hbs Hok) in Hid.
  destruct (@EdgeListDataset_getBatch_range args edges ds Hbs Hok batchId Hid)
    as (Hget & Hbe & Hlen).
  set (b := mkBatch (batchId * batch_size args)
                    ((batchId + 1) * batch_size args)) in *.
  assert (Hend : end_iter b = (batchId + 1) * batch_size args)
    by reflexivity.
  pose proof (@num_batches_bound args edges Hbs) as Hbound.
  assert (Hend' : (batchId + 1) * batch_size args
                  <= Z.of_nat (List.length edges)) by nia.
  set (d := mkEdge 0 0 0 0).
  assert (Hnth : nth_error edges (Z.to_nat (end_iter b - 1))
                 = Some (last (Batch_edges edges b) d)).
  { rewrite Hbe.
    set (n := Z.to_nat (batch_size args)).
    set (k := Z.to_nat (batchId * batch_size args)).
    assert (Hn : (n = S (n - 1))%nat) by lia.
    assert (Hl : List.length (firstn n (skipn k edges)) = n).
    { rewrite length_firstn, length_skipn. lia. }
    rewrite <- (rev_involutive (firstn n (skipn k edges))).
    destruct (rev (firstn n (skipn k edges))) as [|x l] eqn:Hrev.
    { apply (f_equal (@List.length Edge)) in Hrev.
      rewrite length_rev, Hl in Hrev. simpl in Hrev. lia. }
    simpl rev. rewrite last_last.
    assert (Hx : nth_error (firstn n (skipn k edges)) (n - 1) = Some x).
    { rewrite <- (rev_involutive (firstn n (skipn k edges))), Hrev.
      simpl rev. rewrite nth_error_app2; rewrite length_rev.
      - apply (f_equal (@List.length Edge)) in Hrev.
        rewrite length_rev, Hl in Hrev. simpl in Hrev.
        replace (n - 1 - List.length l)%nat with O by lia. reflexivity.
      - apply (f_equal (@List.length Edge)) in Hrev.
        rewrite length_rev, Hl in Hrev. simpl in Hrev. lia. }
    rewrite nth_error_firstn in Hx.
    destruct (Nat.ltb_spec (n - 1) n) as [_|]; [|lia].
    rewrite nth_error_skipn in Hx.
    rewrite <- Hx. f_equal. lia. }
  exists b, (last (Batch_edges edges b) d).
  split; [assumption|]. split; [reflexivity|]. split.
  { intros E. rewrite E in Hlen. simpl in Hlen. lia. }
  unfold EdgeListDataset_getTimestampForWindow.
  unfold EdgeListDataset_getBatch in Hget.
  destruct (Z.ltb_spec batchId 0); [lia|].
  destruct (nth_error (el_batches ds) (Z.to_nat batchId)) as [b'|];
    [|discriminate].
  injection Hget as ->.
  destruct (Z.ltb_spec (end_iter b - 1) 0); [nia|].
  rewrite Hedges, Hnth, Hargs, Hmin, Hmax. reflexivity.
Qed.

Example EdgeListDataset_getTimestampForWindow_example :
  EdgeListDataset_getTimestampForWindow example_dataset 0 = Ok 0
  /\ EdgeListDataset_getTimestampForWindow example_dataset 1 = Ok 0.
Proof. split; vm_compute; reflexivity. Qed.

(** C4.  A synthetic dataset of four edges in batches of two, with a
    window of size 0: the edges of batch 0 carry the timestamps 0 and 1,
    so that the threshold of the design document is
    [max 0 (1 - 0) = 1]; [RmatDataset::getTimestampForWindow] takes
    [(batchId + 1) * batch_size] for the timestamp of the last edge of
    the batch and returns 2. *)
Theorem RmatDataset_getTimestampForWindow_off_by_one :
  exists ds batch ds',
    RmatDataset_new alternating_generator window0_args window0_rmat_args = Ok ds
    /\ @RmatDataset_getBatch alternating_generator 8 ds 0 = Ok (batch, ds')
    /\ map timestamp batch = [0; 1]
    /\ window_threshold (window_size window0_args) 0 3
                        (timestamp (last batch (mkEdge 0 0 0 0))) = 1
    /\ RmatDataset_getTimestampForWindow ds 0 = 2.
Proof.
  do 3 eexists.
  split; [reflexivity|].
  split; [vm_compute; reflexivity|].
  repeat split; vm_compute; reflexivity.
Qed.

(** The same, for every generator: the returned threshold does not
    depend on the edges drawn. *)
Lemma RmatDataset_getTimestampForWindow_window0 (G : rmat_edge_generator) :
  exists ds,
    RmatDataset_new G window0_args window0_rmat_args = Ok ds
    /\ RmatDataset_getTimestampForWindow ds 0 = 2.
Proof. eexists. split; [reflexivity | vm_compute; reflexivity]. Qed.

(* ================================================================== *)
(** * Generated batches *)

Section RmatFacts.
Variable G : rmat_edge_generator.

Lemma draws_app m1 m2 (g : gen_state G) :
  draws G (m1 + m2) g
  = (fst (draws G m1 g) ++ fst (draws G m2 (snd (draws G m1 g))),
     snd (draws G m2 (snd (draws G m1 g)))).
Proof.
  revert g. induction m1 as [|m1 IH]; intros g.
  - simpl. now destruct (draws G m2 g).
  - simpl. destruct (next_edge G g) as [e g1].
    rewrite IH. destruct (draws G m1 g1) as [es1 g2]. simpl. reflexivity.
Qed.

(** The inner loop returns the first drawn edge that is not a
    self-edge, and has discarded the self-edges drawn before it. *)
Lemma draw_edge_Some fuel (g : gen_state G) e g' :
  draw_edge G fuel g = Some (e, g') ->
  fst e <> snd e
  /\ exists m, (m <= fuel)%nat
               /\ snd (draws G m g) = g'
               /\ filter not_self (fst (draws G m g)) = [e].
Proof.
  revert g. induction fuel as [|fuel IH]; intros g; simpl; [discriminate|].
  destruct (next_edge G g) as [e1 g1] eqn:Hnext.
  destruct (Z.eqb_spec (fst e1) (snd e1)) as [Heq|Hne].
  - intros H. destruct (IH g1 H) as (Hns & m & Hm & Hg & Hf).
    split; [assumption|]. exists (S m). split; [lia|].
    simpl. rewrite Hnext. destruct (draws G m g1) as [es g2]. simpl in *.
    split; [assumption|].
    unfold not_self at 1. rewrite Heq, Z.eqb_refl. simpl. assumption.
  - intros H. injection H as <- <-. split; [assumption|].
    exists 1%nat. split; [lia|]. simpl. rewrite Hnext. simpl.
    split; [reflexivity|].
    unfold not_self. destruct (Z.eqb_spec (fst e1) (snd e1)); [contradiction|].
    reflexivity.
Qed.

Lemma draw_edge_more fuel fuel' (g : gen_state G) r :
  (fuel <= fuel')%nat -> draw_edge G fuel g = Some r -> draw_edge G fuel' g = Some r.
Proof.
  revert fuel' g. induction fuel as [|fuel IH]; intros fuel' g Hle;
    simpl; [discriminate|].
  destruct fuel' as [|fuel']; [lia|]. simpl.
  destruct (next_edge G g) as [e1 g1].
  destruct (fst e1 =? snd e1); [|auto].
  apply IH. lia.
Qed.

(** The invariant of the outer loop. *)
Lemma fill_edges_Ok fuel n (g : gen_state G) first_timestamp edges batch g' :
  fill_edges G fuel n g first_timestamp edges = Ok (batch, g') ->
  exists filled,
    batch = edges ++ filled
    /\ List.length filled = n
    /\ Forall (fun e => src e <> dst e) filled
    /\ Forall (fun e => weight e = 1) filled
    /\ (forall i e, nth_error filled i = Some e ->
                    timestamp e = first_timestamp + Z.of_nat i)
    /\ exists m, snd (draws G m g) = g'
                 /\ map endpoints filled = filter not_self (fst (draws G m g)).
Proof.
  revert g first_timestamp edges.
  induction n as [|n IH]; intros g first_timestamp edges; simpl.
  - intros H. injection H as <- <-. exists [].
    rewrite app_nil_r. repeat split; try constructor.
    + intros [|i] e; discriminate.
    + exists O. split; reflexivity.
  - destruct (draw_edge G fuel g) as [[e g1]|] eqn:Hdraw; [|discriminate].
    intros H. apply IH in H.
    destruct H as (filled & -> & Hlen & Hns & Hw & Hts & m2 & Hg & Hends).
    destruct (draw_edge_Some _ _ Hdraw) as (Hne & m1 & _ & Hg1 & Hf1).
    set (edge := {| src := fst e; dst := snd e; weight := 1;
                    timestamp := first_timestamp |}).
    exists (edge :: filled).
    split; [now rewrite <- app_assoc|].
    split; [simpl; lia|].
    split; [constructor; assumption|].
    split; [constructor; [reflexivity | assumption]|].
    split.
    + intros [|i] e' Hi; simpl in Hi.
      * injection Hi as <-. simpl. lia.
      * apply Hts in Hi. lia.
    + exists (m1 + m2)%nat. rewrite draws_app. simpl.
      rewrite Hg1. split; [assumption|].
      rewrite filter_app, Hf1, <- Hends. simpl.
      unfold endpoints at 1. simpl. now destruct e.
Qed.

Lemma fill_edges_total k n (g : gen_state G) first_timestamp edges :
  productive G k ->
  exists batch g', fill_edges G k n g first_timestamp edges = Ok (batch, g').
Proof.
  intros Hprod. revert g first_timestamp edges.
  induction n as [|n IH]; intros g first_timestamp edges; simpl.
  - eauto.
  - destruct (draw_edge G k g) as [[e g1]|] eqn:Hdraw.
    + apply IH.
    + exfalso. now apply (Hprod g).
Qed.

Lemma fill_edges_more fuel fuel' n (g : gen_state G) ts edges r :
  (fuel <= fuel')%nat ->
  fill_edges G fuel n g ts edges = Ok r -> fill_edges G fuel' n g ts edges = Ok r.
Proof.
  intros Hle. revert g ts edges.
  induction n as [|n IH]; intros g ts edges; simpl; [auto|].
  destruct (draw_edge G fuel g) as [[e g1]|] eqn:Hdraw; [|discriminate].
  rewrite (@draw_edge_more fuel fuel' g (e, g1) Hle Hdraw). apply IH.
Qed.

(** ** Batches of a dataset *)

Lemma RmatDataset_getBatch_Ok fuel (ds : RmatDataset G) batchId batch ds' :
  RmatDataset_getBatch fuel ds batchId = Ok (batch, ds') ->
  batchId = rm_current_batch ds
  /\ rm_args ds' = rm_args ds
  /\ rm_current_batch ds' = rm_current_batch ds + 1
  /\ rm_next_timestamp ds'
     = rm_next_timestamp ds + batch_size (rm_args ds)
  /\ fill_edges G fuel (Z.to_nat (batch_size (rm_args ds)))
                (rm_generator ds) (rm_next_timestamp ds) []
     = Ok (batch, rm_generator ds')
  /\ 0 <= batch_size (rm_args ds).
Proof.
  unfold RmatDataset_getBatch.
  destruct (Z.eqb_spec batchId (rm_current_batch ds)) as [->|];
    [|discriminate].
  cbn [negb]. unfold RmatBatch_new.
  destruct (Z.ltb_spec (batch_size (rm_args ds)) 0); [discriminate|].
  destruct (batch_size (rm_args ds) >? INT_MAX); [discriminate|].
  destruct (fill_edges G fuel _ _ _ _) as [[b g']| | | |]; try discriminate.
  simpl. intros Hret. injection Hret as <- <-. simpl.
  repeat split; try reflexivity. assumption.
Qed.

Lemma RmatDataset_getBatch_total k (ds : RmatDataset G) :
  productive G k ->
  0 <= batch_size (rm_args ds) <= INT_MAX ->
  exists batch ds',
    RmatDataset_getBatch k ds (rm_current_batch ds) = Ok (batch, ds').
Proof.
  intros Hprod [Hlo Hhi]. unfold RmatDataset_getBatch.
  rewrite Z.eqb_refl. cbn [negb].
  unfold RmatBatch_new.
  destruct (Z.ltb_spec (batch_size (rm_args ds)) 0); [lia|].
  destruct (Z.gtb_spec (batch_size (rm_args ds)) INT_MAX); [lia|].
  destruct (@fill_edges_total k (Z.to_nat (batch_size (rm_args ds)))
                              (rm_generator ds) (rm_next_timestamp ds) []
                              Hprod) as (b & g' & ->).
  simpl. eauto.
Qed.

(** A generator that keeps drawing edges other than self-edges gives
    every batch that is requested in order. *)
Lemma getBatches_total k n (ds : RmatDataset G) :
  productive G k ->
  0 <= batch_size (rm_args ds) <= INT_MAX ->
  exists batches, getBatches k n ds (rm_current_batch ds) = Ok batches.
Proof.
  intros Hprod. revert ds. induction n as [|n IH]; intros ds Hbs.
  - simpl. eauto.
  - cbn [getBatches].
    destruct (RmatDataset_getBatch_total ds Hprod Hbs) as (batch & ds' & Hget).
    rewrite Hget. cbn [bind fst snd].
    destruct (RmatDataset_getBatch_Ok _ _ _ Hget)
      as (_ & Hargs & Hcur & _).
    rewrite <- Hcur.
    destruct (IH ds') as (rest & ->); [now rewrite Hargs|].
    cbn [bind]. eauto.
Qed.

(** ** The state of a synthetic dataset *)

Lemma step_same_parameters (ds ds' : RmatDataset G) :
  step ds ds' -> same_parameters ds ds'.
Proof.
  intros H. destruct H as [fuel ds batchId batch ds' H
                          |fuel ds batchId batch ds' H
                          |ds].
  - unfold RmatDataset_getBatch in H.
    destruct (negb (batchId =? rm_current_batch ds)); [discriminate|].
    destruct (RmatBatch_new _ _ _ _ _) as [r| | | |]; try discriminate.
    simpl in H. injection H as _ <-. repeat split.
  - unfold RmatDataset_getBatchesUpTo in H.
    destruct (negb (batchId =? 0)); [discriminate|].
    destruct (RmatBatch_new _ _ _ _ _) as [r| | | |]; try discriminate.
    simpl in H. injection H as _ <-. repeat split.
  - repeat split.
Qed.

Lemma reachable_same_parameters (ds0 ds : RmatDataset G) :
  reachable ds0 ds -> same_parameters ds0 ds.
Proof.
  induction 1 as [|ds ds' _ IH Hstep].
  - repeat split.
  - apply step_same_parameters in Hstep.
    unfold same_parameters in *. intuition congruence.
Qed.

Lemma RmatDataset_new_Ok args rmat_args (ds0 : RmatDataset G) :
  RmatDataset_new G args rmat_args = Ok ds0 ->
  ds0 = {| rm_args := args;
           rm_rmat_args := rmat_args;
           rm_current_batch := 0;
           rm_num_edges := rmat_num_edges rmat_args;
           rm_num_batches :=
             Int64.wrap (Z.quot (rmat_num_edges rmat_args) (batch_size args));
           rm_num_vertices := rmat_num_vertices rmat_args;
           rm_next_timestamp := 0;
           rm_generator := new_generator G rmat_args |}.
Proof.
  unfold RmatDataset_new.
  destruct (batch_size args =? 0); [discriminate|].
  destruct (_ >? _); [discriminate|].
  destruct (_ >? _); [discriminate|].
  intros H. now injection H as <-.
Qed.

(** [reset] brings a dataset back to the state its constructor left. *)
Lemma RmatDataset_reset_fresh args rmat_args (ds0 ds : RmatDataset G) :
  RmatDataset_new G args rmat_args = Ok ds0 ->
  reachable ds0 ds ->
  RmatDataset_reset ds = ds0.
Proof.
  intros Hnew Hreach.
  apply reachable_same_parameters in Hreach.
  destruct Hreach as (Ha & Hr & Hne & Hnb & Hnv).
  apply RmatDataset_new_Ok in Hnew.
  unfold RmatDataset_reset. rewrite Ha, Hr, Hne, Hnb, Hnv.
  rewrite Hnew. simpl. reflexivity.
Qed.
End RmatFacts.

(** C6.  Whatever the generator, and so whatever the parameters it was
    made from, a batch returned by [RmatDataset::getBatch] has exactly
    [batch_size] edges, none of them a self-edge, each of weight 1, and
    the edge at position [i] carries the timestamp [next_timestamp + i];
    its edges are, in order, the drawn edges that are not self-edges:
    a drawn self-edge is dropped and takes neither a place nor a
    timestamp.  The batch is returned whenever the generator keeps
    drawing edges that are not self-edges. *)
Theorem RmatBatch_discards_self_edges (G : rmat_edge_generator) :
  (forall fuel (ds : RmatDataset G) batchId batch ds',
      RmatDataset_getBatch fuel ds batchId = Ok (batch, ds') ->
      Z.of_nat (List.length batch) = batch_size (rm_args ds)
      /\ Forall (fun e => src e <> dst e) batch
      /\ Forall (fun e => weight e = 1) batch
      /\ (forall i e, nth_error batch i = Some e ->
                      timestamp e = rm_next_timestamp ds + Z.of_nat i)
      /\ rm_next_timestamp ds'
         = rm_next_timestamp ds + batch_size (rm_args ds)
      /\ exists m,
          snd (draws G m (rm_generator ds)) = rm_generator ds'
          /\ map endpoints batch
             = filter not_self (fst (draws G m (rm_generator ds))))
  /\ (forall k (ds : RmatDataset G),
         productive G k ->
         0 <= batch_size (rm_args ds) <= INT_MAX ->
         exists batch ds',
           RmatDataset_getBatch k ds (rm_current_batch ds) = Ok (batch, ds')).
Proof.
  split.
  - intros fuel ds batchId batch ds' Hget.
    destruct (RmatDataset_getBatch_Ok _ _ _ Hget)
      as (_ & _ & _ & Hnext & Hfill & Hbs).
    apply fill_edges_Ok in Hfill.
    destruct Hfill as (filled & -> & Hlen & Hns & Hw & Hts & Hdraws).
    simpl. rewrite Hlen.
    split; [lia|]. repeat split; assumption.
  - intros k ds Hprod Hbs. now apply RmatDataset_getBatch_total.
Qed.

Lemma alternating_generator_productive : productive alternating_generator 2.
Proof. intros g. destruct g; simpl; discriminate. Qed.

Lemma RmatBatch_discards_self_edges_witness :
  (Z.of_nat (List.length [mkEdge 0 1 1 0; mkEdge 0 1 1 1])
   = batch_size (rm_args window0_dataset)
   /\ Forall (fun e => src e <> dst e) [mkEdge 0 1 1 0; mkEdge 0 1 1 1]
   /\ Forall (fun e => weight e = 1) [mkEdge 0 1 1 0; mkEdge 0 1 1 1]
   /\ (forall i e,
          nth_error [mkEdge 0 1 1 0; mkEdge 0 1 1 1] i = Some e ->
          timestamp e = rm_next_timestamp window0_dataset + Z.of_nat i)
   /\ rm_next_timestamp window0_dataset_1
      = rm_next_timestamp window0_dataset
        + batch_size (rm_args window0_dataset)
   /\ exists m,
       snd (draws alternating_generator m (rm_generator window0_dataset))
       = rm_generator window0_dataset_1
       /\ map endpoints [mkEdge 0 1 1 0; mkEdge 0 1 1 1]
          = filter not_self
                   (fst (draws alternating_generator m
                               (rm_generator window0_dataset))))
  /\ (exists batch ds',
         RmatDataset_getBatch 2 window0_dataset
                              (rm_current_batch window0_dataset)
         = Ok (batch, ds')).
Proof.
  split.
  - apply (proj1 (RmatBatch_discards_self_edges alternating_generator)
                 2%nat window0_dataset 0).
    reflexivity.
  - apply (proj2 (RmatBatch_discards_self_edges alternating_generator)
                 2%nat window0_dataset).
    + exact alternating_generator_productive.
    + simpl. unfold INT_MAX. lia.
Defined.

(** A generator that draws self-edges only never completes a batch:
    the loop that discards them does not end. *)
Lemma stuck_generator_no_batch fuel g size first_timestamp :
  0 < size <= INT_MAX ->
  RmatBatch_new stuck_generator fuel g size first_timestamp = OutOfFuel.
Proof.
  intros [Hlo Hhi]. unfold RmatBatch_new.
  destruct (Z.ltb_spec size 0); [lia|].
  destruct (Z.gtb_spec size INT_MAX); [lia|].
  destruct (Z.to_nat size) as [|n] eqn:Hn; [lia|].
  simpl.
  assert (Hdraw : forall f st, draw_edge stuck_generator f st = None).
  { induction f as [|f IH]; intros st; simpl; [reflexivity | apply IH]. }
  now rewrite Hdraw.
Qed.

(* ================================================================== *)
(** * Resetting a synthetic dataset *)

(** C9.  Whatever has been requested of a synthetic dataset since its
    construction, [reset] puts it back in the state the constructor
    left, so that the batches [getBatch(0)], [getBatch(1)], ... that
    follow are, edge for edge, those of the freshly constructed
    dataset. *)
Theorem RmatDataset_reset_replays
        (G : rmat_edge_generator) (args : Args) (rmat_args : RmatArgs)
        (ds0 ds : RmatDataset G) :
  RmatDataset_new G args rmat_args = Ok ds0 ->
  reachable ds0 ds ->
  RmatDataset_reset ds = ds0
  /\ (forall fuel n,
         getBatches fuel n (RmatDataset_reset ds) 0 = getBatches fuel n ds0 0)
  /\ (forall k n,
         productive G k ->
         0 <= batch_size args <= INT_MAX ->
         exists batches,
           getBatches k n ds0 0 = Ok batches
           /\ getBatches k n (RmatDataset_reset ds) 0 = Ok batches).
Proof.
  intros Hnew Hreach.
  assert (E : RmatDataset_reset ds = ds0)
    by (eapply RmatDataset_reset_fresh; eauto).
  split; [exact E|]. split.
  - intros fuel n. now rewrite E.
  - intros k n Hprod Hbs. rewrite E.
    pose proof (RmatDataset_new_Ok _ _ Hnew) as Hds0.
    assert (Hcur : rm_current_batch ds0 = 0) by (rewrite Hds0; reflexivity).
    assert (Hargs : rm_args ds0 = args) by (rewrite Hds0; reflexivity).
    destruct (@getBatches_total G k n ds0 Hprod) as (batches & Hb);
      [now rewrite Hargs|].
    rewrite Hcur in Hb. eauto.
Qed.

Lemma RmatDataset_reset_replays_witness :
  RmatDataset_reset window0_dataset_1 = window0_dataset
  /\ (forall fuel n,
         getBatches fuel n (RmatDataset_reset window0_dataset_1) 0
         = getBatches fuel n window0_dataset 0)
  /\ (forall k n,
         productive alternating_generator k ->
         0 <= batch_size window0_args <= INT_MAX ->
         exists batches,
           getBatches k n window0_dataset 0 = Ok batches
           /\ getBatches k n (RmatDataset_reset window0_dataset_1) 0
              = Ok batches).
Proof.
  apply (@RmatDataset_reset_replays alternating_generator
           window0_args window0_rmat_args
           window0_dataset window0_dataset_1).
  - reflexivity.
  - apply reachable_step with (ds := window0_dataset).
    + apply reachable_refl.
    + apply step_getBatch
        with (fuel := 2%nat) (batchId := 0)
             (batch := [mkEdge 0 1 1 0; mkEdge 0 1 1 1]).
      reflexivity.
Defined.

Example getBatches_example :
  getBatches 2 2 window0_dataset 0
  = Ok [[mkEdge 0 1 1 0; mkEdge 0 1 1 1]; [mkEdge 0 1 1 2; mkEdge 0 1 1 3]].
Proof. reflexivity. Qed.

(* ================================================================== *)
(** * Binary edge files *)

Lemma fread_length count bytes :
  Z.of_nat (List.length (fread count bytes))
  = Z.min (Z.of_nat count) (Z.of_nat (List.length bytes) / sizeof_Edge).
Proof.
  unfold sizeof_Edge.
  revert bytes. induction count as [|count IH]; intros bytes.
  - simpl. pose proof (Z.div_pos (Z.of_nat (List.length bytes)) 32). lia.
  - cbn [fread]. unfold sizeof_Edge.
    destruct (Z.ltb_spec (Z.of_nat (List.length bytes)) 32) as [Hlt|Hge].
    + rewrite Z.div_small by lia. simpl. lia.
    + cbn [List.length]. rewrite Nat2Z.inj_succ, IH, length_skipn.
      replace (Z.of_nat (List.length bytes - 32))
        with (Z.of_nat (List.length bytes) + (-1) * 32) by lia.
      rewrite Z.div_add by lia. lia.
Qed.

Lemma fread_nth count bytes i :
  (i < List.length (fread count bytes))%nat ->
  nth_error (fread count bytes) i = Some (read_Edge (skipn (32 * i) bytes)).
Proof.
  revert bytes i. induction count as [|count IH]; intros bytes i.
  - simpl. lia.
  - cbn [fread].
    destruct (Z.of_nat (List.length bytes) <? sizeof_Edge); [simpl; lia|].
    destruct i as [|i].
    + intros _. reflexivity.
    + cbn [List.length nth_error]. intros Hi.
      rewrite IH by lia. rewrite skipn_skipn. do 3 f_equal. lia.
Qed.

(** C7, as the code has it.  A binary file that can be examined is
    loaded whatever its size: the number of edges is the size divided by
    32 and rounded down, edge [i] is decoded from the 32 bytes at offset
    [32 * i], and the bytes after the last complete record, fewer than
    32, are ignored; when the size is a multiple of 32, the number of
    edges is exactly the size over 32.  A file that cannot be examined
    is fatal. *)
Theorem loadEdgesBinary_rounds_down (path : string) (bytes : list Byte.byte) :
  (exists edges,
      loadEdgesBinary path (Some bytes) = Ok edges
      /\ Z.of_nat (List.length edges) = Z.of_nat (List.length bytes) / 32
      /\ 32 * Z.of_nat (List.length edges)
         = Z.of_nat (List.length bytes) - Z.of_nat (List.length bytes) mod 32
      /\ forall i, (i < List.length edges)%nat ->
                   nth_error edges i = Some (read_Edge (skipn (32 * i) bytes)))
  /\ fatal (loadEdgesBinary path None).
Proof.
  split.
  - unfold loadEdgesBinary.
    set (numEdges := Z.of_nat (List.length bytes) / sizeof_Edge).
    assert (Hn : 0 <= numEdges) by (apply Z.div_pos; unfold sizeof_Edge; lia).
    assert (Hlen : Z.of_nat (List.length (fread (Z.to_nat numEdges) bytes))
                   = numEdges).
    { rewrite fread_length, Z2Nat.id by assumption. fold numEdges. lia. }
    rewrite Hlen, Z.eqb_refl. cbn [negb].
    exists (fread (Z.to_nat numEdges) bytes).
    split; [reflexivity|]. split; [exact Hlen|]. split.
    + rewrite Hlen. unfold numEdges, sizeof_Edge.
      rewrite (Z.mod_eq (Z.of_nat (List.length bytes)) 32) by lia. lia.
    + intros i Hi. now apply fread_nth.
  - unfold fatal, loadEdgesBinary. eauto.
Qed.

Lemma loadEdgesBinary_rounds_down_witness :
  exists edges,
    loadEdgesBinary "example.graph.bin" (Some file_of_33_bytes) = Ok edges
    /\ Z.of_nat (List.length edges)
       = Z.of_nat (List.length file_of_33_bytes) / 32
    /\ 32 * Z.of_nat (List.length edges)
       = Z.of_nat (List.length file_of_33_bytes)
         - Z.of_nat (List.length file_of_33_bytes) mod 32
    /\ forall i, (i < List.length edges)%nat ->
                 nth_error edges i
                 = Some (read_Edge (skipn (32 * i) file_of_33_bytes)).
Proof.
  exact (proj1 (loadEdgesBinary_rounds_down
                  "example.graph.bin" file_of_33_bytes)).
Defined.

(** C7, as the design document words it, fails on a file of 33 bytes:
    its size is not a multiple of 32, and it is loaded as one edge. *)
Lemma loadEdgesBinary_accepts_33_bytes :
  Z.of_nat (List.length file_of_33_bytes) mod 32 <> 0
  /\ loadEdgesBinary "example.graph.bin" (Some file_of_33_bytes)
     = Ok [mkEdge 0 0 0 0]
  /\ ~ fatal (loadEdgesBinary "example.graph.bin" (Some file_of_33_bytes)).
Proof.
  split; [vm_compute; discriminate|].
  assert (E : loadEdgesBinary "example.graph.bin" (Some file_of_33_bytes)
              = Ok [mkEdge 0 0 0 0]) by (vm_compute; reflexivity).
  split; [exact E|].
  rewrite E. intros [log H]. discriminate H.
Qed.

(* ================================================================== *)
(** * Validation of the configuration *)

Lemma contains_prefix needle rest : contains needle (needle ++ rest) = true.
Proof.
  assert (H : String.prefix needle (needle ++ rest) = true).
  { induction needle as [|c needle IH]; simpl.
    - now destruct rest.
    - destruct (Ascii.ascii_dec c c); [exact IH | contradiction]. }
  destruct (needle ++ rest)%string; simpl in *; now rewrite H.
Qed.

Lemma contains_append needle before after :
  contains needle (before ++ needle ++ after) = true.
Proof.
  induction before as [|c before IH].
  - simpl. apply contains_prefix.
  - simpl. rewrite IH. apply orb_true_r.
Qed.

Ltac validation_cases args :=
  destruct (num_epochs args <? 1) eqn:Hepochs;
  destruct (String.eqb (input_path args) EmptyString) eqn:Hpath;
  destruct (batch_size args <? 1) eqn:Hbatch;
  destruct (Double.ltb (window_size args) Double.zero
            || Double.ltb Double.one (window_size args)) eqn:Hwindow;
  destruct (num_trials args <? 1) eqn:Htrials.

(** C8, as the code has it.  [Args::validate] returns the itemized list
    of all the constraints the configuration violates, one line each, in
    the order of the checks, and [Args::parse] logs it and exits when it
    is not empty.  [validate] of the C port stops at the first violated
    constraint: its diagnostic has the entry of that constraint and no
    other; the failure is fatal there too. *)
Theorem validation_diagnostics (argv0 : string) (args : Args) :
  let broken := filter (violated args) constraints in
  Args_validate args = itemize broken
  /\ lists_every_violation args (Args_validate args)
  /\ (broken <> [] ->
      Args_parse_validated argv0 args
      = Die ("Invalid arguments:" ++ nl ++ itemize broken
             ++ Args_print_help argv0)%string)
  /\ (broken = [] -> Args_parse_validated argv0 args = Ok args)
  /\ (forall c rest,
         broken = c :: rest ->
         validate args = (false, dynograph_message (tab ++ entry c))
         /\ dynograph_args_parse_validated argv0 args
            = Die (dynograph_message (tab ++ entry c)
                   ++ dynograph_message "Terminating due to invalid arguments"
                   ++ print_help argv0)%string)
  /\ (broken = [] ->
      validate args = (true, EmptyString)
      /\ dynograph_args_parse_validated argv0 args = Ok args).
Proof.
  cbv zeta.
  unfold lists_every_violation, Args_parse_validated,
    dynograph_args_parse_validated, Args_validate, validate, constraints.
  cbn [filter violated].
  validation_cases args; cbn [negb fst snd itemize map String.concat].
  all: split; [reflexivity|].
  all: split; [intros c; destruct c; cbn [violated]; intros Hc;
               try congruence; vm_compute; reflexivity|].
  all: split; [intros Hb; try (exfalso; apply Hb; reflexivity); reflexivity|].
  all: split; [intros Hb; try discriminate Hb; reflexivity|].
  all: split; [intros c rest Hb; try discriminate Hb;
               injection Hb as <- _; split; reflexivity|].
  all: intros Hb; try discriminate Hb; split; reflexivity.
Qed.

Lemma validation_diagnostics_witness :
  Args_validate two_violations = itemize [c_num_epochs; c_batch_size]
  /\ Args_parse_validated "dynograph" two_violations
     = Die ("Invalid arguments:" ++ nl
            ++ itemize [c_num_epochs; c_batch_size]
            ++ Args_print_help "dynograph")%string
  /\ validate two_violations
     = (false, dynograph_message (tab ++ entry c_num_epochs))
  /\ dynograph_args_parse_validated "dynograph" two_violations
     = Die (dynograph_message (tab ++ entry c_num_epochs)
            ++ dynograph_message "Terminating due to invalid arguments"
            ++ print_help "dynograph")%string.
Proof.
  pose proof (validation_diagnostics "dynograph" two_violations) as H.
  cbv zeta in H.
  destruct H as (Hitems & _ & Hdie & _ & Hfirst & _).
  split; [exact Hitems|]. split.
  - apply Hdie. discriminate.
  - apply (Hfirst c_num_epochs [c_batch_size]). reflexivity.
Defined.

(** C8, as the design document words it, fails on the C port: of the
    two constraints that this configuration violates, the diagnostic of
    [validate] has the entry of the first only. *)
Lemma validate_stops_at_first_violation :
  violated two_violations c_num_epochs = true
  /\ violated two_violations c_batch_size = true
  /\ validate two_violations
     = (false, dynograph_message (tab ++ "--num-epochs must be positive"))
  /\ contains (entry c_batch_size) (snd (validate two_violations)) = false
  /\ ~ lists_every_violation two_violations (snd (validate two_violations)).
Proof.
  split; [reflexivity|]. split; [reflexivity|]. split; [reflexivity|].
  assert (E : contains (entry c_batch_size) (snd (validate two_violations))
              = false) by (vm_compute; reflexivity).
  split; [exact E|].
  intros H. specialize (H c_batch_size Logic.eq_refl).
  rewrite E in H. discriminate H.
Qed.

(* ================================================================== *)
(** * The orders the code sorts by *)

Lemma Edge_eqb_eq a b : Edge_eqb a b = true <-> a = b.
Proof.
  unfold Edge_eqb. rewrite !andb_true_iff, !Z.eqb_eq. split.
  - intros [[[Hs Hd] Hw] Ht]. destruct a, b. simpl in *. congruence.
  - intros ->. repeat split.
Qed.

(** X1.  [operator<] on edges is a strict weak ordering, which is what
    [std::sort] asks of it; two edges are equivalent for it exactly when
    they agree on src, dst and timestamp, whatever their weights.
    [operator==] is the equality of the four fields, and equal edges
    are equivalent. *)
Theorem Edge_order_strict_weak :
  Std.strict_weak_order Edge_lt
  /\ (forall a b,
         Edge_lt a b = false /\ Edge_lt b a = false
         <-> src a = src b /\ dst a = dst b /\ timestamp a = timestamp b)
  /\ (forall a b, Edge_eqb a b = true <-> a = b)
  /\ (forall a b, Edge_eqb a b = true ->
                  Edge_lt a b = false /\ Edge_lt b a = false).
Proof.
  split; [exact Edge_lt_swo|]. split; [|split].
  - intros a b. rewrite !Edge_lt_false. lia.
  - exact Edge_eqb_eq.
  - intros a b H. apply Edge_eqb_eq in H. subst b.
    rewrite !Edge_lt_false. lia.
Qed.

Lemma vertex_degree_lt_true a b :
  vertex_degree_lt a b = true <->
  out_degree a < out_degree b
  \/ (out_degree a = out_degree b /\ vertex_id b < vertex_id a).
Proof. unfold vertex_degree_lt. cmp_cases; intuition lia. Qed.

Lemma vertex_degree_lt_false a b :
  vertex_degree_lt a b = false <->
  out_degree b < out_degree a
  \/ (out_degree a = out_degree b /\ vertex_id a <= vertex_id b).
Proof. unfold vertex_degree_lt. cmp_cases; intuition lia. Qed.

(** X2.  [operator<] on [vertex_degree] is a strict weak ordering, and
    a total one: of two different records one is less than the other.
    A vertex is less than every vertex of greater degree and, within a
    degree, than every vertex of smaller id. *)
Theorem vertex_degree_order_total :
  Std.strict_weak_order vertex_degree_lt
  /\ (forall a b,
         a <> b ->
         vertex_degree_lt a b = true \/ vertex_degree_lt b a = true)
  /\ (forall a b,
         vertex_degree_lt a b = true -> vertex_degree_lt b a = false)
  /\ (forall a b,
         vertex_degree_lt a b = true
         <-> out_degree a < out_degree b
             \/ (out_degree a = out_degree b /\ vertex_id b < vertex_id a)).
Proof.
  split; [|split; [|split]].
  - split.
    + intros x. apply vertex_degree_lt_false. lia.
    + intros x y z. rewrite !vertex_degree_lt_true. lia.
    + intros x y z. rewrite !vertex_degree_lt_false. lia.
  - intros [va da] [vb db] Hne. rewrite !vertex_degree_lt_true. simpl.
    destruct (Z.eq_dec va vb) as [->|]; [|lia].
    destruct (Z.eq_dec da db) as [->|]; [congruence | lia].
  - intros a b. rewrite vertex_degree_lt_true, vertex_degree_lt_false. lia.
  - intros a b. rewrite vertex_degree_lt_true. lia.
Qed.

Lemma vertex_degree_order_total_witness :
  vertex_degree_lt (mk_vertex_degree 7 3) (mk_vertex_degree 4 3) = true
  \/ vertex_degree_lt (mk_vertex_degree 4 3) (mk_vertex_degree 7 3) = true.
Proof.
  apply (proj1 (proj2 vertex_degree_order_total)).
  discriminate.
Defined.

(* ================================================================== *)
(** * The shape of a deduplicated batch *)

Lemma key_lt_irrefl a : ~ key_lt a a.
Proof. unfold key_lt. lia. Qed.

Lemma key_lt_trans a b c : key_lt a b -> key_lt b c -> key_lt a c.
Proof. unfold key_lt. lia. Qed.

Lemma key_lt_not_same a b : key_lt a b -> same_src_dst a b = false.
Proof.
  unfold key_lt, same_src_dst. intros H.
  apply andb_false_iff.
  destruct (Z.eqb_spec (src a) (src b)); [right | now left].
  apply Z.eqb_neq. lia.
Qed.

Lemma key_lt_sorted a b : key_lt a b -> Edge_lt b a = false.
Proof. unfold key_lt. rewrite Edge_lt_false. lia. Qed.

Lemma sorted_not_same_key_lt a b :
  Edge_lt b a = false -> same_src_dst a b = false -> key_lt a b.
Proof.
  rewrite Edge_lt_false. unfold same_src_dst, key_lt. intros H Hs.
  apply andb_false_iff in Hs. rewrite !Z.eqb_neq in Hs. lia.
Qed.

Lemma unique_copy_from_key_sorted value l :
  Std.sorted_by Edge_lt (value :: l) ->
  StronglySorted key_lt (Std.unique_copy_from same_src_dst value l)
  /\ Forall (key_lt value) (Std.unique_copy_from same_src_dst value l).
Proof.
  revert value. induction l as [|y l IH]; intros value Hs.
  - simpl. split; constructor.
  - simpl. destruct (same_src_dst value y) eqn:Hvy.
    + apply IH. exact (StronglySorted_tail2 Hs).
    + inversion Hs as [|? ? Hs' Hf]; subst.
      destruct (IH y Hs') as [Hsorted Hall].
      assert (Hy : key_lt value y).
      { apply sorted_not_same_key_lt; [|assumption].
        rewrite Forall_forall in Hf. apply Hf. now left. }
      split.
      * now constructor.
      * constructor; [assumption|].
        eapply Forall_impl; [|exact Hall].
        intros x Hx. eapply key_lt_trans; eauto.
Qed.

Lemma unique_copy_key_sorted l :
  Std.sorted_by Edge_lt l ->
  StronglySorted key_lt (Std.unique_copy same_src_dst l).
Proof.
  destruct l as [|x l]; intros Hs; [constructor|].
  simpl. destruct (unique_copy_from_key_sorted Hs). now constructor.
Qed.

Lemma unique_copy_from_length {A : Type} (eq : A -> A -> bool) value l :
  (List.length (Std.unique_copy_from eq value l) <= List.length l)%nat.
Proof.
  revert value. induction l as [|y l IH]; intros value; simpl; [lia|].
  destruct (eq value y); simpl.
  - specialize (IH value). lia.
  - specialize (IH y). lia.
Qed.

Lemma key_sorted_NoDup l :
  StronglySorted key_lt l -> NoDup (map endpoints l).
Proof.
  induction 1 as [|x l Hs IH Hf]; simpl; constructor; [|assumption].
  intros Hin. apply in_map_iff in Hin. destruct Hin as (y & Hy & Hin).
  rewrite Forall_forall in Hf. specialize (Hf y Hin).
  unfold endpoints in Hy. injection Hy as Hs1 Hd1.
  unfold key_lt in Hf. lia.
Qed.

Lemma key_sorted_sorted l :
  StronglySorted key_lt l -> Std.sorted_by Edge_lt l.
Proof.
  unfold Std.sorted_by.
  induction 1 as [|x l Hs IH Hf]; constructor; [assumption|].
  eapply Forall_impl; [|exact Hf]. intros y. apply key_lt_sorted.
Qed.

Lemma sorted_NoDup_key_sorted l :
  Std.sorted_by Edge_lt l -> NoDup (map endpoints l) ->
  StronglySorted key_lt l.
Proof.
  unfold Std.sorted_by.
  induction 1 as [|x l Hs IH Hf]; intros Hnd; [constructor|].
  simpl in Hnd. inversion Hnd as [|? ? Hnotin Hnd']; subst.
  constructor; [now apply IH|].
  rewrite Forall_forall in *. intros y Hy.
  apply sorted_not_same_key_lt; [now apply Hf|].
  unfold same_src_dst. apply andb_false_iff.
  destruct (Z.eqb_spec (src x) (src y)) as [Es|]; [right | now left].
  apply Z.eqb_neq. intros Ed. apply Hnotin.
  apply in_map_iff. exists y. split; [|assumption].
  unfold endpoints. congruence.
Qed.

(** Two sequences in strict order that hold the same elements are the
    same sequence. *)
Lemma StronglySorted_Permutation_eq {A : Type} (R : A -> A -> Prop) :
  (forall x, ~ R x x) ->
  (forall x y z, R x y -> R y z -> R x z) ->
  forall l l',
    StronglySorted R l -> StronglySorted R l' -> Permutation l l' -> l = l'.
Proof.
  intros Hirr Htrans l.
  induction l as [|x t IH]; intros l' Hl Hl' Hperm.
  - apply Permutation_nil in Hperm. now subst.
  - destruct l' as [|x' t'].
    { apply Permutation_sym, Permutation_nil in Hperm. discriminate. }
    inversion Hl as [|? ? Ht Hf]; subst.
    inversion Hl' as [|? ? Ht' Hf']; subst.
    rewrite Forall_forall in Hf, Hf'.
    assert (E : x = x').
    { assert (H1 : In x (x' :: t'))
        by (eapply Permutation_in; [exact Hperm | now left]).
      assert (H2 : In x' (x :: t))
        by (eapply Permutation_in;
            [apply Permutation_sym; exact Hperm | now left]).
      destruct H1 as [H1|H1]; [now symmetry|].
      destruct H2 as [H2|H2]; [assumption|].
      exfalso. apply (Hirr x). eapply Htrans; [apply Hf | apply Hf']; eauto. }
    subst x'. f_equal. apply IH; try assumption.
    eapply Permutation_cons_inv; eauto.
Qed.

Lemma unique_copy_from_key_sorted_id value l :
  Forall (key_lt value) l -> StronglySorted key_lt l ->
  Std.unique_copy_from same_src_dst value l = l.
Proof.
  revert value. induction l as [|y l IH]; intros value Hall Hs;
    [reflexivity|].
  simpl. inversion Hall; subst. inversion Hs; subst.
  rewrite key_lt_not_same by assumption. f_equal. now apply IH.
Qed.

Lemma unique_copy_key_sorted_id l :
  StronglySorted key_lt l -> Std.unique_copy same_src_dst l = l.
Proof.
  destruct l as [|x l]; intros Hs; [reflexivity|].
  simpl. inversion Hs; subst. f_equal.
  now apply unique_copy_from_key_sorted_id.
Qed.

Section DedupShape.
Variable S : Std.Sort.

Lemma DeduplicatedBatch_key_sorted batch :
  StronglySorted key_lt (DeduplicatedBatch S batch).
Proof.
  unfold DeduplicatedBatch. apply unique_copy_key_sorted.
  apply (Std.sort_sorted S). exact Edge_lt_swo.
Qed.

(** A batch without two edges of one (src,dst) pair is sorted by the
    deduplication, and nothing else. *)
Lemma DeduplicatedBatch_NoDup_sort batch :
  NoDup (map endpoints batch) ->
  DeduplicatedBatch S batch = Std.sort S Edge_lt batch.
Proof.
  intros Hnd. unfold DeduplicatedBatch.
  apply unique_copy_key_sorted_id.
  apply sorted_NoDup_key_sorted.
  - apply (Std.sort_sorted S). exact Edge_lt_swo.
  - eapply Permutation_NoDup; [|exact Hnd].
    apply Permutation_map. apply (Std.sort_perm S). exact Edge_lt_swo.
Qed.

Lemma DeduplicatedBatch_key_sorted_id batch :
  StronglySorted key_lt batch -> DeduplicatedBatch S batch = batch.
Proof.
  intros Hs.
  rewrite DeduplicatedBatch_NoDup_sort by now apply key_sorted_NoDup.
  symmetry.
  apply (StronglySorted_Permutation_eq key_lt_irrefl key_lt_trans);
    [assumption | |].
  - apply sorted_NoDup_key_sorted.
    + apply (Std.sort_sorted S). exact Edge_lt_swo.
    + eapply Permutation_NoDup;
        [apply Permutation_map, (Std.sort_perm S); exact Edge_lt_swo|].
      now apply key_sorted_NoDup.
  - apply (Std.sort_perm S). exact Edge_lt_swo.
Qed.
End DedupShape.

(** X3.  The edges of a deduplicated view are in strictly increasing
    order of (src,dst): the view is sorted for [operator<], no two of
    its edges have the same (src,dst) pair, and it has no more edges
    than the batch it was made from. *)
Theorem DeduplicatedBatch_strictly_sorted (S : Std.Sort) (batch : list Edge) :
  StronglySorted key_lt (DeduplicatedBatch S batch)
  /\ Std.sorted_by Edge_lt (DeduplicatedBatch S batch)
  /\ NoDup (map endpoints (DeduplicatedBatch S batch))
  /\ (List.length (DeduplicatedBatch S batch) <= List.length batch)%nat.
Proof.
  pose proof (DeduplicatedBatch_key_sorted S batch) as Hs.
  split; [exact Hs|]. split; [now apply key_sorted_sorted|].
  split; [now apply key_sorted_NoDup|].
  unfold DeduplicatedBatch.
  rewrite (Permutation_length (Std.sort_perm S batch Edge_lt_swo)).
  destruct (Std.sort S Edge_lt batch) as [|x l]; simpl; [lia|].
  pose proof (unique_copy_from_length same_src_dst x l). lia.
Qed.

(** X4.  Deduplicating a deduplicated view changes nothing. *)
Theorem DeduplicatedBatch_idempotent (S : Std.Sort) (batch : list Edge) :
  DeduplicatedBatch S (DeduplicatedBatch S batch) = DeduplicatedBatch S batch.
Proof.
  apply DeduplicatedBatch_key_sorted_id, DeduplicatedBatch_key_sorted.
Qed.

(** X5.  A batch in which no two edges have the same (src,dst) pair
    loses no edge to the deduplication: the view holds the edges of the
    batch, each once, in the order of [operator<]. *)
Theorem DeduplicatedBatch_without_duplicates
        (S : Std.Sort) (batch : list Edge) :
  NoDup (map endpoints batch) ->
  Permutation batch (DeduplicatedBatch S batch)
  /\ List.length (DeduplicatedBatch S batch) = List.length batch
  /\ DeduplicatedBatch S batch = Std.sort S Edge_lt batch.
Proof.
  intros Hnd.
  rewrite (DeduplicatedBatch_NoDup_sort S batch Hnd).
  pose proof (Std.sort_perm S batch Edge_lt_swo) as Hperm.
  split; [exact Hperm|]. split; [|reflexivity].
  symmetry. now apply Permutation_length.
Qed.

Lemma DeduplicatedBatch_without_duplicates_witness :
  Permutation [mkEdge 2 3 1 3; mkEdge 1 2 5 2]
              (DeduplicatedBatch insertion_Sort
                                 [mkEdge 2 3 1 3; mkEdge 1 2 5 2])
  /\ List.length (DeduplicatedBatch insertion_Sort
                                    [mkEdge 2 3 1 3; mkEdge 1 2 5 2])
     = List.length [mkEdge 2 3 1 3; mkEdge 1 2 5 2]
  /\ DeduplicatedBatch insertion_Sort [mkEdge 2 3 1 3; mkEdge 1 2 5 2]
     = Std.sort insertion_Sort Edge_lt [mkEdge 2 3 1 3; mkEdge 1 2 5 2].
Proof.
  apply (DeduplicatedBatch_without_duplicates insertion_Sort).
  simpl. constructor.
  - simpl. intros [H|[]]. discriminate H.
  - constructor; [intros [] | constructor].
Defined.

(* ================================================================== *)
(** * Filtered batches *)

Lemma FilteredBatch_nondecreasing batch threshold :
  nondecreasing_timestamps batch ->
  FilteredBatch batch threshold
  = filter (fun e => timestamp e >=? threshold) batch.
Proof.
  unfold FilteredBatch, nondecreasing_timestamps.
  induction 1 as [|x l Hs IH Hf]; [reflexivity|].
  simpl. destruct (Z.geb_spec (timestamp x) threshold) as [Hx|Hx].
  - simpl. f_equal. symmetry. apply filter_all.
    rewrite Forall_forall in Hf. intros y Hy. specialize (Hf y Hy).
    apply Z.geb_le. lia.
  - simpl. exact IH.
Qed.

Lemma FilteredBatch_split batch threshold :
  exists old,
    batch = old ++ FilteredBatch batch threshold
    /\ Forall (fun e => timestamp e < threshold) old
    /\ match FilteredBatch batch threshold with
       | [] => True
       | e :: _ => threshold <= timestamp e
       end.
Proof.
  unfold FilteredBatch.
  induction batch as [|x l IH].
  - exists []. simpl. repeat split. constructor.
  - simpl. destruct (Z.geb_spec (timestamp x) threshold) as [Hx|Hx].
    + exists []. simpl. repeat split; [constructor | lia].
    + destruct IH as (old & Hl & Hold & Hhead).
      exists (x :: old). simpl. split; [now f_equal|].
      split; [constructor; [lia | assumption] | assumption].
Qed.

(** X6.  A filtered view is the batch without its longest run of
    leading edges older than the threshold: the edges it drops are all
    older, and the edge it starts at is not.  On a batch in order of
    timestamp it holds exactly the edges that are not older than the
    threshold. *)
Theorem FilteredBatch_cut (batch : list Edge) (threshold : Z) :
  (exists old,
      batch = old ++ FilteredBatch batch threshold
      /\ Forall (fun e => timestamp e < threshold) old
      /\ match FilteredBatch batch threshold with
         | [] => True
         | e :: _ => threshold <= timestamp e
         end)
  /\ (nondecreasing_timestamps batch ->
      FilteredBatch batch threshold
      = filter (fun e => timestamp e >=? threshold) batch
      /\ forall e, In e (FilteredBatch batch threshold)
                   <-> In e batch /\ threshold <= timestamp e).
Proof.
  split; [apply FilteredBatch_split|].
  intros Hs. rewrite (FilteredBatch_nondecreasing threshold Hs).
  split; [reflexivity|].
  intros e. rewrite filter_In, Z.geb_le. tauto.
Qed.

Lemma FilteredBatch_cut_witness :
  FilteredBatch example_edges 2
  = filter (fun e => timestamp e >=? 2) example_edges
  /\ forall e, In e (FilteredBatch example_edges 2)
               <-> In e example_edges /\ 2 <= timestamp e.
Proof.
  apply (proj2 (FilteredBatch_cut example_edges 2)).
  apply is_sorted_timestamps. reflexivity.
Defined.

(* ================================================================== *)
(** * Ranges of a sequence in order *)

Lemma StronglySorted_skipn {A : Type} (R : A -> A -> Prop) n l :
  StronglySorted R l -> StronglySorted R (skipn n l).
Proof.
  revert l. induction n as [|n IH]; intros l Hs; [assumption|].
  destruct l as [|x l]; [constructor|].
  simpl. apply IH. now inversion Hs.
Qed.

Lemma StronglySorted_firstn {A : Type} (R : A -> A -> Prop) n l :
  StronglySorted R l -> StronglySorted R (firstn n l).
Proof.
  revert l. induction n as [|n IH]; intros l Hs; [constructor|].
  destruct l as [|x l]; [constructor|].
  simpl. inversion Hs as [|? ? Hl Hf]; subst.
  constructor; [now apply IH|].
  rewrite Forall_forall in *. intros y Hy. apply Hf.
  eapply (In_nth_error) in Hy. destruct Hy as [k Hk].
  rewrite nth_error_firstn in Hk.
  destruct (Nat.ltb k n); [|discriminate].
  eapply nth_error_In; eauto.
Qed.

Lemma StronglySorted_last {A : Type} (R : A -> A -> Prop) l d x :
  StronglySorted R l -> In x l -> x = last l d \/ R x (last l d).
Proof.
  induction 1 as [|y l Hs IH Hf]; intros Hin; [destruct Hin|].
  destruct l as [|z l'].
  - destruct Hin as [<-|[]]. now left.
  - change (last (y :: z :: l') d) with (last (z :: l') d).
    destruct Hin as [<-|Hin].
    + right. rewrite Forall_forall in Hf. apply Hf.
      destruct (exists_last (l := z :: l')) as (l0 & a & E); [discriminate|].
      rewrite E, last_last. apply in_or_app. right. now left.
    + now apply IH.
Qed.

Lemma firstn_add_skipn {A : Type} a b (l : list A) :
  firstn (a + b) l = firstn a l ++ firstn b (skipn a l).
Proof.
  revert l. induction a as [|a IH]; intros l; [reflexivity|].
  destruct l as [|x l]; simpl.
  - now rewrite firstn_nil.
  - f_equal. apply IH.
Qed.

(* ================================================================== *)
(** * What a dataset built from loaded edges holds *)

Lemma max_element_from_spec {A : Type} (f : A -> Z) largest l :
  let m := Std.max_element_from (fun a b => f a <? f b) largest l in
  In m (largest :: l) /\ f largest <= f m /\ Forall (fun x => f x <= f m) l.
Proof.
  revert largest. induction l as [|x l IH]; intros largest; simpl.
  - split; [now left|]. split; [lia | constructor].
  - destruct (IH (if f largest <? f x then x else largest))
      as (Hin & Hle & Hall).
    set (m := Std.max_element_from _ _ l) in *.
    destruct (Z.ltb_spec (f largest) (f x)) as [Hlt|Hge].
    + split; [destruct Hin as [<-|Hin]; auto|].
      split; [lia|]. constructor; assumption.
    + split; [destruct Hin as [<-|Hin]; auto|].
      split; [lia|]. constructor; [lia | assumption].
Qed.

Lemma EdgeListDataset_init_max_vertex_id args edges ds :
  EdgeListDataset_init args edges = Ok ds ->
  exists front rest,
    edges = front :: rest
    /\ el_max_vertex_id ds
       = (let m := Std.max_element_from
                     (fun a b => Z.max (src a) (dst a) <? Z.max (src b) (dst b))
                     front rest in
          Z.max (src m) (dst m)).
Proof.
  unfold EdgeListDataset_init.
  destruct (batch_size args =? 0); [discriminate|].
  destruct (_ >? _); [discriminate|].
  destruct (_ >? _); [discriminate|].
  destruct edges as [|front rest]; [discriminate|].
  cbn [Std.max_element].
  destruct (rev (front :: rest)) as [|back rest']; [discriminate|].
  destruct (negb (Std.is_sorted _ _)); [discriminate|].
  destruct (negb (Nat.eqb _ _)); [discriminate|].
  destruct (_ >? INT_MAX); [discriminate|].
  intros H. injection H as <-. simpl. eauto.
Qed.

(** X7.  In a dataset built from loaded edges, [max_vertex_id] is the
    greatest vertex id of the edges: no source or destination exceeds
    it and some edge has it as an endpoint; [min_timestamp] and
    [max_timestamp] are timestamps of edges, and the timestamp of every
    edge lies between them. *)
Theorem EdgeListDataset_bounds
        (args : Args) (edges : list Edge) (ds : EdgeListDataset) :
  EdgeListDataset_init args edges = Ok ds ->
  (forall e, In e edges ->
             src e <= el_max_vertex_id ds /\ dst e <= el_max_vertex_id ds
             /\ el_min_timestamp ds <= timestamp e <= el_max_timestamp ds)
  /\ (exists e, In e edges
                /\ (src e = el_max_vertex_id ds \/ dst e = el_max_vertex_id ds))
  /\ (exists e, In e edges /\ timestamp e = el_min_timestamp ds)
  /\ (exists e, In e edges /\ timestamp e = el_max_timestamp ds).
Proof.
  intros Hok.
  destruct (EdgeListDataset_init_Ok _ _ Hok)
    as (_ & _ & _ & Hsorted & _ & _ & _ & Hmin & Hmax & _).
  destruct (EdgeListDataset_init_max_vertex_id _ _ Hok)
    as (front & rest & Hedges & Hmaxv).
  pose proof (max_element_from_spec
                (fun e => Z.max (src e) (dst e)) front rest) as Hspec.
  cbv zeta in Hspec, Hmaxv.
  set (m := Std.max_element_from _ front rest) in *.
  destruct Hspec as (Hin & Hfront & Hall).
  rewrite Forall_forall in Hall.
  rewrite Hmin, Hmax, Hmaxv.
  assert (Hlast : In (last edges (mkEdge 0 0 0 0)) edges).
  { rewrite Hedges.
    destruct (exists_last (l := front :: rest)) as (l0 & a & E);
      [discriminate|].
    rewrite E, last_last. apply in_or_app. right. now left. }
  split; [|split; [|split]].
  - intros e He.
    assert (Hv : Z.max (src e) (dst e) <= Z.max (src m) (dst m)).
    { rewrite Hedges in He. destruct He as [<-|He]; [lia | now apply Hall]. }
    split; [lia|]. split; [lia|]. split.
    + unfold nondecreasing_timestamps in Hsorted.
      rewrite Hedges in He |- *. simpl.
      destruct He as [<-|He]; [lia|].
      rewrite Hedges in Hsorted.
      inversion Hsorted as [|? ? _ Hf]; subst.
      rewrite Forall_forall in Hf. now apply Hf.
    + destruct (@StronglySorted_last Edge _ edges (mkEdge 0 0 0 0) e Hsorted He)
        as [->|H];
        [lia | exact H].
  - exists m. split; [now rewrite Hedges | lia].
  - exists front. rewrite Hedges. split; [now left | reflexivity].
  - exists (last edges (mkEdge 0 0 0 0)). now split.
Qed.

Lemma EdgeListDataset_bounds_witness :
  (forall e, In e example_edges ->
             src e <= el_max_vertex_id example_dataset
             /\ dst e <= el_max_vertex_id example_dataset
             /\ el_min_timestamp example_dataset <= timestamp e
                <= el_max_timestamp example_dataset)
  /\ (exists e, In e example_edges
                /\ (src e = el_max_vertex_id example_dataset
                    \/ dst e = el_max_vertex_id example_dataset))
  /\ (exists e, In e example_edges
                /\ timestamp e = el_min_timestamp example_dataset)
  /\ (exists e, In e example_edges
                /\ timestamp e = el_max_timestamp example_dataset).
Proof.
  apply (@EdgeListDataset_bounds example_args example_edges example_dataset).
  reflexivity.
Defined.



(** X9.  A configuration that [Args::parse] lets through has a positive
    number of epochs, batch size and number of trials and a path that
    is not empty; the C port lets through the same configurations.  On
    such a configuration the constructor never divides by zero: with
    any edge list of no more than [INT_MAX] batches it gives a dataset
    or logs a message and exits. *)
Theorem validated_configuration (argv0 : string) (args args' : Args) :
  Args_parse_validated argv0 args = Ok args' ->
  args' = args
  /\ 1 <= num_epochs args /\ 1 <= batch_size args /\ 1 <= num_trials args
  /\ input_path args <> EmptyString
  /\ dynograph_args_parse_validated argv0 args = Ok args
  /\ forall edges,
      Z.of_nat (List.length edges) / batch_size args <= INT_MAX ->
      (exists ds, EdgeListDataset_init args edges = Ok ds)
      \/ fatal (EdgeListDataset_init args edges).
Proof.
  unfold Args_parse_validated, dynograph_args_parse_validated,
    Args_validate, validate.
  validation_cases args; intros H; cbn in H; try discriminate H.
  injection H as <-.
  apply Z.ltb_ge in Hepochs, Hbatch, Htrials.
  apply String.eqb_neq in Hpath.
  cbn [negb].
  split; [reflexivity|].
  split; [lia|]. split; [lia|]. split; [lia|].
  split; [assumption|]. split; [reflexivity|].
  intros edges Hint.
  unfold fatal, EdgeListDataset_init.
  destruct (Z.eqb_spec (batch_size args) 0); [lia|].
  rewrite to_size_t_pos by lia.
  destruct (Z.gtb_spec (batch_size args) (Z.of_nat (List.length edges)))
    as [|Hsz]; [eauto|].
  destruct (num_epochs args >? _); [eauto|].
  destruct edges as [|front rest]; [simpl in Hsz; lia|].
  cbn [Std.max_element].
  destruct (rev (front :: rest)) as [|back rest'] eqn:Hrev.
  { apply (f_equal (@List.length Edge)) in Hrev.
    rewrite length_rev in Hrev. discriminate. }
  destruct (negb (Std.is_sorted _ _)); [eauto|].
  destruct (negb (Nat.eqb _ _)); [eauto|].
  destruct (Z.gtb_spec (Z.of_nat (List.length (front :: rest))
                        / batch_size args) INT_MAX); [lia|].
  eauto.
Qed.

Lemma validated_configuration_witness :
  example_args = example_args
  /\ 1 <= num_epochs example_args /\ 1 <= batch_size example_args
  /\ 1 <= num_trials example_args
  /\ input_path example_args <> EmptyString
  /\ dynograph_args_parse_validated "dynograph" example_args = Ok example_args
  /\ forall edges,
      Z.of_nat (List.length edges) / batch_size example_args <= INT_MAX ->
      (exists ds, EdgeListDataset_init example_args edges = Ok ds)
      \/ fatal (EdgeListDataset_init example_args edges).
Proof.
  apply (@validated_configuration "dynograph" example_args example_args).
  reflexivity.
Defined.

(* ================================================================== *)
(** * Batches as the sort mode asks for them *)

Lemma Batch_edges_from_start edges e :
  Batch_edges edges (mkBatch 0 e) = firstn (Z.to_nat e) edges.
Proof.
  unfold Batch_edges. cbn [begin_iter end_iter].
  rewrite Z.sub_0_r. reflexivity.
Qed.

Section SortModeFacts.
Variable S : Std.Sort.

(** Filtering and deduplicating a range in order of timestamp. *)
Lemma filter_dedup_range range threshold :
  nondecreasing_timestamps range ->
  let batch := DeduplicatedBatch S (FilteredBatch range threshold) in
  (forall e, In e batch -> In e range /\ threshold <= timestamp e)
  /\ (forall e0, In e0 range -> threshold <= timestamp e0 ->
                 exists e, In e batch /\ src e = src e0 /\ dst e = dst e0
                           /\ timestamp e0 <= timestamp e)
  /\ StronglySorted key_lt batch.
Proof.
  intros Hs batch. unfold batch.
  rewrite (FilteredBatch_nondecreasing threshold Hs).
  split; [|split].
  - intros e He. apply DeduplicatedBatch_incl in He.
    apply filter_In in He. now rewrite Z.geb_le in He.
  - intros e0 Hin Hth.
    destruct (@DeduplicatedBatch_key
                S (filter (fun e => timestamp e >=? threshold) range)
                (src e0) (dst e0) e0)
      as (e & Hf & _ & Hsrc & Hdst & Hmax);
      [apply filter_In; split; [assumption | now apply Z.geb_le]
      | reflexivity | reflexivity |].
    exists e. split; [|split; [assumption | split; [assumption|]]].
    + assert (H : In e (filter (has_key (src e0) (dst e0))
                               (DeduplicatedBatch
                                  S (filter (fun e => timestamp e >=? threshold)
                                            range))))
        by (rewrite Hf; now left).
      now apply filter_In in H.
    + apply Hmax; [|reflexivity | reflexivity].
      apply filter_In. split; [assumption | now apply Z.geb_le].
  - apply DeduplicatedBatch_key_sorted.
Qed.
End SortModeFacts.

(** X10.  [Dataset::getBatch] on a dataset built from loaded edges, for
    the id of one of its batches.  The edges looked at are those of the
    batch, and in SNAPSHOT mode all the edges up to the end of the
    batch.  Every edge returned is one of them and is not older than
    the threshold of the window; in UNSORTED mode the edges returned
    are exactly those; in PRESORT and SNAPSHOT mode the edges returned
    are in strictly increasing order of (src,dst), and every (src,dst)
    pair that has an edge not older than the threshold is returned with
    the newest of its timestamps. *)
Theorem Dataset_getBatch_modes
        (S : Std.Sort) (args : Args) (edges : list Edge)
        (ds : EdgeListDataset) (batchId : Z) :
  1 <= batch_size args ->
  EdgeListDataset_init args edges = Ok ds ->
  0 <= batchId < EdgeListDataset_getNumBatches ds ->
  let bs := batch_size args in
  let range :=
    match sort_mode args with
    | SNAPSHOT => firstn (Z.to_nat ((batchId + 1) * bs)) edges
    | _ => firstn (Z.to_nat bs) (skipn (Z.to_nat (batchId * bs)) edges)
    end in
  exists threshold batch,
    EdgeListDataset_getTimestampForWindow ds batchId = Ok threshold
    /\ Dataset_getBatch S ds batchId = Ok batch
    /\ (forall e, In e batch -> In e range /\ threshold <= timestamp e)
    /\ (forall e0, In e0 range -> threshold <= timestamp e0 ->
                   exists e, In e batch /\ src e = src e0 /\ dst e = dst e0
                             /\ timestamp e0 <= timestamp e)
    /\ (sort_mode args = UNSORTED ->
        batch = filter (fun e => timestamp e >=? threshold) range)
    /\ (sort_mode args <> UNSORTED -> StronglySorted key_lt batch).
Proof.
  intros Hbs Hok Hid. cbv zeta.
  destruct (@EdgeListDataset_getTimestampForWindow_threshold
              args edges ds batchId Hbs Hok Hid)
    as (b0 & last_edge & _ & _ & _ & Hth).
  pose proof (EdgeListDataset_init_Ok _ _ Hok)
    as (_ & _ & _ & Hsorted & _ & Hargs & Hedges & _).
  assert (Hid' : 0 <= batchId
                 < Z.of_nat (List.length edges) / batch_size args).
  { unfold EdgeListDataset_getNumBatches in Hid.
    now rewrite (@el_batches_length args edges ds Hbs Hok) in Hid. }
  destruct (@EdgeListDataset_getBatch_range args edges ds Hbs Hok batchId Hid')
    as (Hget & Hrange & _).
  remember (window_threshold
              (window_size args)
              (timestamp (hd (mkEdge 0 0 0 0) edges))
              (timestamp (last edges (mkEdge 0 0 0 0)))
              (timestamp last_edge)) as threshold eqn:Ethreshold.
  clear Ethreshold.
  assert (Hmodes :
            Dataset_getBatch S ds batchId
            = match sort_mode args with
              | UNSORTED =>
                  Ok (FilteredBatch
                        (firstn (Z.to_nat (batch_size args))
                                (skipn (Z.to_nat (batchId * batch_size args))
                                       edges))
                        threshold)
              | PRESORT =>
                  Ok (DeduplicatedBatch S
                        (FilteredBatch
                           (firstn (Z.to_nat (batch_size args))
                                   (skipn (Z.to_nat (batchId * batch_size args))
                                          edges))
                           threshold))
              | SNAPSHOT =>
                  Ok (DeduplicatedBatch S
                        (FilteredBatch
                           (firstn (Z.to_nat ((batchId + 1) * batch_size args))
                                   edges)
                           threshold))
              end).
  { unfold Dataset_getBatch. rewrite Hth, Hget. cbn [bind].
    rewrite Hargs, Hedges, Hrange.
    cbn [end_iter]. rewrite Batch_edges_from_start. reflexivity. }
  rewrite Hmodes. clear Hmodes.
  destruct (sort_mode args) eqn:Hmode;
    exists threshold; eexists; (split; [exact Hth|]).
  - split; [reflexivity|].
    assert (Hr : nondecreasing_timestamps
                   (firstn (Z.to_nat (batch_size args))
                           (skipn (Z.to_nat (batchId * batch_size args)) edges)))
      by (apply StronglySorted_firstn, StronglySorted_skipn; exact Hsorted).
    rewrite (FilteredBatch_nondecreasing threshold Hr).
    split; [|split; [|split]].
    + intros e He. apply filter_In in He. now rewrite Z.geb_le in He.
    + intros e0 Hin Hge. exists e0.
      split; [apply filter_In; split; [assumption | now apply Z.geb_le]|].
      split; [reflexivity|]. split; [reflexivity | lia].
    + reflexivity.
    + intros H. now contradiction H.
  - split; [reflexivity|].
    assert (Hr : nondecreasing_timestamps
                   (firstn (Z.to_nat (batch_size args))
                           (skipn (Z.to_nat (batchId * batch_size args)) edges)))
      by (apply StronglySorted_firstn, StronglySorted_skipn; exact Hsorted).
    destruct (filter_dedup_range S threshold Hr) as (Hsound & Hcomplete & Hkey).
    split; [exact Hsound|]. split; [exact Hcomplete|].
    split; [discriminate | intros _; exact Hkey].
  - split; [reflexivity|].
    assert (Hr : nondecreasing_timestamps
                   (firstn (Z.to_nat ((batchId + 1) * batch_size args)) edges))
      by (apply StronglySorted_firstn; exact Hsorted).
    destruct (filter_dedup_range S threshold Hr) as (Hsound & Hcomplete & Hkey).
    split; [exact Hsound|]. split; [exact Hcomplete|].
    split; [discriminate | intros _; exact Hkey].
Qed.

Lemma Dataset_getBatch_modes_witness :
  exists threshold batch,
    EdgeListDataset_getTimestampForWindow example_dataset 1 = Ok threshold
    /\ Dataset_getBatch insertion_Sort example_dataset 1 = Ok batch
    /\ (forall e, In e batch ->
                  In e (firstn (Z.to_nat 2) (skipn (Z.to_nat (1 * 2)) example_edges))
                  /\ threshold <= timestamp e)
    /\ (forall e0,
           In e0 (firstn (Z.to_nat 2) (skipn (Z.to_nat (1 * 2)) example_edges)) ->
           threshold <= timestamp e0 ->
           exists e, In e batch /\ src e = src e0 /\ dst e = dst e0
                     /\ timestamp e0 <= timestamp e)
    /\ (PRESORT = UNSORTED ->
        batch = filter (fun e => timestamp e >=? threshold)
                       (firstn (Z.to_nat 2)
                               (skipn (Z.to_nat (1 * 2)) example_edges)))
    /\ (PRESORT <> UNSORTED -> StronglySorted key_lt batch).
Proof.
  apply (@Dataset_getBatch_modes insertion_Sort example_args example_edges
                                 example_dataset 1).
  - simpl. lia.
  - reflexivity.
  - vm_compute. split; [discriminate | reflexivity].
Defined.

(* ================================================================== *)
(** * The batches up to a batch *)

Lemma firstn_seq_min n start m :
  firstn n (seq start m) = seq start (Nat.min n m).
Proof.
  revert start m. induction n as [|n IH]; intros start m; [reflexivity|].
  destruct m as [|m]; [reflexivity|].
  simpl. f_equal. apply IH.
Qed.

Lemma concat_batches_firstn (edges : list Edge) (bs : nat) (m : nat) :
  List.concat (map (fun k => firstn bs (skipn (k * bs) edges)) (seq 0 m))
  = firstn (m * bs) edges.
Proof.
  induction m as [|m IH]; [reflexivity|].
  rewrite seq_S, map_app, concat_app, IH. simpl.
  rewrite app_nil_r.
  replace (bs + m * bs)%nat with (m * bs + bs)%nat by lia.
  now rewrite firstn_add_skipn.
Qed.

(** X11.  [EdgeListDataset::getBatchesUpTo], for the id of a batch of a
    dataset built from loaded edges, ranges over the first
    [(batchId + 1) * batch_size] edges of the dataset: the edges of the
    batches 0 to [batchId], one batch after the other. *)
Theorem EdgeListDataset_getBatchesUpTo_cumulative
        (args : Args) (edges : list Edge) (ds : EdgeListDataset)
        (batchId : Z) :
  1 <= batch_size args ->
  EdgeListDataset_init args edges = Ok ds ->
  0 <= batchId < EdgeListDataset_getNumBatches ds ->
  exists b,
    EdgeListDataset_getBatchesUpTo ds batchId = Ok b
    /\ begin_iter b = 0
    /\ end_iter b = (batchId + 1) * batch_size args
    /\ Batch_edges edges b
       = firstn (Z.to_nat ((batchId + 1) * batch_size args)) edges
    /\ Batch_edges edges b
       = List.concat (map (Batch_edges edges)
                     (firstn (Z.to_nat (batchId + 1)) (el_batches ds)))
    /\ Z.of_nat (List.length (Batch_edges edges b))
       = (batchId + 1) * batch_size args.
Proof.
  intros Hbs Hok Hid.
  assert (Hid' : 0 <= batchId
                 < Z.of_nat (List.length edges) / batch_size args).
  { unfold EdgeListDataset_getNumBatches in Hid.
    now rewrite (@el_batches_length args edges ds Hbs Hok) in Hid. }
  destruct (@EdgeListDataset_getBatch_range args edges ds Hbs Hok batchId Hid')
    as (Hget & _ & _).
  unfold EdgeListDataset_getBatchesUpTo. rewrite Hget. cbn [bind end_iter].
  eexists. split; [reflexivity|].
  cbn [begin_iter end_iter]. rewrite Batch_edges_from_start.
  split; [reflexivity|]. split; [reflexivity|]. split; [reflexivity|].
  pose proof (@num_batches_bound args edges Hbs) as Hbound.
  assert (Hend : (batchId + 1) * batch_size args
                 <= Z.of_nat (List.length edges)) by nia.
  split.
  - rewrite (@el_batches_map args edges ds Hbs Hok).
    rewrite firstn_map, firstn_seq_min.
    replace (Nat.min (Z.to_nat (batchId + 1))
                     (Z.to_nat (Z.of_nat (List.length edges)
                                / batch_size args)))
      with (Z.to_nat (batchId + 1)) by lia.
    rewrite map_map.
    rewrite (map_ext
               (fun k => Batch_edges edges
                           (mkBatch (Z.of_nat k * batch_size args)
                                    (Z.of_nat k * batch_size args
                                     + batch_size args)))
               (fun k => firstn (Z.to_nat (batch_size args))
                                (skipn (k * Z.to_nat (batch_size args)) edges))).
    + rewrite concat_batches_firstn. f_equal. nia.
    + intros k. unfold Batch_edges. cbn [begin_iter end_iter].
      f_equal; [f_equal; lia | f_equal; nia].
  - rewrite length_firstn. lia.
Qed.

Lemma EdgeListDataset_getBatchesUpTo_cumulative_witness :
  exists b,
    EdgeListDataset_getBatchesUpTo example_dataset 1 = Ok b
    /\ begin_iter b = 0
    /\ end_iter b = (1 + 1) * batch_size example_args
    /\ Batch_edges example_edges b
       = firstn (Z.to_nat ((1 + 1) * batch_size example_args)) example_edges
    /\ Batch_edges example_edges b
       = List.concat (map (Batch_edges example_edges)
                     (firstn (Z.to_nat (1 + 1)) (el_batches example_dataset)))
    /\ Z.of_nat (List.length (Batch_edges example_edges b))
       = (1 + 1) * batch_size example_args.
Proof.
  apply (@EdgeListDataset_getBatchesUpTo_cumulative
           example_args example_edges example_dataset 1).
  - simpl. lia.
  - reflexivity.
  - vm_compute. split; [discriminate | reflexivity].
Defined.

(* ================================================================== *)
(** * Suffixes of a path *)

Lemma string_length_append (p s : string) :
  String.length (p ++ s) = (String.length p + String.length s)%nat.
Proof. induction p as [|c p IH]; simpl; [reflexivity | now rewrite IH]. Qed.

Lemma substring_whole (s : string) : substring 0 (String.length s) s = s.
Proof. induction s as [|c s IH]; simpl; [reflexivity | now rewrite IH]. Qed.

Lemma substring_after (p s : string) m :
  substring (String.length p) m (p ++ s) = substring 0 m s.
Proof. induction p as [|c p IH]; simpl; [reflexivity | exact IH]. Qed.

Lemma substring_tail n (s : string) :
  (n <= String.length s)%nat ->
  exists p, s = (p ++ substring n (String.length s - n) s)%string
            /\ String.length p = n.
Proof.
  revert s. induction n as [|n IH]; intros s Hn.
  - exists EmptyString. rewrite Nat.sub_0_r, substring_whole. now split.
  - destruct s as [|c s]; [simpl in Hn; lia|].
    simpl in Hn. destruct (IH s) as (p & Hp & Hlen); [lia|].
    exists (String c p). simpl. split; [now rewrite <- Hp | now rewrite Hlen].
Qed.

Lemma has_suffix_iff (str suffix : string) :
  has_suffix str suffix = true <-> exists p, str = (p ++ suffix)%string.
Proof.
  unfold has_suffix. rewrite andb_true_iff, Nat.leb_le, String.eqb_eq. split.
  - intros [Hlen Hsub].
    destruct (@substring_tail (String.length str - String.length suffix) str)
      as (p & Hp & _); [lia|].
    exists p. rewrite Hp at 1. f_equal.
    replace (String.length str
             - (String.length str - String.length suffix))%nat
      with (String.length suffix) by lia.
    exact Hsub.
  - intros [p ->]. rewrite string_length_append. split; [lia|].
    replace (String.length p + String.length suffix
             - String.length suffix)%nat
      with (String.length p) by lia.
    rewrite substring_after. apply substring_whole.
Qed.

(** X12.  [has_suffix] holds exactly of the strings that end with the
    suffix; it holds of no string shorter than the suffix, and of every
    string for the empty suffix. *)
Theorem has_suffix_ends_with (str suffix : string) :
  (has_suffix str suffix = true <-> exists p, str = (p ++ suffix)%string)
  /\ ((String.length str < String.length suffix)%nat ->
      has_suffix str suffix = false)
  /\ has_suffix str EmptyString = true
  /\ has_suffix suffix suffix = true.
Proof.
  split; [apply has_suffix_iff|]. split; [|split].
  - intros Hlt. unfold has_suffix.
    destruct (Nat.leb_spec (String.length suffix) (String.length str));
      [lia | reflexivity].
  - apply has_suffix_iff. exists str.
    induction str as [|c s IH]; simpl; [reflexivity | now rewrite <- IH].
  - apply has_suffix_iff. now exists EmptyString.
Qed.

Lemma has_suffix_ends_with_witness :
  has_suffix "bin" ".graph.bin" = false.
Proof.
  apply (proj1 (proj2 (has_suffix_ends_with "bin" ".graph.bin"))).
  simpl. lia.
Defined.

(** X13.  The constructor of [EdgeListDataset] chooses the loader by the
    end of the path.  A path that ends neither in [.graph.bin] nor in
    [.graph.el] is fatal, whatever the file holds; a path that ends in
    [.graph.bin] is read as a binary file, and the loader of text is
    not consulted. *)
Theorem EdgeListDataset_new_by_extension
        (file_at : string -> option (list Byte.byte))
        (loadEdgesAscii : string -> outcome (list Edge)) (args : Args) :
  ((forall p, input_path args <> (p ++ ".graph.bin")%string) ->
   (forall p, input_path args <> (p ++ ".graph.el")%string) ->
   EdgeListDataset_new file_at loadEdgesAscii args
   = Die ("Unrecognized file extension for " ++ input_path args ++ nl)%string)
  /\ ((exists p, input_path args = (p ++ ".graph.bin")%string) ->
      EdgeListDataset_new file_at loadEdgesAscii args
      = (edges <- loadEdgesBinary (input_path args)
                                  (file_at (input_path args)) ;;
         EdgeListDataset_init args edges)).
Proof.
  unfold EdgeListDataset_new. split.
  - intros Hbin Hel.
    destruct (has_suffix (input_path args) ".graph.bin") eqn:E1.
    { apply has_suffix_iff in E1. destruct E1 as [p Hp].
      now contradiction (Hbin p). }
    destruct (has_suffix (input_path args) ".graph.el") eqn:E2.
    { apply has_suffix_iff in E2. destruct E2 as [p Hp].
      now contradiction (Hel p). }
    reflexivity.
  - intros Hbin. apply has_suffix_iff in Hbin. now rewrite Hbin.
Qed.

Lemma EdgeListDataset_new_by_extension_witness :
  EdgeListDataset_new (fun _ => None) (fun _ => Ok [])
                      (mkArgs 1 "edges.txt" 1 [] UNSORTED Double.one 1)
  = Die ("Unrecognized file extension for " ++ "edges.txt" ++ nl)%string.
Proof.
  apply (proj1 (EdgeListDataset_new_by_extension
                  (fun _ => None) (fun _ => Ok [])
                  (mkArgs 1 "edges.txt" 1 [] UNSORTED Double.one 1))).
  - intros p H. apply (f_equal (fun s => has_suffix s ".graph.bin")) in H.
    rewrite (proj2 (has_suffix_iff (p ++ ".graph.bin") ".graph.bin")) in H
      by (now exists p).
    discriminate H.
  - intros p H. apply (f_equal (fun s => has_suffix s ".graph.el")) in H.
    rewrite (proj2 (has_suffix_iff (p ++ ".graph.el") ".graph.el")) in H
      by (now exists p).
    discriminate H.
Defined.

(* ================================================================== *)
(** * Binary files, one after the other *)

Lemma loadEdgesBinary_fread path bytes :
  loadEdgesBinary path (Some bytes)
  = Ok (fread (Z.to_nat (Z.of_nat (List.length bytes) / sizeof_Edge)) bytes).
Proof.
  unfold loadEdgesBinary.
  set (numEdges := Z.of_nat (List.length bytes) / sizeof_Edge).
  assert (Hn : 0 <= numEdges) by (apply Z.div_pos; unfold sizeof_Edge; lia).
  rewrite fread_length, Z2Nat.id by assumption. fold numEdges.
  rewrite Z.min_l, Z.eqb_refl by lia. reflexivity.
Qed.

Lemma read_int64_app (a b : list Byte.byte) k :
  (k + 8 <= List.length a)%nat ->
  read_int64 (skipn k (a ++ b)) = read_int64 (skipn k a).
Proof.
  intros Hk. unfold read_int64.
  rewrite skipn_app, firstn_app.
  replace (8 - List.length (skipn k a))%nat with O
    by (rewrite length_skipn; lia).
  rewrite firstn_O, app_nil_r. reflexivity.
Qed.

Lemma read_Edge_app (a b : list Byte.byte) :
  (32 <= List.length a)%nat -> read_Edge (a ++ b) = read_Edge a.
Proof.
  intros Ha. unfold read_Edge.
  change (read_int64 (a ++ b)) with (read_int64 (skipn 0 (a ++ b))).
  change (read_int64 a) with (read_int64 (skipn 0 a)).
  rewrite !read_int64_app by lia. reflexivity.
Qed.

Lemma fread_app n1 n2 (a b : list Byte.byte) :
  List.length a = (32 * n1)%nat ->
  fread (n1 + n2) (a ++ b) = fread n1 a ++ fread n2 b.
Proof.
  revert a. induction n1 as [|n1 IH]; intros a Ha.
  - destruct a; [reflexivity | discriminate].
  - cbn [Nat.add fread]. unfold sizeof_Edge.
    rewrite length_app.
    destruct (Z.ltb_spec (Z.of_nat (List.length a + List.length b)) 32);
      [lia|].
    destruct (Z.ltb_spec (Z.of_nat (List.length a)) 32); [lia|].
    rewrite read_Edge_app by lia. cbn [app]. f_equal.
    rewrite skipn_app.
    replace (32 - List.length a)%nat with O by lia.
    change (skipn 0 b) with b. apply IH. rewrite length_skipn. lia.
Qed.

(** X14.  When a binary file is made of whole records, a file that
    continues it loads as the edges of the first followed by the edges
    of what was added: the edges already in a file do not depend on
    what comes after them. *)
Theorem loadEdgesBinary_app (path : string) (a b : list Byte.byte) :
  Z.of_nat (List.length a) mod 32 = 0 ->
  exists edges_a edges_b,
    loadEdgesBinary path (Some a) = Ok edges_a
    /\ loadEdgesBinary path (Some b) = Ok edges_b
    /\ loadEdgesBinary path (Some (a ++ b)) = Ok (edges_a ++ edges_b).
Proof.
  intros Hmod. rewrite !loadEdgesBinary_fread.
  do 2 eexists. split; [reflexivity|]. split; [reflexivity|].
  f_equal. unfold sizeof_Edge.
  set (na := Z.of_nat (List.length a) / 32).
  set (nb := Z.of_nat (List.length b) / 32).
  assert (Ha : Z.of_nat (List.length a) = 32 * na).
  { unfold na. rewrite (Z.div_mod (Z.of_nat (List.length a)) 32) at 1 by lia.
    lia. }
  assert (Hna : 0 <= na) by (apply Z.div_pos; lia).
  assert (Hnb : 0 <= nb) by (apply Z.div_pos; lia).
  rewrite length_app, Nat2Z.inj_add, Ha.
  rewrite (Z.mul_comm 32 na), Z.div_add_l by lia. fold nb.
  rewrite Z2Nat.inj_add by lia.
  apply fread_app. lia.
Qed.

Lemma loadEdgesBinary_app_witness :
  exists edges_a edges_b,
    loadEdgesBinary "example.graph.bin" (Some (repeat Byte.x01 32))
    = Ok edges_a
    /\ loadEdgesBinary "example.graph.bin" (Some file_of_33_bytes)
       = Ok edges_b
    /\ loadEdgesBinary "example.graph.bin"
                       (Some (repeat Byte.x01 32 ++ file_of_33_bytes))
       = Ok (edges_a ++ edges_b).
Proof.
  apply (loadEdgesBinary_app "example.graph.bin"
                             (repeat Byte.x01 32) file_of_33_bytes).
  reflexivity.
Defined.

(* ================================================================== *)
(** * Lines of a text file *)

Lemma count_newlines_acc lines bytes :
  count_newlines lines bytes = lines + count_newlines 0 bytes.
Proof.
  revert lines.
  induction bytes as [|ch rest IH]; intros lines; cbn [count_newlines]; [lia|].
  destruct (Byte.eqb ch newline).
  - rewrite (IH (lines + 1)), (IH (0 + 1)). lia.
  - rewrite (IH lines), (IH 0). lia.
Qed.

Lemma count_newlines_app a b :
  count_newlines 0 (a ++ b) = count_newlines 0 a + count_newlines 0 b.
Proof.
  induction a as [|ch a IH]; cbn [app count_newlines]; [reflexivity|].
  rewrite count_newlines_acc, IH.
  rewrite (count_newlines_acc (if Byte.eqb ch newline then 0 + 1 else 0) a).
  lia.
Qed.

Lemma count_newlines_free bytes :
  ~ In newline bytes -> count_newlines 0 bytes = 0.
Proof.
  induction bytes as [|ch rest IH]; intros Hfree; [reflexivity|].
  cbn [count_newlines]. destruct (Byte.eqb ch newline) eqn:E.
  - exfalso. apply Hfree. left. now apply Byte.byte_dec_bl in E.
  - apply IH. intros H. apply Hfree. now right.
Qed.

(** X15.  [count_lines] returns the number of lines that a newline
    ends: on a file made of lines, each ended by a newline, followed by
    text without a newline, it is the number of those lines, and the
    text after the last newline does not count.  A file that cannot be
    opened is fatal. *)
Theorem count_lines_terminated
        (path : string) (lines : list (list Byte.byte))
        (unterminated : list Byte.byte) :
  Forall (fun line => ~ In newline line) lines ->
  ~ In newline unterminated ->
  count_lines path (Some (List.concat (map terminated lines) ++ unterminated))
  = Ok (Z.of_nat (List.length lines))
  /\ fatal (count_lines path None).
Proof.
  intros Hlines Htail. split; [|unfold fatal, count_lines; eauto].
  unfold count_lines. f_equal.
  rewrite count_newlines_app, (@count_newlines_free _ Htail), Z.add_0_r.
  induction Hlines as [|line lines Hline _ IH]; [reflexivity|].
  cbn [map List.concat List.length]. unfold terminated at 1.
  rewrite !count_newlines_app, (@count_newlines_free _ Hline), IH.
  change (count_newlines 0 [newline]) with 1.
  rewrite Nat2Z.inj_succ. lia.
Qed.

Lemma count_lines_terminated_witness :
  count_lines "example.graph.el"
              (Some (List.concat (map terminated [[Byte.x31]; [Byte.x32]])
                     ++ [Byte.x33]))
  = Ok (Z.of_nat (List.length [[Byte.x31]; [Byte.x32]]))
  /\ fatal (count_lines "example.graph.el" None).
Proof.
  apply (@count_lines_terminated "example.graph.el"
                                [[Byte.x31]; [Byte.x32]] [Byte.x33]).
  - repeat constructor; simpl; intros [H|[]]; discriminate H.
  - simpl. intros [H|[]]. discriminate H.
Defined.

(* ================================================================== *)
(** * The strings of the command line *)

(** X16.  The option [sort-mode] is read back from what [operator<<]
    prints: a text is parsed as a mode exactly when it is the printed
    form of that mode, and every other text is fatal. *)
Theorem parse_sort_mode_round_trip (sort_mode_str : string) :
  (forall m, parse_sort_mode sort_mode_str = Ok m
             <-> sort_mode_str = show_SORT_MODE m)
  /\ ((forall m, sort_mode_str <> show_SORT_MODE m) ->
      fatal (parse_sort_mode sort_mode_str)).
Proof.
  unfold parse_sort_mode. split.
  - intros m.
    destruct (String.eqb_spec sort_mode_str "unsorted") as [->|H1];
      [destruct m; simpl; split; congruence|].
    destruct (String.eqb_spec sort_mode_str "presort") as [->|H2];
      [destruct m; simpl; split; congruence|].
    destruct (String.eqb_spec sort_mode_str "snapshot") as [->|H3];
      [destruct m; simpl; split; congruence|].
    split; [discriminate|]. intros ->. destruct m; simpl in *; congruence.
  - intros Hnone.
    destruct (String.eqb_spec sort_mode_str "unsorted") as [E|_];
      [now contradiction (Hnone UNSORTED)|].
    destruct (String.eqb_spec sort_mode_str "presort") as [E|_];
      [now contradiction (Hnone PRESORT)|].
    destruct (String.eqb_spec sort_mode_str "snapshot") as [E|_];
      [now contradiction (Hnone SNAPSHOT)|].
    unfold fatal. eauto.
Qed.

Lemma free_of_append c (a b : string) :
  free_of c (a ++ b) = free_of c a && free_of c b.
Proof.
  induction a as [|c' a IH]; simpl; [reflexivity|].
  now rewrite IH, andb_assoc.
Qed.

Lemma string_append_assoc (a b c : string) :
  ((a ++ b) ++ c = a ++ (b ++ c))%string.
Proof. induction a as [|x a IH]; simpl; [reflexivity | now rewrite IH]. Qed.

Lemma string_append_nil (a : string) : (a ++ "" = a)%string.
Proof. induction a as [|x a IH]; simpl; [reflexivity | now rewrite IH]. Qed.

Lemma split_from_last item (x : string) delim :
  free_of delim x = true ->
  split_from item x delim = [(item ++ x)%string].
Proof.
  revert item. induction x as [|c x IH]; intros item Hfree.
  - simpl. now rewrite string_append_nil.
  - simpl in Hfree. apply andb_true_iff in Hfree as [Hc Hx].
    cbn [split_from]. apply negb_true_iff in Hc. rewrite Hc.
    rewrite IH by assumption. now rewrite string_append_assoc.
Qed.

Lemma split_from_item item (x rest : string) delim :
  free_of delim x = true ->
  split_from item (x ++ String delim rest) delim
  = (item ++ x)%string
    :: match rest with
       | EmptyString => []
       | String _ _ => split_from EmptyString rest delim
       end.
Proof.
  revert item. induction x as [|c x IH]; intros item Hfree.
  - cbn [append split_from]. rewrite Ascii.eqb_refl.
    now rewrite string_append_nil.
  - simpl in Hfree. apply andb_true_iff in Hfree as [Hc Hx].
    cbn [append split_from]. apply negb_true_iff in Hc. rewrite Hc.
    rewrite IH by assumption. now rewrite string_append_assoc.
Qed.

Lemma split_from_concat (items : list string) delim :
  items <> [] ->
  Forall (fun item => free_of delim item = true) items ->
  last items EmptyString <> EmptyString ->
  String.concat (String delim EmptyString) items <> EmptyString
  /\ split_from EmptyString (String.concat (String delim EmptyString) items)
                delim
     = items.
Proof.
  induction items as [|x xs IH]; intros Hne Hfree Hlast; [congruence|].
  inversion Hfree as [|? ? Hx Hxs]; subst.
  destruct xs as [|y ys].
  - simpl in *. split; [assumption|]. now rewrite split_from_last.
  - destruct IH as [IHne IHsplit]; [discriminate | assumption | exact Hlast |].
    change (String.concat (String delim "") (x :: y :: ys))
      with (x ++ String delim (String.concat (String delim "") (y :: ys)))%string.
    split.
    + destruct x; discriminate.
    + rewrite split_from_item by assumption.
      destruct (String.concat (String delim "") (y :: ys)) eqn:E;
        [congruence|].
      now rewrite IHsplit.
Qed.

Lemma split_from_free item (s : string) delim :
  free_of delim item = true ->
  Forall (fun i => free_of delim i = true) (split_from item s delim).
Proof.
  revert item. induction s as [|c s IH]; intros item Hitem.
  - simpl. now constructor.
  - cbn [split_from]. destruct (Ascii.eqb c delim) eqn:E.
    + constructor; [assumption|].
      destruct s; [constructor | now apply IH].
    + apply IH. rewrite free_of_append, Hitem. simpl. now rewrite E.
Qed.

(** X17.  [split] undoes the joining of items by the delimiter: items
    that do not hold the delimiter, the last of them not empty, are
    found again, in order, in the text that joins them.  No item that
    [split] returns holds the delimiter, and the empty text has no
    items. *)
Theorem split_concat (items : list string) (delim : ascii) :
  Forall (fun item => free_of delim item = true) items ->
  last items (String delim EmptyString) <> EmptyString ->
  split (String.concat (String delim EmptyString) items) delim = items
  /\ (forall s, Forall (fun item => free_of delim item = true) (split s delim))
  /\ split EmptyString delim = [].
Proof.
  intros Hfree Hlast. split; [|split; [|reflexivity]].
  - destruct items as [|x xs]; [reflexivity|].
    destruct (@split_from_concat (x :: xs) delim) as [Hne Hsplit];
      [discriminate | assumption | |].
    { intros E. apply Hlast. rewrite <- E.
      clear. revert x. induction xs as [|y ys IH]; intros x; [|apply IH].
      reflexivity. }
    unfold split.
    destruct (String.concat (String delim "") (x :: xs)); [congruence|].
    exact Hsplit.
  - intros s. unfold split. destruct s; [constructor|].
    now apply split_from_free.
Qed.

Lemma split_concat_witness :
  split (String.concat " " ["bfs"; ""; "cc"]%string) " " = ["bfs"; ""; "cc"]%string
  /\ (forall s, Forall (fun item => free_of " " item = true) (split s " "))
  /\ split EmptyString " " = [].
Proof.
  apply (@split_concat ["bfs"; ""; "cc"]%string " "%char).
  - repeat constructor.
  - discriminate.
Defined.

(* ================================================================== *)
(** * Numbers with a magnitude suffix *)

Lemma digits_string_of_uint d (rest : string) :
  no_digit_ahead rest ->
  digits (NilEmpty.string_of_uint d ++ rest) = (d, rest).
Proof.
  intros Hrest. induction d; cbn [NilEmpty.string_of_uint append digits digit_of];
    try (rewrite IHd; reflexivity).
  destruct rest as [|c rest]; [reflexivity|].
  simpl in Hrest. cbn [digits]. now rewrite Hrest.
Qed.

Lemma skip_spaces_digit c (s : string) :
  digit_of c <> None -> skip_spaces (String c s) = String c s.
Proof.
  destruct c as [[] [] [] [] [] [] [] []]; intros H;
    try reflexivity; now contradiction H.
Qed.

Lemma stoll_unsigned d (rest : string) :
  d <> Decimal.Nil ->
  no_digit_ahead rest ->
  stoll (NilEmpty.string_of_uint d ++ rest)
  = if (Int64.min_signed <=? Z.of_uint d) && (Z.of_uint d <=? Int64.max_signed)
    then Ok (Z.of_uint d) else Aborted.
Proof.
  intros Hd Hrest. unfold stoll.
  destruct d; [congruence| ..];
    cbn [NilEmpty.string_of_uint append];
    rewrite skip_spaces_digit by discriminate;
    cbv iota beta zeta; cbn [digits digit_of];
    rewrite digits_string_of_uint by exact Hrest; reflexivity.
Qed.

Lemma stoll_negative d (rest : string) :
  d <> Decimal.Nil ->
  no_digit_ahead rest ->
  stoll (String "-" (NilEmpty.string_of_uint d ++ rest))
  = if (Int64.min_signed <=? - Z.of_uint d)
       && (- Z.of_uint d <=? Int64.max_signed)
    then Ok (- Z.of_uint d) else Aborted.
Proof.
  intros Hd Hrest. unfold stoll.
  change (skip_spaces (String "-" (NilEmpty.string_of_uint d ++ rest)))
    with (String "-" (NilEmpty.string_of_uint d ++ rest)).
  cbv iota beta.
  rewrite digits_string_of_uint by exact Hrest.
  destruct d; [congruence| ..]; reflexivity.
Qed.

Lemma Pos_to_uint_nonnil p : Pos.to_uint p <> Decimal.Nil.
Proof.
  intros E. pose proof (DecimalPos.Unsigned.of_to p) as H.
  rewrite E in H. discriminate H.
Qed.

Lemma string_of_uint_nonnil d :
  d <> Decimal.Nil ->
  NilZero.string_of_uint d = NilEmpty.string_of_uint d.
Proof. destruct d; [congruence | reflexivity ..]. Qed.

Lemma stoll_show n (rest : string) :
  Int64.in_range n ->
  no_digit_ahead rest ->
  stoll (show n ++ rest) = Ok n.
Proof.
  intros [Hlo Hhi] Hrest. unfold show.
  pose proof (DecimalZ.of_to n) as Hn.
  destruct n as [|p|p].
  - change (Z.to_int 0) with (Decimal.Pos (Decimal.D0 Decimal.Nil)).
    cbn [NilZero.string_of_int NilZero.string_of_uint].
    rewrite stoll_unsigned by (assumption || discriminate). reflexivity.
  - cbn [Z.to_int NilZero.string_of_int] in *.
    pose proof (Pos_to_uint_nonnil p) as Hnil.
    rewrite (string_of_uint_nonnil Hnil).
    rewrite stoll_unsigned by assumption.
    cbn [Z.of_int] in Hn. rewrite Hn.
    destruct (Z.leb_spec Int64.min_signed (Z.pos p)); [|lia].
    destruct (Z.leb_spec (Z.pos p) Int64.max_signed); [|lia].
    reflexivity.
  - cbn [Z.to_int NilZero.string_of_int] in *.
    pose proof (Pos_to_uint_nonnil p) as Hnil.
    rewrite (string_of_uint_nonnil Hnil).
    cbn [append].
    rewrite stoll_negative by assumption.
    cbn [Z.of_int] in Hn. rewrite Hn.
    destruct (Z.leb_spec Int64.min_signed (Z.neg p)); [|lia].
    destruct (Z.leb_spec (Z.neg p) Int64.max_signed); [|lia].
    reflexivity.
Qed.

Lemma back_append (s : string) c : back (s ++ String c EmptyString) = Some c.
Proof.
  induction s as [|x s IH]; [reflexivity|].
  cbn [append back]. rewrite IH.
  destruct (s ++ String c "")%string eqn:E; [|reflexivity].
  destruct s; discriminate.
Qed.

Lemma back_string_of_uint d :
  d <> Decimal.Nil ->
  exists c, back (NilEmpty.string_of_uint d) = Some c /\ magnitude c = 1.
Proof.
  induction d; intros Hd; [congruence| ..];
    (destruct d as [| | | | | | | | | |] eqn:E;
     [ eexists; split; reflexivity
     | rewrite <- E in *;
       destruct IHd as (c & Hc & Hm); [subst; discriminate|];
       exists c; split; [|exact Hm];
       cbn [NilEmpty.string_of_uint back]; rewrite Hc;
       subst d; reflexivity .. ]).
Qed.

Lemma back_show n : exists c, back (show n) = Some c /\ magnitude c = 1.
Proof.
  unfold show. destruct n as [|p|p].
  - eexists. split; reflexivity.
  - cbn [Z.to_int NilZero.string_of_int].
    pose proof (Pos_to_uint_nonnil p) as Hnil.
    rewrite (string_of_uint_nonnil Hnil).
    now apply back_string_of_uint.
  - cbn [Z.to_int NilZero.string_of_int].
    pose proof (Pos_to_uint_nonnil p) as Hnil.
    rewrite (string_of_uint_nonnil Hnil).
    destruct (back_string_of_uint Hnil) as (c & Hc & Hm).
    exists c. split; [|exact Hm].
    cbn [back]. rewrite Hc.
    destruct (NilEmpty.string_of_uint (Pos.to_uint p)); [discriminate|].
    reflexivity.
Qed.

Lemma parse_int_with_suffix_magnitude (token : string) n c :
  stoll token = Ok n ->
  back token = Some c ->
  Int64.in_range n ->
  parse_int_with_suffix token = mul_int64 n (magnitude c).
Proof.
  intros Hstoll Hback [Hlo Hhi]. unfold parse_int_with_suffix.
  rewrite Hstoll. cbn [bind]. rewrite Hback.
  assert (H1 : Ok n = mul_int64 n 1).
  { unfold mul_int64. rewrite Z.mul_1_r.
    destruct (Z.leb_spec Int64.min_signed n); [|lia].
    destruct (Z.leb_spec n Int64.max_signed); [|lia]. reflexivity. }
  destruct c as [[] [] [] [] [] [] [] []]; try exact H1; reflexivity.
Qed.

(** X18.  [parse_int_with_suffix] reads the decimal number at the head
    of the token and scales it by the last character of the token
    alone: by 2^10, 2^20, 2^30 or 2^40 for K, M, G or T, and by 1 for
    any other character, whatever stands between the number and that
    character; the product is the result when it fits in 64 bits.  A
    printed number is read back as itself.  A token that holds no
    number where one is expected makes [std::stoll] throw, and nothing
    catches it. *)
Theorem parse_int_with_suffix_scales (n : Z) (mid : string) (c : ascii) :
  Int64.in_range n ->
  no_digit_ahead (mid ++ String c EmptyString) ->
  parse_int_with_suffix (show n ++ mid ++ String c EmptyString)
  = mul_int64 n (magnitude c)
  /\ parse_int_with_suffix (show n) = Ok n
  /\ (forall token,
         no_digit_ahead token -> skip_spaces token = token ->
         (forall rest, token <> String "-" rest /\ token <> String "+" rest) ->
         parse_int_with_suffix token = Aborted).
Proof.
  intros Hn Hmid. split; [|split].
  - apply parse_int_with_suffix_magnitude; [|  |assumption].
    + now apply stoll_show.
    + rewrite <- string_append_assoc. apply back_append.
  - destruct (back_show n) as (c' & Hback & Hm).
    rewrite (@parse_int_with_suffix_magnitude (show n) n c'); try assumption.
    + rewrite Hm. unfold mul_int64. rewrite Z.mul_1_r.
      destruct Hn as [Hlo Hhi].
      destruct (Z.leb_spec Int64.min_signed n); [|lia].
      destruct (Z.leb_spec n Int64.max_signed); [|lia]. reflexivity.
    + rewrite <- (string_append_nil (show n)) at 1.
      now apply stoll_show.
  - intros token Hdigit Hspace Hsign.
    unfold parse_int_with_suffix, stoll. rewrite Hspace.
    destruct token as [|c0 rest]; [reflexivity|].
    simpl in Hdigit.
    destruct (Hsign rest) as [Hminus Hplus].
    assert (E : (let '(negative, s) :=
                   match String c0 rest with
                   | String "-"%char s' => (true, s')
                   | String "+"%char s' => (false, s')
                   | _ => (false, String c0 rest)
                   end in
                 match digits s with
                 | (Decimal.Nil, _) => Aborted
                 | (d, _) =>
                     let v := if negative then - Z.of_uint d else Z.of_uint d in
                     if (Int64.min_signed <=? v) && (v <=? Int64.max_signed)
                     then Ok v else Aborted
                 end) = Aborted).
    { destruct c0 as [[] [] [] [] [] [] [] []];
        try congruence; try discriminate Hdigit; reflexivity. }
    cbv zeta in *. rewrite E. reflexivity.
Qed.

Lemma parse_int_with_suffix_scales_witness :
  parse_int_with_suffix (show 16 ++ "K" ++ String "B" EmptyString)
  = mul_int64 16 (magnitude "B")
  /\ parse_int_with_suffix (show 16) = Ok 16
  /\ (forall token,
         no_digit_ahead token -> skip_spaces token = token ->
         (forall rest, token <> String "-" rest /\ token <> String "+" rest) ->
         parse_int_with_suffix token = Aborted).
Proof.
  apply (@parse_int_with_suffix_scales 16 "K" "B"%char).
  - unfold Int64.in_range, Int64.min_signed, Int64.max_signed. lia.
  - reflexivity.
Defined.

(* ================================================================== *)
(** * Synthetic datasets: construction and passes *)

Lemma wrap_in_range z : Int64.in_range z -> Int64.wrap z = z.
Proof.
  unfold Int64.in_range, Int64.wrap, Int64.min_signed, Int64.max_signed,
    Int64.modulus.
  intros H. rewrite Z.mod_small by lia. lia.
Qed.

(** X19.  The constructor of [RmatDataset], for a batch size of at
    least 1 and a number of edges that an [int64_t] holds: it returns a
    dataset exactly when the batch size is at most the number of edges
    and the number of epochs at most the number of whole batches, and
    is fatal otherwise.  The dataset it returns starts at batch 0 and
    timestamp 0, and its batches are the whole batches that fit in the
    number of edges: the remainder of the division is never
    generated. *)
Theorem RmatDataset_new_accepts
        (G : rmat_edge_generator) (args : Args) (rmat_args : RmatArgs) :
  1 <= batch_size args ->
  0 <= rmat_num_edges rmat_args <= Int64.max_signed ->
  ((exists ds, RmatDataset_new G args rmat_args = Ok ds)
   <-> batch_size args <= rmat_num_edges rmat_args
       /\ num_epochs args <= rmat_num_edges rmat_args / batch_size args)
  /\ (fatal (RmatDataset_new G args rmat_args)
      <-> ~ (batch_size args <= rmat_num_edges rmat_args
             /\ num_epochs args <= rmat_num_edges rmat_args / batch_size args))
  /\ (forall ds,
         RmatDataset_new G args rmat_args = Ok ds ->
         rm_current_batch ds = 0
         /\ rm_next_timestamp ds = 0
         /\ rm_num_batches ds = rmat_num_edges rmat_args / batch_size args
         /\ num_epochs args <= rm_num_batches ds
         /\ 1 <= rm_num_batches ds
         /\ rm_num_batches ds * batch_size args <= rmat_num_edges rmat_args
            < (rm_num_batches ds + 1) * batch_size args).
Proof.
  intros Hbs Hn.
  set (bs := batch_size args) in *. set (n := rmat_num_edges rmat_args) in *.
  assert (Hquot : Int64.wrap (Z.quot n bs) = n / bs).
  { rewrite Z.quot_div_nonneg by lia. apply wrap_in_range.
    unfold Int64.in_range, Int64.min_signed.
    assert (0 <= n / bs) by (apply Z.div_pos; lia).
    assert (n / bs <= n) by (apply Z.div_le_upper_bound; nia).
    lia. }
  assert (Hnew : RmatDataset_new G args rmat_args
                 = if bs >? n
                   then Die ("Invalid arguments: batch size (" ++ show bs ++ ") "
         ++ "cannot be larger than the total number of edges in the dataset "
         ++ " (" ++ show n ++ ")" ++ nl)%string
                   else if num_epochs args >? n / bs
                   then Die ("Invalid arguments: number of epochs ("
         ++ show (num_epochs args) ++ ") "
         ++ "cannot be greater than the number of batches in the dataset "
         ++ "(" ++ show (n / bs) ++ ")" ++ nl)%string
                   else Ok {| rm_args := args;
                              rm_rmat_args := rmat_args;
                              rm_current_batch := 0;
                              rm_num_edges := n;
                              rm_num_batches := n / bs;
                              rm_num_vertices := rmat_num_vertices rmat_args;
                              rm_next_timestamp := 0;
                              rm_generator := new_generator G rmat_args |}).
  { unfold RmatDataset_new. fold bs n.
    destruct (Z.eqb_spec bs 0); [lia|].
    rewrite !to_size_t_pos by lia. rewrite Hquot. reflexivity. }
  rewrite Hnew. unfold fatal.
  destruct (Z.gtb_spec bs n) as [Hgt|Hle].
  - split; [|split].
    + split; [intros [ds H]; discriminate H | lia].
    + split; [lia | eauto].
    + intros ds H. discriminate H.
  - destruct (Z.gtb_spec (num_epochs args) (n / bs)) as [Hegt|Hele].
    + split; [|split].
      * split; [intros [ds H]; discriminate H | lia].
      * split; [lia | eauto].
      * intros ds H. discriminate H.
    + split; [|split].
      * split; [lia | eauto].
      * split; [intros [log H]; discriminate H | lia].
      * intros ds H. injection H as <-. cbn.
        assert (1 <= n / bs) by (apply Z.div_le_lower_bound; lia).
        pose proof (Z.mul_div_le n bs ltac:(lia)).
        pose proof (Z.mul_succ_div_gt n bs ltac:(lia)).
        repeat split; try lia.
Qed.

Lemma RmatDataset_new_accepts_witness :
  ((exists ds, RmatDataset_new alternating_generator nine_args nine_rmat_args
               = Ok ds)
   <-> batch_size nine_args <= rmat_num_edges nine_rmat_args
       /\ num_epochs nine_args
          <= rmat_num_edges nine_rmat_args / batch_size nine_args).
Proof.
  apply (@RmatDataset_new_accepts alternating_generator nine_args
                                  nine_rmat_args).
  - simpl. lia.
  - unfold Int64.max_signed. simpl. lia.
Defined.

(** X20.  A pass over a synthetic dataset.  When the batches are
    requested in order from the current one, every batch has
    [batch_size] edges and the edge at position [p] of the whole pass
    carries the timestamp [next_timestamp + p]: the timestamps of a
    pass are consecutive across the batches.  The edges of the pass are
    therefore in non-decreasing order of timestamp and hold no
    self-edge, which is what the constructor of [EdgeListDataset]
    requires of a file. *)
Theorem RmatDataset_pass_timestamps
        (G : rmat_edge_generator) (fuel n : nat) (ds : RmatDataset G)
        (batches : list (list Edge)) :
  getBatches fuel n ds (rm_current_batch ds) = Ok batches ->
  List.length batches = n
  /\ Forall (fun b => Z.of_nat (List.length b) = batch_size (rm_args ds))
            batches
  /\ (forall p e, nth_error (List.concat batches) p = Some e ->
                  timestamp e = rm_next_timestamp ds + Z.of_nat p)
  /\ nondecreasing_timestamps (List.concat batches)
  /\ no_self_edges (List.concat batches).
Proof.
  intros Hpass.
  assert (Hmain :
    List.length batches = n
    /\ Forall (fun b => Z.of_nat (List.length b) = batch_size (rm_args ds))
              batches
    /\ (forall p e, nth_error (List.concat batches) p = Some e ->
                    timestamp e = rm_next_timestamp ds + Z.of_nat p)
    /\ no_self_edges (List.concat batches)).
  { revert ds batches Hpass.
    induction n as [|n IH]; intros ds batches Hpass.
    - simpl in Hpass. injection Hpass as <-.
      repeat split; try constructor.
      intros [|p] e H; discriminate H.
    - cbn [getBatches] in Hpass.
      destruct (RmatDataset_getBatch fuel ds (rm_current_batch ds))
        as [[batch ds']| | | |] eqn:Hbatch; try discriminate Hpass.
      cbn [bind fst snd] in Hpass.
      destruct (RmatDataset_getBatch_Ok _ _ _ Hbatch)
        as (_ & Hargs & Hcur & Hnext & Hfill & Hbs).
      rewrite <- Hcur in Hpass.
      destruct (getBatches fuel n ds' (rm_current_batch ds'))
        as [rest| | | |] eqn:Hrest; try discriminate Hpass.
      cbn [bind] in Hpass. injection Hpass as <-.
      destruct (IH ds' rest Hrest) as (Hlen & Hsizes & Hts & Hself).
      destruct (@fill_edges_Ok G _ _ _ _ _ _ _ Hfill)
        as (filled & Hfilled & Hflen & Hfself & _ & Hfts & _).
      cbn [app] in Hfilled. subst filled.
      assert (Hblen : Z.of_nat (List.length batch) = batch_size (rm_args ds))
        by (rewrite Hflen; lia).
      split; [simpl; now rewrite Hlen|].
      split; [constructor; [exact Hblen | now rewrite <- Hargs]|].
      split.
      + intros p e Hp. cbn [List.concat] in Hp.
        destruct (Nat.lt_ge_cases p (List.length batch)) as [Hlt|Hge].
        * rewrite nth_error_app1 in Hp by assumption. now apply Hfts.
        * rewrite nth_error_app2 in Hp by assumption.
          apply Hts in Hp. rewrite Hp, Hnext. lia.
      + unfold no_self_edges in *. cbn [List.concat].
        apply Forall_app. now split. }
  destruct Hmain as (Hlen & Hsizes & Hts & Hself).
  repeat split; try assumption.
  unfold nondecreasing_timestamps.
  remember (List.concat batches) as edges eqn:E. clear E Hself Hsizes Hlen Hpass.
  remember (rm_next_timestamp ds) as t0 eqn:E. clear E.
  revert t0 Hts. induction edges as [|e edges IH]; intros t0 Hts; constructor.
  - apply (IH (t0 + 1)). intros p x Hp.
    rewrite (Hts (S p) x Hp). lia.
  - apply Forall_forall. intros x Hx.
    apply In_nth_error in Hx as [p Hp].
    rewrite (Hts O e eq_refl), (Hts (S p) x Hp). lia.
Qed.

Lemma RmatDataset_pass_timestamps_witness :
  exists batches,
    getBatches 2 2 window0_dataset 0 = Ok batches
    /\ nondecreasing_timestamps (List.concat batches).
Proof.
  exists [[mkEdge 0 1 1 0; mkEdge 0 1 1 1]; [mkEdge 0 1 1 2; mkEdge 0 1 1 3]].
  split; [reflexivity|].
  apply (@RmatDataset_pass_timestamps alternating_generator 2 2
                                      window0_dataset).
  reflexivity.
Defined.

(** X21.  The batches of a synthetic dataset are generated in order and
    once.  A request for a batch other than the current one fails the
    assertion, so that after batch [batchId] has been returned a second
    request for it fails; [getBatchesUpTo] accepts batch 0 alone, and on
    a dataset at batch 0 it does what [getBatch(0)] does. *)
Theorem RmatDataset_batches_in_order
        (G : rmat_edge_generator) (fuel : nat) (ds : RmatDataset G) :
  (forall batchId,
      batchId <> rm_current_batch ds ->
      RmatDataset_getBatch fuel ds batchId = Aborted)
  /\ (forall batchId batch ds' fuel',
         RmatDataset_getBatch fuel ds batchId = Ok (batch, ds') ->
         RmatDataset_getBatch fuel' ds' batchId = Aborted)
  /\ (forall batchId,
         batchId <> 0 -> RmatDataset_getBatchesUpTo fuel ds batchId = Aborted)
  /\ (rm_current_batch ds = 0 ->
      RmatDataset_getBatchesUpTo fuel ds 0 = RmatDataset_getBatch fuel ds 0).
Proof.
  assert (Hout : forall fuel0 (ds0 : RmatDataset G) batchId,
             batchId <> rm_current_batch ds0 ->
             RmatDataset_getBatch fuel0 ds0 batchId = Aborted).
  { intros fuel0 ds0 batchId Hne. unfold RmatDataset_getBatch.
    destruct (Z.eqb_spec batchId (rm_current_batch ds0)); [contradiction|].
    reflexivity. }
  split; [apply Hout|]. split; [|split].
  - intros batchId batch ds' fuel' Hbatch.
    destruct (RmatDataset_getBatch_Ok _ _ _ Hbatch) as (Hid & _ & Hcur & _).
    apply Hout. lia.
  - intros batchId Hne. unfold RmatDataset_getBatchesUpTo.
    destruct (Z.eqb_spec batchId 0); [contradiction|]. reflexivity.
  - intros Hcur. unfold RmatDataset_getBatchesUpTo, RmatDataset_getBatch.
    rewrite Hcur. reflexivity.
Qed.

Lemma RmatDataset_batches_in_order_witness :
  RmatDataset_getBatch 2 window0_dataset 1 = Aborted.
Proof.
  apply (proj1 (@RmatDataset_batches_in_order alternating_generator 2
                                              window0_dataset)).
  discriminate.
Defined.

(* ================================================================== *)
(** * The parameters of a synthetic dataset *)

Lemma ltb_nan_r x : Double.ltb x S754_nan = false.
Proof. now destruct x. Qed.

Lemma ltb_nan_l x : Double.ltb S754_nan x = false.
Proof. reflexivity. Qed.

(** X22.  [RmatArgs::validate] reports one violation at most, the
    parameters before the counts: when a parameter is out of range the
    counts are not looked at, and the message about the counts is given
    only for parameters that pass, for which every pair of counts from 0
    on is accepted, 0 edges and 0 vertices too.  What is accepted has no
    negative count.  The comparisons reject a sum above 1 only: a NaN
    compares false with everything, so that parameters that are all NaN
    pass, and so do parameters that are all 0, whose sum is not 1. *)
Theorem RmatArgs_validate_first_violation (r : RmatArgs) :
  (RmatArgs_validate r = EmptyString ->
   0 <= rmat_num_edges r /\ 0 <= rmat_num_vertices r)
  /\ (RmatArgs_validate r
      = ("Invalid arguments: RMAT parameters must be fall in the range [0, 1] and sum to 1"
         ++ nl)%string ->
      forall n m, RmatArgs_validate (with_counts r n m) = RmatArgs_validate r)
  /\ (RmatArgs_validate r
      = ("Invalid arguments: RMAT graph must have a positive number of edges and vertices"
         ++ nl)%string ->
      (rmat_num_edges r < 0 \/ rmat_num_vertices r < 0)
      /\ forall n m, 0 <= n -> 0 <= m ->
                     RmatArgs_validate (with_counts r n m) = EmptyString)
  /\ (forall x n m,
         (x = S754_nan \/ x = Double.zero) -> 0 <= n -> 0 <= m ->
         RmatArgs_validate (mkRmatArgs x x x x n m) = EmptyString).
Proof.
  unfold RmatArgs_validate, with_counts. cbn [rmat_a rmat_b rmat_c rmat_d
                                               rmat_num_edges rmat_num_vertices].
  set (out_of_range :=
         Double.ltb (rmat_a r) Double.zero || Double.ltb (rmat_b r) Double.zero
         || Double.ltb (rmat_c r) Double.zero || Double.ltb (rmat_d r) Double.zero
         || Double.ltb Double.one (rmat_a r) || Double.ltb Double.one (rmat_b r)
         || Double.ltb Double.one (rmat_c r) || Double.ltb Double.one (rmat_d r)
         || Double.ltb Double.one
              (double_add (double_add (double_add (rmat_a r) (rmat_b r))
                                      (rmat_c r)) (rmat_d r))).
  split; [|split; [|split]].
  - destruct out_of_range; [discriminate|].
    destruct (Z.ltb_spec (rmat_num_edges r) 0);
      destruct (Z.ltb_spec (rmat_num_vertices r) 0);
      cbn [orb]; try discriminate. lia.
  - destruct out_of_range; [reflexivity|].
    destruct (Z.ltb_spec (rmat_num_edges r) 0);
      destruct (Z.ltb_spec (rmat_num_vertices r) 0);
      cbn [orb]; discriminate.
  - destruct out_of_range; [discriminate|].
    destruct (Z.ltb_spec (rmat_num_edges r) 0);
      destruct (Z.ltb_spec (rmat_num_vertices r) 0);
      cbn [orb]; try discriminate; intros _; (split; [lia|]);
      intros n m Hn Hm;
      destruct (Z.ltb_spec n 0); destruct (Z.ltb_spec m 0);
      try lia; reflexivity.
  - intros x n m [-> | ->] Hn Hm;
      destruct (Z.ltb_spec n 0); destruct (Z.ltb_spec m 0);
      try lia; reflexivity.
Qed.

Lemma RmatArgs_validate_first_violation_witness :
  0 <= rmat_num_edges window0_rmat_args
  /\ 0 <= rmat_num_vertices window0_rmat_args.
Proof.
  apply (proj1 (RmatArgs_validate_first_violation window0_rmat_args)).
  vm_compute. reflexivity.
Defined.

(* ================================================================== *)
(** * The C port *)

Lemma max3_spec a b c :
  a <= max3 a b c /\ b <= max3 a b c /\ c <= max3 a b c
  /\ (max3 a b c = a \/ max3 a b c = b \/ max3 a b c = c).
Proof.
  unfold max3.
  destruct (Z.gtb_spec a b); destruct (Z.gtb_spec a c);
    destruct (Z.gtb_spec b c); lia.
Qed.

Lemma max_vertex_id_loop_spec m edges :
  m <= max_vertex_id_loop m edges
  /\ Forall (fun e => src e <= max_vertex_id_loop m edges
                      /\ dst e <= max_vertex_id_loop m edges) edges
  /\ (max_vertex_id_loop m edges = m
      \/ exists e, In e edges
                   /\ (src e = max_vertex_id_loop m edges
                       \/ dst e = max_vertex_id_loop m edges)).
Proof.
  revert m. induction edges as [|e rest IH]; intros m; cbn [max_vertex_id_loop].
  - split; [lia|]. split; [constructor | now left].
  - destruct (IH (max3 m (src e) (dst e))) as (Hle & Hall & Hatt).
    pose proof (max3_spec m (src e) (dst e)) as (H1 & H2 & H3 & H4).
    split; [lia|]. split.
    + constructor; [lia | exact Hall].
    + destruct Hatt as [Heq | (x & Hx & Hatt)].
      * rewrite Heq.
        destruct H4 as [H4 | [H4 | H4]]; [now left | right ..];
          exists e; (split; [now left|]); lia.
      * right. exists x. split; [now right | exact Hatt].
Qed.

Lemma EdgeListDataset_init_max_vertex_id_spec args edges ds :
  EdgeListDataset_init args edges = Ok ds ->
  Forall (fun e => src e <= el_max_vertex_id ds
                   /\ dst e <= el_max_vertex_id ds) edges
  /\ exists e, In e edges
               /\ (src e = el_max_vertex_id ds \/ dst e = el_max_vertex_id ds).
Proof.
  intros Hok.
  destruct (EdgeListDataset_init_max_vertex_id _ _ Hok)
    as (front & rest & Hedges & Hmaxv).
  pose proof (max_element_from_spec
                (fun e => Z.max (src e) (dst e)) front rest) as Hspec.
  cbv zeta in Hspec, Hmaxv.
  set (m := Std.max_element_from _ front rest) in *.
  destruct Hspec as (Hin & Hfront & Hall).
  rewrite Hmaxv, Hedges. split.
  - constructor; [lia|].
    rewrite Forall_forall in *. intros e He. specialize (Hall e He).
    cbv beta in Hall. lia.
  - exists m. split; [exact Hin | lia].
Qed.

(** X23.  The loop of [dynograph_load_dataset] in the C port starts from
    0: the greatest vertex id it finds is not negative, no endpoint of
    an edge exceeds it, and it is 0 or an endpoint of an edge.  On edges
    that the constructor of [EdgeListDataset] accepts, the C port finds
    the number of batches of the C++ dataset, and its greatest vertex id
    is that of the C++ dataset, or 0 when all the ids are negative. *)
Theorem dynograph_load_dataset_agrees (args : Args) (edges : list Edge) :
  (0 <= max_vertex_id_loop 0 edges
   /\ (forall e, In e edges ->
                 src e <= max_vertex_id_loop 0 edges
                 /\ dst e <= max_vertex_id_loop 0 edges)
   /\ (max_vertex_id_loop 0 edges = 0
       \/ exists e, In e edges
                    /\ (src e = max_vertex_id_loop 0 edges
                        \/ dst e = max_vertex_id_loop 0 edges)))
  /\ (forall ds,
         1 <= batch_size args ->
         Z.of_nat (List.length edges) <= Int64.max_signed ->
         EdgeListDataset_init args edges = Ok ds ->
         dynograph_load_dataset_fields args edges
         = Ok (Z.of_nat (List.length (el_batches ds)),
               Z.max 0 (el_max_vertex_id ds))).
Proof.
  pose proof (max_vertex_id_loop_spec 0 edges) as (Hle & Hall & Hatt).
  split.
  - split; [exact Hle|]. split; [|exact Hatt].
    rewrite Forall_forall in Hall. exact Hall.
  - intros ds Hbs Hlen Hok.
    destruct (EdgeListDataset_init_Ok _ _ Hok)
      as (Hne & _ & _ & _ & _ & _ & _ & _ & _ & Hbatches).
    destruct (EdgeListDataset_init_max_vertex_id_spec _ _ Hok)
      as (Hupper & e & He & Hmax).
    unfold dynograph_load_dataset_fields.
    destruct (Z.eqb_spec (batch_size args) 0); [lia|].
    f_equal. f_equal.
    + rewrite Hbatches, store_batches_spec, length_app, length_map, length_seq.
      cbn [List.length Nat.add].
      rewrite to_size_t_pos by lia.
      set (num_edges := Z.of_nat (List.length edges)) in *.
      assert (0 <= num_edges) by (unfold num_edges; lia).
      assert (0 <= num_edges / batch_size args) by (apply Z.div_pos; lia).
      assert (num_edges / batch_size args <= num_edges)
        by (apply Z.div_le_upper_bound; nia).
      rewrite Z.quot_div_nonneg by lia.
      rewrite wrap_in_range
        by (unfold Int64.in_range, Int64.min_signed; lia).
      now rewrite Z2Nat.id.
    + rewrite Forall_forall in Hall, Hupper.
      pose proof (Hall e He) as He1.
      destruct Hatt as [H0 | (x & Hx & Hxmax)].
      * lia.
      * pose proof (Hupper x Hx). lia.
Qed.

Lemma drop_append (p s : string) : drop (String.length p) (p ++ s) = s.
Proof. induction p as [|c p IH]; [reflexivity | exact IH]. Qed.

Lemma drop_tail n (s : string) :
  (n <= String.length s)%nat ->
  exists p, s = (p ++ drop n s)%string /\ String.length p = n.
Proof.
  revert s. induction n as [|n IH]; intros s Hn.
  - now exists EmptyString.
  - destruct s as [|c s]; [simpl in Hn; lia|].
    simpl in Hn. destruct (IH s) as (p & Hp & Hlen); [lia|].
    exists (String c p). cbn [drop append String.length].
    split; [now rewrite <- Hp | now rewrite Hlen].
Qed.

(** X24.  On a path of at least ten characters the C port and the C++
    code agree on what a binary file is: [dynograph_file_is_binary] is
    [has_suffix] for the suffix [.graph.bin].  On a shorter path the
    C++ code answers no, and the C port compares from a pointer before
    the start of the path, which the language leaves undefined. *)
Theorem dynograph_file_is_binary_agrees (path : string) :
  ((10 <= String.length path)%nat ->
   dynograph_file_is_binary path = Ok (has_suffix path ".graph.bin"))
  /\ ((String.length path < 10)%nat ->
      dynograph_file_is_binary path = Undefined
      /\ has_suffix path ".graph.bin" = false).
Proof.
  unfold dynograph_file_is_binary.
  change (String.length ".graph.bin") with 10%nat. split.
  - intros Hlen.
    destruct (Nat.ltb_spec (String.length path) 10); [lia|]. f_equal.
    destruct (has_suffix path ".graph.bin") eqn:Hs.
    + apply has_suffix_iff in Hs as [p ->].
      rewrite string_length_append.
      change (String.length ".graph.bin") with 10%nat.
      replace (String.length p + 10 - 10)%nat with (String.length p) by lia.
      rewrite drop_append. reflexivity.
    + destruct (String.eqb_spec (drop (String.length path - 10) path)
                                ".graph.bin") as [E|]; [|reflexivity].
      destruct (@drop_tail (String.length path - 10)%nat path) as (p & Hp & _);
        [lia|].
      rewrite E in Hp.
      assert (Hyes : has_suffix path ".graph.bin" = true)
        by (apply has_suffix_iff; now exists p).
      congruence.
  - intros Hlen.
    destruct (Nat.ltb_spec (String.length path) 10); [|lia].
    split; [reflexivity|].
    unfold has_suffix. change (String.length ".graph.bin") with 10%nat.
    destruct (Nat.leb_spec 10 (String.length path)); [lia | reflexivity].
Qed.

Lemma dynograph_file_is_binary_agrees_witness :
  dynograph_file_is_binary "example.graph.bin"
  = Ok (has_suffix "example.graph.bin" ".graph.bin").
Proof.
  apply (proj1 (dynograph_file_is_binary_agrees "example.graph.bin")).
  simpl. lia.
Defined.
